(** * clorm: the typed fact store and its indexed query engine

    A shallow embedding of [clorm/orm.py]: field definitions, predicate
    classes and their instances (facts), the comparator algebra with its
    simplification pass, placeholders, the sorted multimap index, the fact
    map of one predicate class and the [_Select] query over it.

    Python objects are modelled as records, dictionaries whose iteration
    order is observed as association lists, the other dictionaries as
    [gmap]s, and raised exceptions as the [Raise] branch of [result]. *)

From Stdlib Require Import ZArith.
From stdpp Require Import base option list sorting gmap strings.

Local Open Scope string_scope.
Local Open Scope list_scope.
Local Open Scope Z_scope.

(** ** Exceptions *)

Inductive exn : Type :=
| ValueError (msg : string)
| TypeError (msg : string)
| KeyError (msg : string)
| IndexError (msg : string)
| AttributeError (msg : string).

Inductive result (A : Type) : Type :=
| Ok (a : A)
| Raise (e : exn).
Arguments Ok {A} a.
Arguments Raise {A} e.

Global Instance result_ret : MRet result := λ A a, Ok a.

Global Instance result_bind : MBind result := λ A B k r,
  match r with
  | Ok a => k a
  | Raise e => Raise e
  end.

Definition is_ok {A : Type} (r : result A) : bool :=
  match r with Ok _ => true | Raise _ => false end.

(** ** Python values stored in fields and bound to placeholders *)

Inductive value : Type :=
| VNone
| VInt (n : Z)
| VStr (s : string).

Global Instance value_eq_dec : EqDecision value.
Proof. solve_decision. Defined.

Global Instance value_countable : Countable value.
Proof.
  refine (inj_countable'
    (λ v, match v with
          | VNone => inl ()
          | VInt n => inr (inl n)
          | VStr s => inr (inr s)
          end)
    (λ x, match x with
          | inl _ => VNone
          | inr (inl n) => VInt n
          | inr (inr s) => VStr s
          end) _).
  by intros [].
Defined.

(** Truth value of an object, as tested by [if v:] and [not v]. *)
Definition truthy (v : value) : bool :=
  match v with
  | VNone => false
  | VInt n => negb (n =? 0)
  | VStr s => negb (String.eqb s EmptyString)
  end.

(** The six functions of the [operator] module used as comparison
    operators. *)
Inductive compop : Type := op_eq | op_ne | op_lt | op_le | op_gt | op_ge.

Global Instance compop_eq_dec : EqDecision compop.
Proof. solve_decision. Defined.

(** Lexicographic order on strings, by character code. *)
Fixpoint str_ltb (s t : string) : bool :=
  match s, t with
  | EmptyString, EmptyString => false
  | EmptyString, String _ _ => true
  | String _ _, EmptyString => false
  | String a s', String b t' =>
      let x := Ascii.nat_of_ascii a in
      let y := Ascii.nat_of_ascii b in
      if (x <? y)%nat then true
      else if (y <? x)%nat then false
      else str_ltb s' t'
  end.

(** [v < w]: defined between two integers and between two strings, a
    [TypeError] otherwise. *)
Definition py_lt (v w : value) : result bool :=
  match v, w with
  | VInt a, VInt b => Ok (a <? b)
  | VStr s, VStr t => Ok (str_ltb s t)
  | _, _ => Raise (TypeError "'<' not supported between instances")
  end.

Definition py_eq (v w : value) : bool := bool_decide (v = w).

Definition apply_compop (op : compop) (v w : value) : result bool :=
  match op with
  | op_eq => Ok (py_eq v w)
  | op_ne => Ok (negb (py_eq v w))
  | op_lt => py_lt v w
  | op_gt => py_lt w v
  | op_le =>
      match v, w with
      | VInt a, VInt b => Ok (a <=? b)
      | VStr s, VStr t => Ok (negb (str_ltb t s))
      | _, _ => Raise (TypeError "'<=' not supported between instances")
      end
  | op_ge =>
      match v, w with
      | VInt a, VInt b => Ok (b <=? a)
      | VStr s, VStr t => Ok (negb (str_ltb s t))
      | _, _ => Raise (TypeError "'>=' not supported between instances")
      end
  end.

(** ** Solver symbols ([clingo.Symbol]) *)

(** A function symbol carries its sign: [positive] is false for a
    classically negated symbol such as [-p(1)]. *)
Inductive symbol : Type :=
| Number (n : Z)
| String_ (s : string)
| Function (name : string) (arguments : list symbol) (positive : bool)
| Infimum
| Supremum.

Inductive SymbolType : Type :=
  ST_Number | ST_String | ST_Function | ST_Infimum | ST_Supremum.

Global Instance SymbolType_eq_dec : EqDecision SymbolType.
Proof. solve_decision. Defined.

Definition symbol_type (t : symbol) : SymbolType :=
  match t with
  | Number _ => ST_Number
  | String_ _ => ST_String
  | Function _ _ _ => ST_Function
  | Infimum => ST_Infimum
  | Supremum => ST_Supremum
  end.

Definition symbol_name (t : symbol) : string :=
  match t with Function n _ _ => n | _ => EmptyString end.

Definition symbol_arguments (t : symbol) : list symbol :=
  match t with Function _ a _ => a | _ => [] end.

Definition symbol_positive (t : symbol) : bool :=
  match t with Function _ _ p => p | _ => true end.

(** The symbol with the sign removed. *)
Definition positive_form (t : symbol) : symbol :=
  match t with Function n a _ => Function n a true | _ => t end.

(** The symbol constructors check the Python type of their argument;
    [clingo.Function] is always called without its [positive] argument,
    which defaults to [True]. *)
Definition clingo_Number (v : value) : result symbol :=
  match v with
  | VInt n => Ok (Number n)
  | _ => Raise (TypeError "an integer is required")
  end.

Definition clingo_String (v : value) : result symbol :=
  match v with
  | VStr s => Ok (String_ s)
  | _ => Raise (TypeError "a string is required")
  end.

Definition clingo_Function (v : value) (args : list symbol) : result symbol :=
  match v with
  | VStr s => Ok (Function s args true)
  | _ => Raise (TypeError "a string is required")
  end.

(** ** Conversions between symbols and Python values *)

Definition integer_cltopy (term : symbol) : result value :=
  match term with
  | Number n => Ok (VInt n)
  | _ => Raise (TypeError "Object {0} is not a Number term")
  end.

Definition string_cltopy (term : symbol) : result value :=
  match term with
  | String_ s => Ok (VStr s)
  | _ => Raise (TypeError "Object {0} is not a String term")
  end.

Definition constant_cltopy (term : symbol) : result value :=
  match term with
  | Function name args _ =>
      if String.eqb name EmptyString || negb (length args =? 0)%nat
      then Raise (TypeError "Object {0} is not a Simple term")
      else Ok (VStr name)
  | _ => Raise (TypeError "Object {0} is not a Simple term")
  end.

Definition integer_pytocl (v : value) : result symbol := clingo_Number v.
Definition string_pytocl (v : value) : result symbol := clingo_String v.
Definition constant_pytocl (v : value) : result symbol := clingo_Function v [].

Definition integer_unifies (term : symbol) : bool :=
  if decide (symbol_type term ≠ ST_Number) then false else true.

Definition string_unifies (term : symbol) : bool :=
  if decide (symbol_type term ≠ ST_String) then false else true.

Definition constant_unifies (term : symbol) : bool :=
  if decide (symbol_type term ≠ ST_Function) then false
  else if String.eqb (symbol_name term) EmptyString
          || negb (length (symbol_arguments term) =? 0)%nat then false
  else true.

(** ** Field definitions

    Every field definition offers [pytocl], [cltopy], [unifies] and
    [default] (here [field_default]); the record is that interface. *)

Record field_defn : Type := mk_field_defn {
  pytocl : value → result symbol;
  cltopy : symbol → result value;
  unifies : symbol → bool;
  field_default : value
}.

(** [SimpleField.__init__] with its methods; [outfunc] and [infunc] are
    optional and [default] is [None] unless given. *)
Definition SimpleField
    (inner_cltopy : symbol → result value)
    (inner_pytocl : value → result symbol)
    (unifies_ : symbol → bool)
    (outfunc infunc : option (value → result value))
    (default_ : value) : field_defn :=
  {| pytocl := λ v,
       match infunc with
       | Some f => w ← f v ; inner_pytocl w
       | None => inner_pytocl v
       end;
     cltopy := λ s,
       match outfunc with
       | Some f => w ← inner_cltopy s ; f w
       | None => inner_cltopy s
       end;
     unifies := unifies_;
     field_default := default_ |}.

Definition IntegerField (outfunc infunc : option (value → result value))
    (default_ : value) : field_defn :=
  SimpleField integer_cltopy integer_pytocl integer_unifies
              outfunc infunc default_.

Definition StringField (outfunc infunc : option (value → result value))
    (default_ : value) : field_defn :=
  SimpleField string_cltopy string_pytocl string_unifies
              outfunc infunc default_.

Definition ConstantField (outfunc infunc : option (value → result value))
    (default_ : value) : field_defn :=
  SimpleField constant_cltopy constant_pytocl constant_unifies
              outfunc infunc default_.

(** ** Predicate classes, field accessors and facts *)

(** [NonLogicalSymbol.MetaData]: the predicate name and the ordered
    dictionary of field definitions. *)
Record MetaData : Type := mk_MetaData {
  meta_name : string;
  field_defns : list (string * field_defn)
}.

Definition field_names (md : MetaData) : list string :=
  (field_defns md).*1.

Definition arity (md : MetaData) : nat := length (field_names md).

Definition is_tuple (md : MetaData) : bool := String.eqb (meta_name md) EmptyString.

(** A class made by the metaclass. [cls_id] stands for the identity of the
    class object, [cls_name] for its [__name__]. *)
Record predicate_cls : Type := mk_predicate_cls {
  cls_id : nat;
  cls_name : string;
  meta : MetaData
}.

(** A field accessor. The metaclass makes one accessor per class and
    field, so the identity of an accessor is the pair of its parent class
    and its index; equality of records stands for [is]. *)
Record _Field : Type := mk_Field {
  _field_name : string;
  _field_index : nat;
  _parent_cls : nat;
  _no_setter : bool
}.

Global Instance Field_eq_dec : EqDecision _Field.
Proof. solve_decision. Defined.

(** The accessors the metaclass builds: [_Field(field_name, idx,
    field_defn)], hence [no_setter=True], followed by [set_parent(cls)]. *)
Definition _field_accessors (c : predicate_cls) : list _Field :=
  imap (λ idx fd, mk_Field fd.1 idx (cls_id c) true) (field_defns (meta c)).

(** An instance of a predicate class. *)
Record NonLogicalSymbol : Type := mk_NonLogicalSymbol {
  cls : predicate_cls;
  _symbol : option symbol;
  _field_values : gmap string value
}.

Definition set_field_value (self : NonLogicalSymbol) (k : string) (v : value)
    : NonLogicalSymbol :=
  {| cls := cls self;
     _symbol := _symbol self;
     _field_values := <[k := v]> (_field_values self) |}.

Definition set_symbol (self : NonLogicalSymbol) (s : symbol)
    : NonLogicalSymbol :=
  {| cls := cls self;
     _symbol := Some s;
     _field_values := _field_values self |}.

(** [self._field_values[k]] *)
Definition get_field_value (self : NonLogicalSymbol) (k : string)
    : result value :=
  match _field_values self !! k with
  | Some v => Ok v
  | None => Raise (KeyError k)
  end.

Definition isinstance (instance : NonLogicalSymbol) (parent : nat) : bool :=
  bool_decide (cls_id (cls instance) = parent).

(** [_Field.__get__], called on an instance. *)
Definition Field_get (self : _Field) (instance : NonLogicalSymbol)
    : result value :=
  if negb (isinstance instance (_parent_cls self))
  then Raise (TypeError "field accessor doesn't match instance type")
  else get_field_value instance (_field_name self).

(** [_Field.__set__] *)
Definition Field_set (self : _Field) (instance : NonLogicalSymbol) (v : value)
    : result NonLogicalSymbol :=
  if negb (_no_setter self)
  then Raise (AttributeError "can't set attribute")
  else if negb (isinstance instance (_parent_cls self))
  then Raise (TypeError "field accessor doesn't match instance type")
  else Ok (set_field_value instance (_field_name self) v).

(** [NonLogicalSymbol._generate_symbol] *)
Fixpoint generate_args (self : NonLogicalSymbol)
    (defns : list (string * field_defn)) : result (list symbol) :=
  match defns with
  | [] => Ok []
  | (field_name, fd) :: rest =>
      v ← get_field_value self field_name;
      s ← pytocl fd v;
      pred_args ← generate_args self rest;
      Ok (s :: pred_args)
  end.

Definition _generate_symbol (self : NonLogicalSymbol) : result symbol :=
  pred_args ← generate_args self (field_defns (meta (cls self)));
  Ok (Function (meta_name (meta (cls self))) pred_args true).

(** The [symbol] property: the canonical encoded form of a fact,
    recomputed from the stored field values. *)
Definition symbol_of (self : NonLogicalSymbol) : result symbol :=
  _generate_symbol self.

(** [NonLogicalSymbol._unifies] *)
Fixpoint unifies_args (idx : nat) (defns : list (string * field_defn))
    (arguments : list symbol) : bool :=
  match defns with
  | [] => true
  | (_, fd) :: rest =>
      match arguments !! idx with
      | Some term =>
          if negb (unifies fd term) then false
          else unifies_args (S idx) rest arguments
      | None => false
      end
  end.

Definition _unifies (c : predicate_cls) (s : symbol) : bool :=
  if decide (symbol_type s ≠ ST_Function) then false
  else if negb (String.eqb (symbol_name s) (meta_name (meta c))) then false
  else if negb (length (symbol_arguments s)
                =? length (field_defns (meta c)))%nat then false
  else unifies_args 0 (field_defns (meta c)) (symbol_arguments s).

(** [t[idx]] on a tuple of length [n]: the position that the integer
    [idx] designates, a negative [idx] counting from the end, and none
    when [idx] is out of range. *)
Definition tuple_index (n : nat) (idx : Z) : option nat :=
  if (0 <=? idx) && (idx <? Z.of_nat n) then Some (Z.to_nat idx)
  else if (idx <? 0) && (- Z.of_nat n <=? idx)
       then Some (Z.to_nat (Z.of_nat n + idx))
  else None.

Definition tuple_getitem {A : Type} (t : list A) (idx : Z) : option A :=
  match tuple_index (length t) idx with
  | Some pos => t !! pos
  | None => None
  end.

(** [NonLogicalSymbol.__getitem__] and [__setitem__]: the accessor is
    taken from the tuple [_field_accessors] at the integer [idx]. *)
Definition getitem (self : NonLogicalSymbol) (idx : Z) : result value :=
  match tuple_getitem (_field_accessors (cls self)) idx with
  | Some fa => Field_get fa self
  | None => Raise (IndexError "tuple index out of range")
  end.

Definition setitem (self : NonLogicalSymbol) (idx : Z) (v : value)
    : result NonLogicalSymbol :=
  match tuple_getitem (_field_accessors (cls self)) idx with
  | Some fa => Field_set fa self v
  | None => Raise (IndexError "tuple index out of range")
  end.

(** ** Construction of facts *)

(** [kwargs[k]] and [k in kwargs] for keyword arguments. *)
Fixpoint kw_lookup (kwargs : list (string * value)) (k : string)
    : option value :=
  match kwargs with
  | [] => None
  | (k', v) :: rest => if String.eqb k' k then Some v else kw_lookup rest k
  end.

Definition kw_mem (kwargs : list (string * value)) (k : string) : bool :=
  match kw_lookup kwargs k with Some _ => true | None => false end.

(** [_nls_init_by_symbol]; the keyword [_symbol] is the argument [s], and
    [kwargs] holds the remaining keywords. *)
Fixpoint decode_fields (self : NonLogicalSymbol) (idx : nat)
    (defns : list (string * field_defn)) (arguments : list symbol)
    : result NonLogicalSymbol :=
  match defns with
  | [] => Ok self
  | (field_name, fd) :: rest =>
      match arguments !! idx with
      | Some term =>
          v ← cltopy fd term;
          decode_fields (set_field_value self field_name v) (S idx)
                        rest arguments
      | None => Raise (IndexError "list index out of range")
      end
  end.

Definition _nls_init_by_symbol (self : NonLogicalSymbol) (s : symbol)
    (kwargs : list (string * value)) : result NonLogicalSymbol :=
  if negb (length kwargs =? 0)%nat
  then Raise (ValueError "Invalid combination of keyword arguments")
  else if negb (_unifies (cls self) s)
  then Raise (ValueError "Failed to unify symbol with NonLogicalSymbol class")
  else decode_fields (set_symbol self s) 0
                     (field_defns (meta (cls self))) (symbol_arguments s).

(** [_nls_init_by_keyword_values] *)
Fixpoint keyword_fields (self : NonLogicalSymbol)
    (defns : list (string * field_defn)) (kwargs : list (string * value))
    : result NonLogicalSymbol :=
  match defns with
  | [] => Ok self
  | (field_name, fd) :: rest =>
      match kw_lookup kwargs field_name with
      | None =>
          if negb (truthy (field_default fd))
          then Raise (ValueError "Unspecified field has no default value")
          else keyword_fields (set_field_value self field_name (field_default fd))
                              rest kwargs
      | Some v =>
          keyword_fields (set_field_value self field_name v) rest kwargs
      end
  end.

Definition _nls_init_by_keyword_values (self : NonLogicalSymbol)
    (kwargs : list (string * value)) : result NonLogicalSymbol :=
  let fields := field_names (meta (cls self)) in
  let invalids :=
    filter (λ k, k ∉ fields) (kwargs.*1) in
  if negb (length invalids =? 0)%nat
  then Raise (ValueError "Arguments are not valid fields")
  else
    self' ← keyword_fields self (field_defns (meta (cls self))) kwargs;
    s ← _generate_symbol self';
    Ok (set_symbol self' s).

(** [_nls_init_by_positional_values]. On an arity mismatch the function
    returns the [ValueError] object to its caller, which ignores the
    returned value; the instance is left as it was. *)
Fixpoint positional_fields (self : NonLogicalSymbol) (idx : nat)
    (defns : list (string * field_defn)) (args : list value)
    : result NonLogicalSymbol :=
  match defns with
  | [] => Ok self
  | (field_name, _) :: rest =>
      match args !! idx with
      | Some a =>
          positional_fields (set_field_value self field_name a) (S idx)
                            rest args
      | None => Raise (IndexError "tuple index out of range")
      end
  end.

Definition _nls_init_by_positional_values (self : NonLogicalSymbol)
    (args : list value) : result NonLogicalSymbol :=
  let argc := length args in
  let arity_ := length (field_defns (meta (cls self))) in
  if negb (argc =? arity_)%nat
  then Ok self
  else
    self' ← positional_fields self 0 (field_defns (meta (cls self))) args;
    s ← _generate_symbol self';
    Ok (set_symbol self' s).

(** [_nls_constructor]: the [__init__] of every predicate class. *)
Definition _nls_constructor (c : predicate_cls) (s : option symbol)
    (args : list value) (kwargs : list (string * value))
    : result NonLogicalSymbol :=
  let self := {| cls := c; _symbol := None; _field_values := ∅ |} in
  match s with
  | Some sym => _nls_init_by_symbol self sym kwargs
  | None =>
      if (0 <? length args)%nat
      then _nls_init_by_positional_values self args
      else _nls_init_by_keyword_values self kwargs
  end.

(** ** Placeholders *)

(** A placeholder is named by a string ([ph_]) or by a position
    ([ph1_] .. [ph4_] are named 0 .. 3). *)
Inductive ph_name : Type :=
| PhIndex (n : nat)
| PhName (s : string).

Global Instance ph_name_eq_dec : EqDecision ph_name.
Proof. solve_decision. Defined.

(** A placeholder object: [ph_id] stands for its identity; [_name] and
    [_default] never change after [__init__]. The mutable attribute
    [_value] of all placeholder objects is kept in a store. *)
Record _Placeholder : Type := mk_Placeholder {
  ph_id : nat;
  _name : ph_name;
  _default : value
}.

Global Instance Placeholder_eq_dec : EqDecision _Placeholder.
Proof. solve_decision. Defined.

(** The store of the [_value] attributes; [__init__] sets [_value] to
    [None], which is what an identity absent from the store reads as. *)
Definition ph_store : Type := gmap nat value.

Definition ph_value (σ : gmap nat value) (p : _Placeholder) : value :=
  default VNone (σ !! ph_id p).

Definition ph_set_value (σ : gmap nat value) (p : _Placeholder) (v : value)
    : gmap nat value :=
  <[ph_id p := v]> σ.

Definition ph_reset (σ : gmap nat value) (p : _Placeholder)
    : gmap nat value :=
  ph_set_value σ p (_default p).

Definition ph_ (i : nat) (name : string) (default_ : value) : _Placeholder :=
  mk_Placeholder i (PhName name) default_.
Definition ph1_ (i : nat) : _Placeholder := mk_Placeholder i (PhIndex 0) VNone.
Definition ph2_ (i : nat) : _Placeholder := mk_Placeholder i (PhIndex 1) VNone.
Definition ph3_ (i : nat) : _Placeholder := mk_Placeholder i (PhIndex 2) VNone.
Definition ph4_ (i : nat) : _Placeholder := mk_Placeholder i (PhIndex 3) VNone.

(** ** Comparators *)

(** One side of a field comparison. A callable given as second operand
    (the function [ph1_] itself) is replaced by the object it returns when
    the comparator is built; operands are taken after that step. *)
Inductive operand : Type :=
| AField (f : _Field)
| APlaceholder (p : _Placeholder)
| AValue (v : value).

Global Instance operand_eq_dec : EqDecision operand.
Proof. solve_decision. Defined.

Definition is_Field (a : operand) : bool :=
  match a with AField _ => true | _ => false end.

Definition is_Placeholder (a : operand) : bool :=
  match a with APlaceholder _ => true | _ => false end.

Inductive boolop : Type := not_op | and_op | or_op.

Global Instance boolop_eq_dec : EqDecision boolop.
Proof. solve_decision. Defined.

(** The three comparator classes, and the other objects that can stand
    where a comparator is expected. A [_FieldComparator] keeps its
    operator, both operands, the flag [_static] and, when static, its
    precomputed [_value]. [_BoolComparator.__init__] and [where] take
    any object as a condition: [_RawBool] is a Python [bool] passed as
    such, and [_Callable] any other object, given by what calling it on
    a fact does: it raises, or it returns an object of which the callers
    only test the truth value (an object that cannot be called raises
    [TypeError]). *)
Inductive comparator : Type :=
| _StaticComparator (value_ : bool)
| _FieldComparator (op : compop) (arg1 arg2 : operand)
                   (static_ : bool) (value_ : bool)
| _BoolComparator (op : boolop) (args : list comparator)
| _RawBool (b : bool)
| _Callable (call : NonLogicalSymbol → result bool).

(** [compop(arg1, arg2)] on two operands neither of which is a field:
    literals compare as values; a placeholder object has the default
    comparison of objects, which is by identity for [==] and [!=] and
    undefined for the order operators. *)
Definition operand_compop (op : compop) (a b : operand) : result bool :=
  match a, b with
  | AValue v, AValue w => apply_compop op v w
  | _, _ =>
      match op with
      | op_eq => Ok (bool_decide (a = b))
      | op_ne => Ok (negb (bool_decide (a = b)))
      | _ => Raise (TypeError "not supported between instances")
      end
  end.

(** [_FieldComparator.__init__] *)
Definition FieldComparator_init (op : compop) (arg1 arg2 : operand)
    : result comparator :=
  if bool_decide (arg1 = arg2) then
    v ← apply_compop op (VInt 1) (VInt 1);
    Ok (_FieldComparator op arg1 arg2 true v)
  else if negb (is_Field arg1) && negb (is_Field arg2) then
    v ← operand_compop op arg1 arg2;
    Ok (_FieldComparator op arg1 arg2 true v)
  else Ok (_FieldComparator op arg1 arg2 false false).

(** The comparison operators of [_Field] build field comparators. *)
Definition Field_compare (op : compop) (self : _Field) (other : operand)
    : result comparator :=
  FieldComparator_init op (AField self) other.

(** [_BoolComparator.__init__] *)
Definition BoolComparator_init (op : boolop) (args : list comparator)
    : result comparator :=
  if bool_decide (op = not_op) && negb (length args =? 1)%nat
  then Raise (IndexError "'not' operator expects exactly one argument")
  else if negb (bool_decide (op = not_op)) && (length args <=? 1)%nat
  then Raise (IndexError "bool operator expects more than one argument")
  else Ok (_BoolComparator op args).

Definition and_ (conditions : list comparator) : result comparator :=
  BoolComparator_init and_op conditions.
Definition or_ (conditions : list comparator) : result comparator :=
  BoolComparator_init or_op conditions.

(** [getargval] of [_FieldComparator.__call__] *)
Definition getargval (σ : gmap nat value) (a : operand)
    (fact : NonLogicalSymbol) : result value :=
  match a with
  | AField f => Field_get f fact
  | APlaceholder p => Ok (ph_value σ p)
  | AValue v => Ok v
  end.

(** [try: ... except (KeyError, TypeError): return False] *)
Definition catch_key_type (r : result bool) : result bool :=
  match r with
  | Raise (KeyError _) => Ok false
  | Raise (TypeError _) => Ok false
  | _ => r
  end.

(** [_FieldComparator.__call__] *)
Definition FieldComparator_call (σ : gmap nat value) (op : compop)
    (arg1 arg2 : operand) (static_ value_ : bool) (fact : NonLogicalSymbol)
    : result bool :=
  if static_ then Ok value_
  else catch_key_type
         (v1 ← getargval σ arg1 fact;
          v2 ← getargval σ arg2 fact;
          apply_compop op v1 v2).

(** The [__call__] methods of the three classes; calling a [bool]
    raises [TypeError]. *)
Fixpoint comparator_call (σ : gmap nat value) (c : comparator)
    (fact : NonLogicalSymbol) {struct c} : result bool :=
  match c with
  | _StaticComparator v => Ok v
  | _FieldComparator op a1 a2 st v => FieldComparator_call σ op a1 a2 st v fact
  | _RawBool _ => Raise (TypeError "'bool' object is not callable")
  | _Callable call => call fact
  | _BoolComparator op args =>
      match op with
      | not_op =>
          match args with
          | a :: _ => b ← comparator_call σ a fact; Ok (negb b)
          | [] => Raise (IndexError "tuple index out of range")
          end
      | and_op =>
          (fix loop (l : list comparator) : result bool :=
             match l with
             | [] => Ok true
             | a :: rest =>
                 b ← comparator_call σ a fact;
                 if negb b then Ok false else loop rest
             end) args
      | or_op =>
          (fix loop (l : list comparator) : result bool :=
             match l with
             | [] => Ok false
             | a :: rest =>
                 b ← comparator_call σ a fact;
                 if (b : bool) then Ok true else loop rest
             end) args
      end
  end.

(** ** Simplification *)

(** The end of [_BoolComparator.simplified], after the loop over the
    arguments. *)
Definition simplified_finish (op : boolop) (newargs : list comparator)
    : result comparator :=
  match newargs, op with
  | [], and_op => Ok (_StaticComparator true)
  | [], or_op => Ok (_StaticComparator false)
  | _, _ =>
      match newargs with
      | [x] =>
          if negb (bool_decide (op = not_op)) then Ok x
          else BoolComparator_init op newargs
      | _ => BoolComparator_init op newargs
      end
  end.

(** The [except] branch of [_simplify_fact_comparator]: a [bool]
    becomes a static comparator, any other object is returned as it
    is. *)
Definition simplify_failed (c : comparator) : comparator :=
  match c with
  | _RawBool b => _StaticComparator b
  | _ => c
  end.

(** The [simplified] methods, with [_simplify_fact_comparator] between a
    boolean comparator and its arguments. [_StaticComparator] has no
    method of that name (its method is spelt [simpified]), and neither
    has a [bool] or another object, so the call raises
    [AttributeError], which [_simplify_fact_comparator] catches, as it
    catches everything. *)
Fixpoint simplified (c : comparator) : result comparator :=
  match c with
  | _StaticComparator _ | _RawBool _ | _Callable _ =>
      Raise (AttributeError "object has no attribute 'simplified'")
  | _FieldComparator op a1 a2 st v =>
      if st then Ok (_StaticComparator v) else Ok c
  | _BoolComparator op args =>
      (fix loop (l : list comparator) (newargs : list comparator)
           {struct l} : result comparator :=
         match l with
         | [] => simplified_finish op newargs
         | arg :: rest =>
             let sarg :=
               match simplified arg with
               | Ok s => s
               | Raise _ => simplify_failed arg
               end in
             match sarg with
             | _StaticComparator v =>
                 if bool_decide (op = not_op)
                 then Ok (_StaticComparator (negb v))
                 else loop rest newargs
             | _ => loop rest (newargs ++ [sarg])
             end
         end) args []
  end.

Definition _simplify_fact_comparator (c : comparator) : comparator :=
  match simplified c with
  | Ok s => s
  | Raise _ => simplify_failed c
  end.

(** ** The multimap index *)

(** [bisect.bisect_left] and [bisect.bisect_right] of the standard
    library: binary search between [lo] and [hi]. Each round shrinks
    [hi - lo], so [length a] rounds are enough. *)
Fixpoint bisect_left_loop (fuel : nat) (a : list value) (x : value)
    (lo hi : nat) : result nat :=
  match fuel with
  | O => Ok lo
  | S n =>
      if (lo <? hi)%nat then
        let mid := ((lo + hi) / 2)%nat in
        match a !! mid with
        | Some am =>
            b ← py_lt am x;
            if (b : bool) then bisect_left_loop n a x (mid + 1)%nat hi
            else bisect_left_loop n a x lo mid
        | None => Raise (IndexError "list index out of range")
        end
      else Ok lo
  end.

Definition bisect_left (a : list value) (x : value) : result nat :=
  bisect_left_loop (length a) a x 0%nat (length a).

Fixpoint bisect_right_loop (fuel : nat) (a : list value) (x : value)
    (lo hi : nat) : result nat :=
  match fuel with
  | O => Ok lo
  | S n =>
      if (lo <? hi)%nat then
        let mid := ((lo + hi) / 2)%nat in
        match a !! mid with
        | Some am =>
            b ← py_lt x am;
            if (b : bool) then bisect_right_loop n a x lo mid
            else bisect_right_loop n a x (mid + 1)%nat hi
        | None => Raise (IndexError "list index out of range")
        end
      else Ok lo
  end.

Definition bisect_right (a : list value) (x : value) : result nat :=
  bisect_right_loop (length a) a x 0%nat (length a).

(** [bisect.insort_left] *)
Definition insort_left (a : list value) (x : value) : result (list value) :=
  lo ← bisect_left a x;
  Ok (take lo a ++ x :: drop lo a).

Record _MultiMap : Type := mk_MultiMap {
  _keylist : list value;
  _key2values : gmap value (list NonLogicalSymbol)
}.

Definition MultiMap_init : _MultiMap :=
  {| _keylist := []; _key2values := ∅ |}.

Definition keys (self : _MultiMap) : list value := _keylist self.

Definition keys_eq (self : _MultiMap) (key : value) : result (list value) :=
  match _key2values self !! key with
  | Some _ => Ok [key]
  | None => Ok []
  end.

Definition keys_ne (self : _MultiMap) (key : value) : result (list value) :=
  posn1 ← bisect_left (_keylist self) key;
  let left := if negb (posn1 =? 0)%nat then take posn1 (_keylist self)
              else [] in
  posn2 ← bisect_right (_keylist self) key;
  let right := if negb (posn2 =? 0)%nat then drop posn2 (_keylist self)
               else [] in
  Ok (left ++ right).

Definition keys_lt (self : _MultiMap) (key : value) : result (list value) :=
  posn ← bisect_left (_keylist self) key;
  if negb (posn =? 0)%nat then Ok (take posn (_keylist self)) else Ok [].

Definition keys_le (self : _MultiMap) (key : value) : result (list value) :=
  posn ← bisect_right (_keylist self) key;
  if negb (posn =? 0)%nat then Ok (take posn (_keylist self)) else Ok [].

Definition keys_gt (self : _MultiMap) (key : value) : result (list value) :=
  posn ← bisect_right (_keylist self) key;
  if negb (posn =? 0)%nat then Ok (drop posn (_keylist self)) else Ok [].

Definition keys_ge (self : _MultiMap) (key : value) : result (list value) :=
  posn ← bisect_left (_keylist self) key;
  if negb (posn =? 0)%nat then Ok (drop posn (_keylist self)) else Ok [].

Definition keys_op (self : _MultiMap) (op : compop) (key : value)
    : result (list value) :=
  match op with
  | op_eq => keys_eq self key
  | op_ne => keys_ne self key
  | op_lt => keys_lt self key
  | op_le => keys_le self key
  | op_gt => keys_gt self key
  | op_ge => keys_ge self key
  end.

Definition MultiMap_clear (self : _MultiMap) : _MultiMap := MultiMap_init.

(** [_MultiMap.__getitem__] *)
Definition MultiMap_getitem (self : _MultiMap) (key : value)
    : result (list NonLogicalSymbol) :=
  match _key2values self !! key with
  | Some l => Ok l
  | None => Raise (KeyError "key")
  end.

(** [_MultiMap.__setitem__] *)
Definition MultiMap_setitem (self : _MultiMap) (key : value)
    (v : NonLogicalSymbol) : result _MultiMap :=
  let k2v :=
    match _key2values self !! key with
    | None => <[key := []]> (_key2values self)
    | Some _ => _key2values self
    end in
  let k2v := <[key := (default [] (k2v !! key) ++ [v])]> k2v in
  posn ← bisect_left (_keylist self) key;
  if (posn <? length (_keylist self))%nat
     && bool_decide (_keylist self !! posn = Some key)
  then Ok {| _keylist := _keylist self; _key2values := k2v |}
  else
    kl ← insort_left (_keylist self) key;
    Ok {| _keylist := kl; _key2values := k2v |}.

(** ** The fact map of one predicate class *)

(** Assignment [d[k] = v] in a dictionary that keeps insertion order. *)
Fixpoint od_set {K V : Type} `{EqDecision K} (d : list (K * V)) (k : K)
    (v : V) : list (K * V) :=
  match d with
  | [] => [(k, v)]
  | (k', v') :: rest =>
      if decide (k' = k) then (k', v) :: rest
      else (k', v') :: od_set rest k v
  end.

Fixpoint od_get {K V : Type} `{EqDecision K} (d : list (K * V)) (k : K)
    : option V :=
  match d with
  | [] => None
  | (k', v) :: rest => if decide (k' = k) then Some v else od_get rest k
  end.

(** A dictionary built from a sequence of pairs, in sequence order. *)
Definition od_of_list {K V : Type} `{EqDecision K} (l : list (K * V))
    : list (K * V) :=
  foldl (λ d kv, od_set d kv.1 kv.2) [] l.

Record _FactMap : Type := mk_FactMap {
  _allfacts : list NonLogicalSymbol;
  _mmaps : option (list (_Field * _MultiMap))
}.

Definition FactMap_init (index : list _Field) : _FactMap :=
  {| _allfacts := [];
     _mmaps := if (length index =? 0)%nat then None
               else Some (od_of_list ((λ f, (f, MultiMap_init)) <$> index)) |}.

(** The loop of [_FactMap.add] over the multimaps. *)
Fixpoint add_to_mmaps (mm : list (_Field * _MultiMap))
    (fact : NonLogicalSymbol) : result (list (_Field * _MultiMap)) :=
  match mm with
  | [] => Ok []
  | (field, mmap) :: rest =>
      key ← Field_get field fact;
      mmap' ← MultiMap_setitem mmap key fact;
      rest' ← add_to_mmaps rest fact;
      Ok ((field, mmap') :: rest')
  end.

Definition FactMap_add (self : _FactMap) (fact : NonLogicalSymbol)
    : result _FactMap :=
  let allfacts := (_allfacts self ++ [fact]) in
  match _mmaps self with
  | Some ((_ :: _) as mm) =>
      mm' ← add_to_mmaps mm fact;
      Ok {| _allfacts := allfacts; _mmaps := Some mm' |}
  | _ => Ok {| _allfacts := allfacts; _mmaps := _mmaps self |}
  end.

Definition indexed_fields (self : _FactMap) : list _Field :=
  match _mmaps self with
  | Some ((_ :: _) as mm) => mm.*1
  | _ => []
  end.

Definition get_facts_multimap (self : _FactMap) (field : _Field)
    : result _MultiMap :=
  match _mmaps self with
  | Some mm =>
      match od_get mm field with
      | Some m => Ok m
      | None => Raise (KeyError "field")
      end
  | None => Raise (TypeError "'NoneType' object is not subscriptable")
  end.

Definition get_all_facts (self : _FactMap) : list NonLogicalSymbol :=
  _allfacts self.

Definition FactMap_clear (self : _FactMap) : _FactMap :=
  {| _allfacts := [];
     _mmaps := match _mmaps self with
               | Some mm => Some ((λ fm, (fm.1, MultiMap_clear fm.2)) <$> mm)
               | None => None
               end |}.

(** ** Queries *)

Record _Select : Type := mk_Select {
  _index_priority : list (_Field * nat);
  _where : option comparator;
  _indexable : option (_Field * compop * operand);
  _name_to_ph : list (ph_name * _Placeholder)
}.

(** [_Select.__init__]; the fact map itself is passed to [get], which
    reads it in the state it has when the query runs. *)
Definition Select_init (factmap : _FactMap) : _Select :=
  {| _index_priority :=
       od_of_list (imap (λ p f, (f, p)) (indexed_fields factmap));
     _where := None;
     _indexable := None;
     _name_to_ph := [] |}.

(** [_FieldComparator.indexable] *)
Definition indexable (c : comparator) : option (_Field * compop * operand) :=
  match c with
  | _FieldComparator op arg1 arg2 st _ =>
      if st then None
      else match arg1 with
           | AField f => if is_Field arg2 then None else Some (f, op, arg2)
           | _ => None
           end
  | _ => None
  end.

(** [_FieldComparator.placeholders] *)
Definition placeholders (arg1 arg2 : operand) : list _Placeholder :=
  (match arg1 with APlaceholder p => [p] | _ => [] end)
  ++ (match arg2 with APlaceholder p => [p] | _ => [] end).

Definition validate_indexable (prio : list (_Field * nat))
    (ix : option (_Field * compop * operand))
    : option (_Field * compop * operand) :=
  match ix with
  | None => None
  | Some (f, op, a) =>
      match od_get prio f with
      | None => None
      | Some _ => Some (f, op, a)
      end
  end.

(** [prio[tmp[0]] < prio[indexable[0]]]; both fields have passed
    [validate_indexable], so both lookups succeed. *)
Definition priority_lt (prio : list (_Field * nat)) (f g : _Field) : bool :=
  match od_get prio f, od_get prio g with
  | Some p, Some q => (p <? q)%nat
  | _, _ => false
  end.

(** [_Select._primary_search] *)
Fixpoint _primary_search (prio : list (_Field * nat)) (where' : comparator)
    {struct where'} : option (_Field * compop * operand) :=
  match where' with
  | _FieldComparator _ _ _ _ _ => validate_indexable prio (indexable where')
  | _BoolComparator and_op args =>
      (fix loop (l : list comparator)
           (ix : option (_Field * compop * operand)) {struct l}
           : option (_Field * compop * operand) :=
         match l with
         | [] => ix
         | arg :: rest =>
             match _primary_search prio arg with
             | Some tmp =>
                 match ix with
                 | None => loop rest (Some tmp)
                 | Some cur =>
                     if priority_lt prio tmp.1.1 cur.1.1
                     then loop rest (Some tmp)
                     else loop rest ix
                 end
             | None => loop rest ix
             end
         end) args None
  | _ => None
  end.

(** [_Select._get_placeholders] *)
Fixpoint _get_placeholders (where' : comparator) : list _Placeholder :=
  match where' with
  | _FieldComparator _ arg1 arg2 _ _ => placeholders arg1 arg2
  | _BoolComparator _ args =>
      (fix loop (l : list comparator) : list _Placeholder :=
         match l with
         | [] => []
         | arg :: rest => _get_placeholders arg ++ loop rest
         end) args
  | _ => []
  end.

(** [_Select.where] *)
Definition where_ (self : _Select) (expressions : list comparator)
    : result _Select :=
  match _where self with
  | Some _ => Raise (ValueError "trying to specify multiple where clauses")
  | None =>
      w ← match expressions with
          | [] => Ok None
          | [e] => Ok (Some (_simplify_fact_comparator e))
          | _ => c ← and_ expressions;
                 Ok (Some (_simplify_fact_comparator c))
          end;
      let phs := match w with Some c => _get_placeholders c | None => [] end in
      Ok {| _index_priority := _index_priority self;
            _where := w;
            _indexable :=
              match w with
              | Some c => _primary_search (_index_priority self) c
              | None => None
              end;
            _name_to_ph := od_of_list ((λ p, (_name p, p)) <$> phs) |}
  end.

(** Binding results carry the placeholder store as the call leaves it,
    also when the call raises. *)
Definition bound (A : Type) : Type := gmap nat value * result A.

(** The positional loop of [_set_placeholder_values]. *)
Fixpoint bind_positional (name_to_ph : list (ph_name * _Placeholder))
    (idx : nat) (args : list value) (σ : gmap nat value) : bound unit :=
  match args with
  | [] => (σ, Ok ())
  | arg :: rest =>
      match od_get name_to_ph (PhIndex idx) with
      | None =>
          (σ, Raise (ValueError "no placeholder for positional argument index"))
      | Some ph =>
          bind_positional name_to_ph (S idx) rest (ph_set_value σ ph arg)
      end
  end.

(** [kwargs.get(n, None)] for a placeholder name [n]; keywords are
    strings, so a positional name is never among them. *)
Definition kwargs_get (kwargs : list (string * value)) (n : ph_name) : value :=
  match n with
  | PhName s => default VNone (kw_lookup kwargs s)
  | PhIndex _ => VNone
  end.

(** The check that every keyword names a known placeholder. *)
Fixpoint check_names (name_to_ph : list (ph_name * _Placeholder))
    (names : list string) : result unit :=
  match names with
  | [] => Ok ()
  | n :: rest =>
      if (length name_to_ph =? 0)%nat
         || negb (bool_decide (is_Some (od_get name_to_ph (PhName n))))
      then Raise (ValueError "unknown placeholder name")
      else check_names name_to_ph rest
  end.

(** The keyword loop of [_set_placeholder_values]. *)
Fixpoint bind_keywords (items : list (ph_name * _Placeholder))
    (kwargs : list (string * value)) (σ : gmap nat value) : bound unit :=
  match items with
  | [] => (σ, Ok ())
  | (n, ph) :: rest =>
      let v := kwargs_get kwargs n in
      let σ' := if bool_decide (v = VNone) then ph_reset σ ph
                else ph_set_value σ ph v in
      if bool_decide (ph_value σ' ph = VNone)
      then (σ', Raise (ValueError "no value for placeholder"))
      else bind_keywords rest kwargs σ'
  end.

(** [_Select._set_placeholder_values] *)
Definition _set_placeholder_values (self : _Select) (args : list value)
    (kwargs : list (string * value)) (σ : gmap nat value) : bound unit :=
  let name_to_ph := _name_to_ph self in
  if (length name_to_ph =? 0)%nat && (length kwargs =? 0)%nat
     && (length args =? 0)%nat
  then (σ, Ok ())
  else if negb (length args =? 0)%nat && negb (length kwargs =? 0)%nat
  then (σ, Raise (ValueError
                    "cannot specify both positional and keyword arguments"))
  else if negb (length args =? 0)%nat then
    if negb (length args =? length name_to_ph)%nat
    then (σ, Raise (ValueError
                      "Mismatch in the number of placeholder arguments"))
    else bind_positional name_to_ph 0 args σ
  else
    match check_names name_to_ph (kwargs.*1) with
    | Raise e => (σ, Raise e)
    | Ok _ => bind_keywords name_to_ph kwargs σ
    end.

(** [get_value] of [_Select.get] *)
Definition get_value (σ : gmap nat value) (v : operand) : operand :=
  match v with
  | APlaceholder p => AValue (ph_value σ p)
  | _ => v
  end.

(** The facts of a sequence that the where clause accepts, in order. *)
Fixpoint select_facts (σ : gmap nat value) (w : comparator)
    (facts : list NonLogicalSymbol) : result (list NonLogicalSymbol) :=
  match facts with
  | [] => Ok []
  | f :: rest =>
      b ← comparator_call σ w f;
      out ← select_facts σ w rest;
      Ok (if (b : bool) then f :: out else out)
  end.

(** The loop of [_Select.get] over the keys picked from the index. *)
Fixpoint select_keys (σ : gmap nat value) (w : comparator) (mmap : _MultiMap)
    (ks : list value) : result (list NonLogicalSymbol) :=
  match ks with
  | [] => Ok []
  | key :: rest =>
      fs ← MultiMap_getitem mmap key;
      out1 ← select_facts σ w fs;
      out2 ← select_keys σ w mmap rest;
      Ok (out1 ++ out2)
  end.

(** What [get] yields once the placeholders are bound. *)
Definition get_results (self : _Select) (factmap : _FactMap)
    (σ : gmap nat value) : result (list NonLogicalSymbol) :=
  match _indexable self with
  | None =>
      match _where self with
      | None => Ok (get_all_facts factmap)
      | Some w => select_facts σ w (get_all_facts factmap)
      end
  | Some (field, op, operand_) =>
      mmap ← get_facts_multimap factmap field;
      match get_value σ operand_ with
      | AValue key =>
          ks ← keys_op mmap op key;
          match _where self with
          | Some w => select_keys σ w mmap ks
          | None => Raise (TypeError "'NoneType' object is not callable")
          end
      | _ => Raise (TypeError "unorderable key")
      end
  end.

(** [_Select.get]: all the facts the generator yields, with the
    placeholder store it leaves. *)
Definition get (self : _Select) (factmap : _FactMap)
    (args : list value) (kwargs : list (string * value))
    (σ : gmap nat value) : bound (list NonLogicalSymbol) :=
  match _set_placeholder_values self args kwargs σ with
  | (σ', Raise e) => (σ', Raise e)
  | (σ', Ok _) => (σ', get_results self factmap σ')
  end.

(** [_Select.get_unique] *)
Definition get_unique (self : _Select) (factmap : _FactMap)
    (args : list value) (kwargs : list (string * value))
    (σ : gmap nat value) : bound NonLogicalSymbol :=
  match get self factmap args kwargs σ with
  | (σ', Raise e) => (σ', Raise e)
  | (σ', Ok []) =>
      (σ', Raise (ValueError "No facts found - exactly one expected"))
  | (σ', Ok [f]) => (σ', Ok f)
  | (σ', Ok _) =>
      (σ', Raise (ValueError "Multiple facts found - exactly one expected"))
  end.

(** ** The fact base *)

(** The fact maps of a fact base, keyed by predicate class. *)
Record FactBase : Type := mk_FactBase {
  _factmaps : gmap nat _FactMap
}.

(** The grouping of the indexed fields by parent class in
    [FactBase.__init__]. *)
Definition group_index (index : list _Field) : gmap nat (list _Field) :=
  foldl (λ grouped f,
           <[_parent_cls f :=
               default [] (grouped !! _parent_cls f) ++ [f]]> grouped)
        ∅ index.

Definition FactBase_init (index : list _Field) : FactBase :=
  {| _factmaps := FactMap_init <$> group_index index |}.

(** [FactBase.add] of one fact. *)
Definition FactBase_add (self : FactBase) (fact : NonLogicalSymbol)
    : result FactBase :=
  let predicate_cls_ := cls_id (cls fact) in
  let fm := default (FactMap_init []) (_factmaps self !! predicate_cls_) in
  fm' ← FactMap_add fm fact;
  Ok {| _factmaps := <[predicate_cls_ := fm']> (_factmaps self) |}.

(** [FactBase.add] of an iterable of facts. *)
Fixpoint FactBase_add_all (self : FactBase) (facts : list NonLogicalSymbol)
    : result FactBase :=
  match facts with
  | [] => Ok self
  | f :: rest => fb ← FactBase_add self f; FactBase_add_all fb rest
  end.

(** [FactBase.select]: the fact map of the class, made on demand, and a
    fresh query over it. *)
Definition FactBase_select (self : FactBase) (c : predicate_cls)
    : FactBase * _FactMap * _Select :=
  let fm := default (FactMap_init []) (_factmaps self !! cls_id c) in
  ({| _factmaps := <[cls_id c := fm]> (_factmaps self) |}, fm, Select_init fm).

Definition FactBase_clear (self : FactBase) : FactBase :=
  {| _factmaps := FactMap_clear <$> _factmaps self |}.

(** ** A running example: [Point(x, y)] with two integer fields *)

Module Example.

Definition Point : predicate_cls :=
  {| cls_id := 1;
     cls_name := "Point";
     meta := {| meta_name := "point";
                field_defns := [("x", IntegerField None None VNone);
                                ("y", IntegerField None None VNone)] |} |}.

Definition Point_x : _Field := mk_Field "x" 0 1 true.
Definition Point_y : _Field := mk_Field "y" 1 1 true.

Definition point (x y : Z) : result NonLogicalSymbol :=
  _nls_constructor Point None [VInt x; VInt y] [].

(** The fact [Point(x, y)] as the constructor leaves it. *)
Definition pt (x y : Z) : NonLogicalSymbol :=
  {| cls := Point;
     _symbol := Some (Function "point" [Number x; Number y] true);
     _field_values := <["y" := VInt y]> (<["x" := VInt x]> ∅) |}.

Definition facts3 : list NonLogicalSymbol := [pt 1 1; pt 2 4; pt 3 9].

End Example.

Lemma Example_accessors :
  _field_accessors Example.Point = [Example.Point_x; Example.Point_y].
Proof. reflexivity. Qed.

Lemma Example_point x y : Example.point x y = Ok (Example.pt x y).
Proof. reflexivity. Qed.

(** [FactBase.select], then [where], then [get], with all the facts the
    generator yields. *)
Definition select_where_get (fb : FactBase) (c : predicate_cls)
    (expressions : list comparator) (args : list value)
    (kwargs : list (string * value)) (σ : gmap nat value)
    : result (list NonLogicalSymbol) :=
  let '(_, fm, sel) := FactBase_select fb c in
  sel' ← where_ sel expressions;
  (get sel' fm args kwargs σ).2.

(** ** Further operations *)

(** [NonLogicalSymbol.clone]: the loop that collects the arguments of
    the new object. A field absent from [kwargs] is read from the object
    and also stored into [kwargs]. *)
Fixpoint clone_args (self : NonLogicalSymbol)
    (defns : list (string * field_defn)) (kwargs cloneargs : list (string * value))
    : result (list (string * value)) :=
  match defns with
  | [] => Ok cloneargs
  | (field_name, _) :: rest =>
      match kw_lookup kwargs field_name with
      | Some v => clone_args self rest kwargs (od_set cloneargs field_name v)
      | None =>
          v ← get_field_value self field_name;
          clone_args self rest (od_set kwargs field_name v)
                     (od_set cloneargs field_name v)
      end
  end.

Definition clone (self : NonLogicalSymbol) (kwargs : list (string * value))
    : result NonLogicalSymbol :=
  let objkeys := field_names (meta (cls self)) in
  let diffkeys := filter (λ k, k ∉ objkeys) (kwargs.*1) in
  if negb (length diffkeys =? 0)%nat
  then Raise (ValueError "Unknown field names")
  else
    cloneargs ← clone_args self (field_defns (meta (cls self))) kwargs [];
    _nls_constructor (cls self) None [] cloneargs.

(** [NonLogicalSymbol._unify] *)
Definition _unify (c : predicate_cls) (s : symbol) : result NonLogicalSymbol :=
  _nls_constructor c (Some s) [] [].

(** [_MultiMap.__delitem__] *)
Definition MultiMap_delitem (self : _MultiMap) (key : value)
    : result _MultiMap :=
  match _key2values self !! key with
  | None => Raise (KeyError "key")
  | Some _ =>
      posn ← bisect_left (_keylist self) key;
      if (posn <? length (_keylist self))%nat
      then Ok {| _keylist := take posn (_keylist self)
                             ++ drop (S posn) (_keylist self);
                 _key2values := delete key (_key2values self) |}
      else Raise (IndexError "list assignment index out of range")
  end.

(** [FactBase.predicate_types] *)
Definition predicate_types (self : FactBase) : gset nat :=
  dom (_factmaps self).

(** * Properties *)

(** ** The multimap index against a full scan *)

(** When every key of a list is above [x], both bisections stop at 0. *)
Lemma bisect_right_loop_all_above fuel a x hi :
  (hi ≤ length a)%nat →
  (∀ i am, a !! i = Some am → py_lt x am = Ok true) →
  bisect_right_loop fuel a x 0 hi = Ok 0%nat.
Proof.
  revert hi. induction fuel as [|n IH]; intros hi Hhi Hall; [done|].
  cbn [bisect_right_loop]. destruct (0 <? hi)%nat eqn:Hlt; [|done].
  apply Nat.ltb_lt in Hlt. rewrite Nat.add_0_l.
  assert (Hmid : (hi / 2 < hi)%nat) by (apply Nat.div_lt; lia).
  destruct (a !! (hi / 2)%nat) as [am|] eqn:Ham.
  - rewrite (Hall _ _ Ham). cbn -[Nat.div]. apply IH; [lia|done].
  - apply lookup_ge_None in Ham. lia.
Qed.

Lemma bisect_right_all_above a x :
  (∀ i am, a !! i = Some am → py_lt x am = Ok true) →
  bisect_right a x = Ok 0%nat.
Proof. intros. by apply bisect_right_loop_all_above. Qed.

(** [keys_gt] answers with no key at all when the key asked for is below
    every stored key, although every stored key is greater. *)
Lemma keys_gt_below_all (m : _MultiMap) (x : value) :
  (∀ i am, _keylist m !! i = Some am → py_lt x am = Ok true) →
  keys_gt m x = Ok [].
Proof.
  intros Hall. unfold keys_gt. by rewrite bisect_right_all_above.
Qed.

Module IndexScan.
Import Example.

(** The fact base indexed on [Point.x], and the one without index,
    each holding (1,1), (2,4) and (3,9). *)
Definition indexed : result FactBase :=
  FactBase_add_all (FactBase_init [Point_x]) facts3.
Definition plain : result FactBase :=
  FactBase_add_all (FactBase_init []) facts3.

Definition query (fb : result FactBase) (op : compop) (k : Z)
    : result (list NonLogicalSymbol) :=
  b ← fb;
  c ← Field_compare op Point_x (AValue (VInt k));
  select_where_get b Point [c] [] [] ∅.

(** The multimap of [Point.x] in the indexed fact base. *)
Definition x_index : result _MultiMap :=
  b ← indexed;
  get_facts_multimap (FactBase_select b Point).1.2 Point_x.

End IndexScan.

(** C1. The query [x > 0] over the facts (1,1), (2,4), (3,9) yields all
    three facts by a full scan and none through the index on [x]; the
    same happens for [x >= 1] and [x != 0]. The index holds the keys
    1, 2, 3, and [keys_op] returns no key for [> 0], [>= 1] and [!= 0],
    while [x < 3] agrees with the scan. *)
Theorem index_scan_disagree :
  IndexScan.query IndexScan.plain op_gt 0 = Ok Example.facts3 ∧
  IndexScan.query IndexScan.indexed op_gt 0 = Ok [] ∧
  IndexScan.query IndexScan.plain op_ge 1 = Ok Example.facts3 ∧
  IndexScan.query IndexScan.indexed op_ge 1 = Ok [] ∧
  IndexScan.query IndexScan.plain op_ne 0 = Ok Example.facts3 ∧
  IndexScan.query IndexScan.indexed op_ne 0 = Ok [] ∧
  (∃ m, IndexScan.x_index = Ok m ∧
        keys m = [VInt 1; VInt 2; VInt 3] ∧
        keys_op m op_gt (VInt 0) = Ok [] ∧
        keys_op m op_ge (VInt 1) = Ok [] ∧
        keys_op m op_ne (VInt 0) = Ok [] ∧
        keys_op m op_gt (VInt 1) = Ok [VInt 2; VInt 3]) ∧
  IndexScan.query IndexScan.indexed op_lt 3
    = Ok [Example.pt 1 1; Example.pt 2 4] ∧
  IndexScan.query IndexScan.plain op_lt 3
    = Ok [Example.pt 1 1; Example.pt 2 4].
Proof.
  repeat split; try (vm_compute; reflexivity).
  eexists. repeat split; vm_compute; reflexivity.
Qed.

(** ** Simplification *)

(** Under [and_] and [or_], a static argument is left out of the
    simplified comparator whatever its value. *)
Lemma simplified_drops_static (op : boolop) (v : bool)
    (args : list comparator) :
  op ≠ not_op →
  simplified (_BoolComparator op (_StaticComparator v :: args))
  = simplified (_BoolComparator op args).
Proof. intros Hop. destruct op; [done| |]; reflexivity. Qed.

Module Simplify.
Import Example.

(** [Point.x != Point.x] and [Point.x == Point.x]: static comparators
    with the values false and true. *)
Definition x_ne_x : comparator :=
  _FieldComparator op_ne (AField Point_x) (AField Point_x) true false.
Definition x_eq_x : comparator :=
  _FieldComparator op_eq (AField Point_x) (AField Point_x) true true.
(** [Point.x > 1] and [Point.y > 1] *)
Definition x_gt_1 : comparator :=
  _FieldComparator op_gt (AField Point_x) (AValue (VInt 1)) false false.
Definition y_gt_1 : comparator :=
  _FieldComparator op_gt (AField Point_y) (AValue (VInt 1)) false false.

End Simplify.

Lemma Simplify_built :
  Field_compare op_ne Example.Point_x (AField Example.Point_x)
    = Ok Simplify.x_ne_x ∧
  Field_compare op_eq Example.Point_x (AField Example.Point_x)
    = Ok Simplify.x_eq_x ∧
  Field_compare op_gt Example.Point_x (AValue (VInt 1)) = Ok Simplify.x_gt_1 ∧
  Field_compare op_gt Example.Point_y (AValue (VInt 1)) = Ok Simplify.y_gt_1.
Proof. repeat split. Qed.

(** C2. The comparator [and_(Point.x != Point.x, Point.y > 1)] is false
    on the fact (0,2), as on every fact, and its simplification is
    [Point.y > 1], which is true on (0,2). *)
Theorem simplified_changes_value :
  ∃ c, and_ [Simplify.x_ne_x; Simplify.y_gt_1] = Ok c ∧
       comparator_call ∅ c (Example.pt 0 2) = Ok false ∧
       _simplify_fact_comparator c = Simplify.y_gt_1 ∧
       comparator_call ∅ (_simplify_fact_comparator c) (Example.pt 0 2)
       = Ok true.
Proof. eexists. repeat split. Qed.

(** C3. [or_(Point.x == Point.x, Point.x > 1)], whose first argument is
    static and true, simplifies to [Point.x > 1] and not to the static
    true; [and_(Point.x != Point.x, Point.x > 1)], whose first argument
    is static and false, simplifies to [Point.x > 1] and not to the
    static false. [and_(Point.x == Point.x, Point.x > 1)] simplifies to
    [Point.x > 1]. *)
Theorem simplified_no_short_circuit :
  (∃ c, or_ [Simplify.x_eq_x; Simplify.x_gt_1] = Ok c ∧
        _simplify_fact_comparator c = Simplify.x_gt_1 ∧
        _simplify_fact_comparator c ≠ _StaticComparator true) ∧
  (∃ c, and_ [Simplify.x_ne_x; Simplify.x_gt_1] = Ok c ∧
        _simplify_fact_comparator c = Simplify.x_gt_1 ∧
        _simplify_fact_comparator c ≠ _StaticComparator false) ∧
  (∃ c, and_ [Simplify.x_eq_x; Simplify.x_gt_1] = Ok c ∧
        _simplify_fact_comparator c = Simplify.x_gt_1).
Proof. repeat split; eexists; repeat split; done. Qed.

(** ** Facts: assignment and construction *)

(** Positions in a tuple: what a non-negative and what a negative
    integer designate. *)
Lemma tuple_index_Some (n : nat) (idx : Z) (pos : nat) :
  tuple_index n idx = Some pos
  ↔ (pos < n)%nat
    ∧ (idx = Z.of_nat pos ∨ idx = Z.of_nat pos - Z.of_nat n).
Proof.
  unfold tuple_index.
  destruct (Z.leb_spec 0 idx), (Z.ltb_spec idx (Z.of_nat n)),
    (Z.ltb_spec idx 0), (Z.leb_spec (- Z.of_nat n) idx); cbn [andb];
    (split; [intros [= <-]; lia || done
            |intros [? [?|?]]; try lia; f_equal; lia]).
Qed.

Lemma tuple_index_None (n : nat) (idx : Z) :
  tuple_index n idx = None ↔ idx < - Z.of_nat n ∨ Z.of_nat n ≤ idx.
Proof.
  unfold tuple_index.
  destruct (Z.leb_spec 0 idx), (Z.ltb_spec idx (Z.of_nat n)),
    (Z.ltb_spec idx 0), (Z.leb_spec (- Z.of_nat n) idx); cbn [andb];
    (split; [intros ?; lia || done|intros ?; lia || done]).
Qed.

Lemma tuple_getitem_lookup {A : Type} (t : list A) (idx : Z) (pos : nat)
    (x : A) :
  tuple_index (length t) idx = Some pos →
  t !! pos = Some x →
  tuple_getitem t idx = Some x.
Proof. intros Hpos Hx. unfold tuple_getitem. by rewrite Hpos. Qed.

Lemma tuple_getitem_nat {A : Type} (t : list A) (pos : nat) (x : A) :
  t !! pos = Some x → tuple_getitem t (Z.of_nat pos) = Some x.
Proof.
  intros Hx. apply (tuple_getitem_lookup t _ pos); [|done].
  apply tuple_index_Some. split; [by eapply lookup_lt_Some|by left].
Qed.

(** The accessors of a class accept assignment to the fields of its
    instances. *)
Lemma setitem_succeeds (self : NonLogicalSymbol) (idx : Z) (fa : _Field)
    (v : value) :
  tuple_getitem (_field_accessors (cls self)) idx = Some fa →
  setitem self idx v = Ok (set_field_value self (_field_name fa) v).
Proof.
  intros Hfa. unfold setitem. rewrite Hfa.
  unfold tuple_getitem in Hfa.
  destruct (tuple_index _ idx) as [pos|]; [|done].
  unfold _field_accessors in Hfa.
  apply list_lookup_imap_Some in Hfa as (fd & _ & ->).
  unfold Field_set, isinstance. simpl.
  by rewrite bool_decide_eq_true_2.
Qed.

(** C4. Assigning 5 to the field [x] of the fact (1,2), through the
    accessor or by position, succeeds; afterwards the field reads 5 and
    the encoded form of the fact is [point(5,2)] instead of
    [point(1,2)]. *)
Theorem field_assignment_succeeds :
  symbol_of (Example.pt 1 2) = Ok (Function "point" [Number 1; Number 2] true) ∧
  ∃ f, Field_set Example.Point_x (Example.pt 1 2) (VInt 5) = Ok f ∧
       setitem (Example.pt 1 2) 0 (VInt 5) = Ok f ∧
       Field_get Example.Point_x f = Ok (VInt 5) ∧
       getitem f 0 = Ok (VInt 5) ∧
       symbol_of f = Ok (Function "point" [Number 5; Number 2] true).
Proof. split; [done|]. eexists. repeat split. Qed.

(** With positional arguments whose number is not the arity, the
    constructor leaves the instance without field values and without
    symbol, and returns it. *)
Lemma positional_arity_mismatch (c : predicate_cls) (args : list value) :
  args ≠ [] →
  length args ≠ length (field_defns (meta c)) →
  _nls_constructor c None args []
  = Ok {| cls := c; _symbol := None; _field_values := ∅ |}.
Proof.
  intros Hne Hlen. unfold _nls_constructor.
  destruct args as [|a args]; [done|]. cbn [length Nat.ltb Nat.leb].
  unfold _nls_init_by_positional_values. cbn [cls].
  destruct (Nat.eqb_spec (length (a :: args))
              (length (field_defns (meta c)))); [done|]. done.
Qed.

(** C5. [Point(7)], one positional argument for a predicate of arity
    two, raises nothing: the constructor returns a fact that has no
    field values, whose field [x] cannot be read and whose encoded form
    cannot be computed. The same holds for [Point(7, 8, 9)]. *)
Theorem positional_arity_not_checked :
  ∃ f, _nls_constructor Example.Point None [VInt 7] [] = Ok f ∧
       _nls_constructor Example.Point None [VInt 7; VInt 8; VInt 9] []
       = Ok f ∧
       _field_values f = ∅ ∧
       _symbol f = None ∧
       Field_get Example.Point_x f = Raise (KeyError "x") ∧
       symbol_of f = Raise (KeyError "x").
Proof. eexists. repeat split. Qed.

Module Defaults.

(** A predicate whose only field has the declared default [d]. *)
Definition Counter (d : value) : predicate_cls :=
  {| cls_id := 2;
     cls_name := "Counter";
     meta := {| meta_name := "counter";
                field_defns := [("n", IntegerField None None d)] |} |}.

Definition Label (d : value) : predicate_cls :=
  {| cls_id := 3;
     cls_name := "Label";
     meta := {| meta_name := "label";
                field_defns := [("s", StringField None None d)] |} |}.

End Defaults.

(** C6. With the declared default 5 the omitted field takes the value 5.
    With the declared default 0, and with the empty string as declared
    default of a string field, construction raises the error of a missing default, as
    it does when no default is declared. *)
Theorem falsy_default_rejected :
  (∃ f, _nls_constructor (Defaults.Counter (VInt 5)) None [] [] = Ok f ∧
        _field_values f !! "n" = Some (VInt 5)) ∧
  _nls_constructor (Defaults.Counter (VInt 0)) None [] []
    = Raise (ValueError "Unspecified field has no default value") ∧
  _nls_constructor (Defaults.Label (VStr EmptyString)) None [] []
    = Raise (ValueError "Unspecified field has no default value") ∧
  _nls_constructor (Defaults.Counter VNone) None [] []
    = Raise (ValueError "Unspecified field has no default value").
Proof. repeat split. eexists. repeat split. Qed.

(** ** Index selection *)

(** Induction on comparators with the arguments of a boolean
    comparator covered. *)
Section comparator_induction.
Variable P : comparator → Prop.
Hypothesis Hstatic : ∀ v, P (_StaticComparator v).
Hypothesis Hfield : ∀ op a1 a2 st v, P (_FieldComparator op a1 a2 st v).
Hypothesis Hbool : ∀ op args, Forall P args → P (_BoolComparator op args).
Hypothesis Hraw : ∀ b, P (_RawBool b).
Hypothesis Hcallable : ∀ call, P (_Callable call).

Fixpoint comparator_ind' (c : comparator) : P c :=
  match c with
  | _StaticComparator v => Hstatic v
  | _FieldComparator op a1 a2 st v => Hfield op a1 a2 st v
  | _BoolComparator op args =>
      Hbool op args
        ((fix all (l : list comparator) : Forall P l :=
            match l with
            | [] => Forall_nil_2 P
            | a :: rest =>
                Forall_cons_2 P a rest (comparator_ind' a) (all rest)
            end) args)
  | _RawBool b => Hraw b
  | _Callable call => Hcallable call
  end.
End comparator_induction.

(** The drivable leaves as the specification words them: a field
    comparison, not static, whose first side is an indexed field and
    whose other side is a placeholder or a literal; under a conjunction,
    the drivable leaves of its arguments in argument order; none under
    a disjunction or a negation. *)
Definition spec_drivable (index : list _Field) (c : comparator)
    : option (_Field * compop * operand) :=
  match c with
  | _FieldComparator op (AField f) other false _ =>
      if bool_decide (f ∈ index) && negb (is_Field other)
      then Some (f, op, other) else None
  | _ => None
  end.

Fixpoint spec_candidates (index : list _Field) (c : comparator)
    : list (_Field * compop * operand) :=
  match c with
  | _FieldComparator _ _ _ _ _ => option_list (spec_drivable index c)
  | _BoolComparator and_op args => concat (map (spec_candidates index) args)
  | _ => []
  end.

(** The priority number of the field of a leaf: its rank in the
    priority dictionary. *)
Definition priority (prio : list (_Field * nat))
    (l : _Field * compop * operand) : nat :=
  default 0%nat (od_get prio l.1.1).

(** [r] is the leaf of [l] with the lowest priority number and, among
    those, the first one; no leaf when [l] is empty. *)
Definition first_lowest (prio : list (_Field * nat))
    (l : list (_Field * compop * operand))
    (r : option (_Field * compop * operand)) : Prop :=
  match r with
  | None => l = []
  | Some x =>
      ∃ pre post, l = pre ++ x :: post ∧
        Forall (λ y, (priority prio x < priority prio y)%nat) pre ∧
        Forall (λ y, (priority prio x ≤ priority prio y)%nat) post
  end.

(** One round of the loop of [_primary_search]. *)
Definition keep_better (prio : list (_Field * nat))
    (ix tmp : option (_Field * compop * operand))
    : option (_Field * compop * operand) :=
  match tmp with
  | Some t =>
      match ix with
      | None => Some t
      | Some cur => if priority_lt prio t.1.1 cur.1.1 then Some t else ix
      end
  | None => ix
  end.

Lemma primary_search_and prio args :
  _primary_search prio (_BoolComparator and_op args)
  = foldl (keep_better prio) None (map (_primary_search prio) args).
Proof.
  cbn [_primary_search]. generalize (@None (_Field * compop * operand)).
  induction args as [|a args IH]; intros ix; [done|].
  cbn [map foldl]. rewrite <- IH. unfold keep_better.
  destruct (_primary_search prio a) as [t|]; [|done].
  destruct ix as [cur|]; [|done].
  by destruct (priority_lt prio t.1.1 cur.1.1).
Qed.

Lemma od_get_is_Some {K V : Type} `{EqDecision K} (d : list (K * V)) (k : K) :
  is_Some (od_get d k) ↔ k ∈ d.*1.
Proof.
  induction d as [|[k' v] d IH]; simpl.
  - split; [by intros [? ?]|by intros ?%elem_of_nil].
  - destruct (decide (k' = k)) as [->|Hne].
    + split; [intros _; apply list_elem_of_here|by eauto].
    + rewrite IH. split; [by apply list_elem_of_further|].
      intros [?|?]%elem_of_cons; [congruence|done].
Qed.

(** A leaf passes [validate_indexable] exactly when it is a drivable
    leaf of the specification. *)
Lemma validate_indexable_spec prio c :
  validate_indexable prio (indexable c) = spec_drivable (prio.*1) c.
Proof.
  destruct c as [v|op a1 a2 st v|op args|b|call]; try done.
  simpl. destruct st; [by destruct a1|].
  destruct a1 as [f| |]; try done.
  destruct (is_Field a2) eqn:Ha2; simpl.
  - by rewrite andb_false_r.
  - rewrite andb_true_r. destruct (od_get prio f) as [p|] eqn:Hp.
    + rewrite bool_decide_eq_true_2; [done|].
      apply od_get_is_Some. by rewrite Hp.
    + rewrite bool_decide_eq_false_2; [done|].
      intros Hin%od_get_is_Some. rewrite Hp in Hin. by destruct Hin.
Qed.

Lemma spec_candidates_indexed (prio : list (_Field * nat)) (c : comparator)
    (x : _Field * compop * operand) :
  x ∈ spec_candidates (prio.*1) c → is_Some (od_get prio x.1.1).
Proof.
  revert x.
  induction c as [v|op a1 a2 st v|op args IH|b|call] using comparator_ind';
    intros x Hx.
  - by apply elem_of_nil in Hx.
  - simpl in Hx. destruct a1 as [f| |]; try by apply elem_of_nil in Hx.
    destruct st; [by apply elem_of_nil in Hx|].
    destruct (bool_decide (f ∈ prio.*1)) eqn:Hf; simpl in Hx;
      [|by apply elem_of_nil in Hx].
    destruct (is_Field a2); simpl in Hx; [by apply elem_of_nil in Hx|].
    apply list_elem_of_singleton in Hx as ->. simpl.
    apply od_get_is_Some. by apply bool_decide_eq_true in Hf.
  - destruct op; try by apply elem_of_nil in Hx.
    simpl in Hx. induction IH as [|a args Ha _ IHargs]; simpl in Hx.
    + by apply elem_of_nil in Hx.
    + apply elem_of_app in Hx as [Hx|Hx]; [by apply Ha|by apply IHargs].
  - by apply elem_of_nil in Hx.
  - by apply elem_of_nil in Hx.
Qed.

Lemma first_lowest_app (prio : list (_Field * nat))
    (l1 l2 : list (_Field * compop * operand)) r1 r2 :
  (∀ x, x ∈ l1 ++ l2 → is_Some (od_get prio x.1.1)) →
  first_lowest prio l1 r1 →
  first_lowest prio l2 r2 →
  first_lowest prio (l1 ++ l2) (keep_better prio r1 r2).
Proof.
  intros Hval H1 H2. destruct r2 as [t|]; simpl in *.
  - destruct H2 as (pre2 & post2 & -> & Hpre2 & Hpost2).
    destruct r1 as [cur|]; simpl in *.
    + destruct H1 as (pre1 & post1 & -> & Hpre1 & Hpost1).
      assert (Ht : is_Some (od_get prio t.1.1)).
      { apply Hval. rewrite !elem_of_app, !elem_of_cons. auto. }
      assert (Hc : is_Some (od_get prio cur.1.1)).
      { apply Hval. rewrite !elem_of_app, !elem_of_cons. auto. }
      assert (Hlt : priority_lt prio t.1.1 cur.1.1
                    = (priority prio t <? priority prio cur)%nat).
      { unfold priority_lt, priority.
        destruct Ht as [p ->], Hc as [q ->]. done. }
      rewrite Hlt.
      destruct (Nat.ltb_spec (priority prio t) (priority prio cur)).
      * exists ((pre1 ++ cur :: post1) ++ pre2), post2.
        split; [by rewrite <- !app_assoc|]. split; [|done].
        rewrite !Forall_app, Forall_cons. repeat split; [| | |done].
        -- eapply Forall_impl; [exact Hpre1|]. simpl. intros; lia.
        -- lia.
        -- eapply Forall_impl; [exact Hpost1|]. simpl. intros; lia.
      * exists pre1, (post1 ++ pre2 ++ t :: post2).
        split; [by rewrite <- !app_assoc|]. split; [done|].
        rewrite !Forall_app, Forall_cons. repeat split; [done| | |].
        -- eapply Forall_impl; [exact Hpre2|]. simpl. intros; lia.
        -- lia.
        -- eapply Forall_impl; [exact Hpost2|]. simpl. intros; lia.
    + subst l1. by exists pre2, post2.
  - subst l2. rewrite app_nil_r. done.
Qed.

Lemma first_lowest_fold (prio : list (_Field * nat))
    (args : list comparator) (acc : list (_Field * compop * operand)) ix :
  Forall (λ a, first_lowest prio (spec_candidates (prio.*1) a)
                 (_primary_search prio a)) args →
  (∀ x, x ∈ acc → is_Some (od_get prio x.1.1)) →
  first_lowest prio acc ix →
  first_lowest prio
    (acc ++ concat (map (spec_candidates (prio.*1)) args))
    (foldl (keep_better prio) ix (map (_primary_search prio) args)).
Proof.
  intros Hargs. revert acc ix.
  induction Hargs as [|a args Ha _ IH]; intros acc ix Hval Hacc.
  - simpl. by rewrite app_nil_r.
  - cbn [map concat foldl]. rewrite app_assoc. apply IH.
    + intros x [Hx|Hx]%elem_of_app; [by apply Hval|].
      by eapply spec_candidates_indexed.
    + apply first_lowest_app; [|done|done].
      intros x [Hx|Hx]%elem_of_app; [by apply Hval|].
      by eapply spec_candidates_indexed.
Qed.

(** The search returns the first of the drivable leaves with the lowest
    priority number, and nothing when there is no drivable leaf. *)
Lemma primary_search_first_lowest (prio : list (_Field * nat))
    (c : comparator) :
  first_lowest prio (spec_candidates (prio.*1) c) (_primary_search prio c).
Proof.
  induction c as [v|op a1 a2 st v|op args IH|b|call] using comparator_ind'.
  - done.
  - cbn [_primary_search spec_candidates].
    rewrite validate_indexable_spec.
    destruct (spec_drivable _ _) as [x|]; [|done].
    exists [], []. by repeat split.
  - destruct op; [done| |done].
    rewrite primary_search_and. cbn [spec_candidates].
    apply (first_lowest_fold prio args [] None IH); [|done].
    by intros x ?%elem_of_nil.
  - done.
  - done.
Qed.

(** C8. For every priority dictionary and comparator: the search over a
    disjunction, a negation, a static comparator, or a field comparison
    that is not a drivable leaf returns none; the search over a field
    comparison that is a drivable leaf returns that leaf; and in all
    cases the result is, among the drivable leaves reachable through
    conjunctions only, taken in argument order, the first one whose
    field has the lowest priority number (none when there is no such
    leaf). *)
Theorem primary_search_spec (prio : list (_Field * nat)) (c : comparator) :
  (∀ args, _primary_search prio (_BoolComparator or_op args) = None) ∧
  (∀ args, _primary_search prio (_BoolComparator not_op args) = None) ∧
  (∀ v, _primary_search prio (_StaticComparator v) = None) ∧
  (∀ op a1 a2 st v,
     _primary_search prio (_FieldComparator op a1 a2 st v)
     = spec_drivable (prio.*1) (_FieldComparator op a1 a2 st v)) ∧
  match _primary_search prio c with
  | None => spec_candidates (prio.*1) c = []
  | Some x =>
      ∃ pre post, spec_candidates (prio.*1) c = pre ++ x :: post ∧
        Forall (λ y, (priority prio x < priority prio y)%nat) pre ∧
        Forall (λ y, (priority prio x ≤ priority prio y)%nat) post
  end.
Proof.
  split; [done|]. split; [done|]. split; [done|]. split.
  - intros. cbn [_primary_search]. apply validate_indexable_spec.
  - apply primary_search_first_lowest.
Qed.

(** ** Unification of the encoded form *)

(** Every field value that has an encoding is encoded to a symbol that
    the definition of its field unifies with. *)
Definition fields_accept (self : NonLogicalSymbol) : bool :=
  forallb (λ d : string * field_defn,
             match _field_values self !! d.1 with
             | Some v =>
                 match pytocl d.2 v with
                 | Ok s => unifies d.2 s
                 | Raise _ => true
                 end
             | None => true
             end)
          (field_defns (meta (cls self))).

Lemma generate_args_length self defns args :
  generate_args self defns = Ok args → length args = length defns.
Proof.
  revert args. induction defns as [|[fname fd] defns IH]; intros args H.
  - by inversion H.
  - cbn [generate_args] in H.
    destruct (get_field_value self fname) as [v|]; [|done]. cbn in H.
    destruct (pytocl fd v) as [s|]; [|done]. cbn in H.
    destruct (generate_args self defns) as [pa|]; [|done]. cbn in H.
    inversion H. simpl. f_equal. by apply IH.
Qed.

Lemma unifies_generated_args self defns args pre :
  generate_args self defns = Ok args →
  forallb (λ d : string * field_defn,
             match _field_values self !! d.1 with
             | Some v =>
                 match pytocl d.2 v with
                 | Ok s => unifies d.2 s
                 | Raise _ => true
                 end
             | None => true
             end) defns = true →
  unifies_args (length pre) defns (pre ++ args) = true.
Proof.
  revert args pre. induction defns as [|[fname fd] defns IH];
    intros args pre Hgen Hacc; [done|].
  cbn [generate_args] in Hgen. unfold get_field_value in Hgen.
  cbn [forallb fst snd] in Hacc. apply andb_true_iff in Hacc as [Hfd Hrest].
  destruct (_field_values self !! fname) as [v|]; [|done]. cbn in Hgen.
  destruct (pytocl fd v) as [s|]; [|done]. cbn in Hgen.
  destruct (generate_args self defns) as [pa|] eqn:Hpa; [|done]. cbn in Hgen.
  inversion Hgen; subst args. cbn [unifies_args].
  rewrite lookup_app_r, Nat.sub_diag by lia. cbn [lookup list_lookup].
  rewrite Hfd. cbn [negb].
  specialize (IH pa (pre ++ [s]) eq_refl Hrest).
  rewrite length_app in IH. cbn [length] in IH.
  rewrite Nat.add_1_r in IH. by rewrite <- app_assoc in IH.
Qed.

(** Integer and string fields unify with every symbol they encode to. *)
Lemma IntegerField_accepts outfunc infunc d v s :
  pytocl (IntegerField outfunc infunc d) v = Ok s →
  unifies (IntegerField outfunc infunc d) s = true.
Proof.
  simpl. destruct infunc as [f|].
  - destruct (f v) as [w|]; [|done]. cbn. by destruct w; intros [= <-].
  - by destruct v; intros [= <-].
Qed.

Lemma StringField_accepts outfunc infunc d v s :
  pytocl (StringField outfunc infunc d) v = Ok s →
  unifies (StringField outfunc infunc d) s = true.
Proof.
  simpl. destruct infunc as [f|].
  - destruct (f v) as [w|]; [|done]. cbn. by destruct w; intros [= <-].
  - by destruct v; intros [= <-].
Qed.

(** A constant field unifies with the symbol it encodes a name to,
    unless the name is empty. *)
Lemma ConstantField_accepts outfunc d name :
  name ≠ EmptyString →
  ∃ s, pytocl (ConstantField outfunc None d) (VStr name) = Ok s ∧
       unifies (ConstantField outfunc None d) s = true.
Proof.
  intros Hne. eexists. split; [reflexivity|].
  simpl. unfold constant_unifies. simpl.
  destruct (String.eqb_spec name EmptyString); [done|]. done.
Qed.

Module Constants.

(** A predicate with one constant field. *)
Definition Tag : predicate_cls :=
  {| cls_id := 4;
     cls_name := "Tag";
     meta := {| meta_name := "tag";
                field_defns := [("c", ConstantField None None VNone)] |} |}.

End Constants.

(** C9, as stated, fails: the fact built by [Tag(c=...)] with the empty
    string as value is constructed, its encoded form is [tag(())], the
    constant with the empty name, and [_unifies] rejects that form. *)
Lemma unifies_rejects_empty_constant :
  ∃ f s, _nls_constructor Constants.Tag None [] [("c", VStr EmptyString)]
           = Ok f ∧
         symbol_of f = Ok s ∧
         s = Function "tag" [Function EmptyString [] true] true ∧
         _unifies Constants.Tag s = false.
Proof. do 2 eexists. repeat split. Qed.

(** C9, amended. For every fact whose encoded form can be computed and
    each of whose field values is encoded to a symbol that the field's
    definition unifies with, [_unifies] of the fact's class accepts the
    encoded form; and [_unifies] rejects every symbol whose name is not
    the name of the predicate or whose number of arguments is not its
    arity. *)
Theorem unifies_canonical_form (self : NonLogicalSymbol) (s : symbol)
    (c : predicate_cls) (t : symbol) :
  (symbol_of self = Ok s → fields_accept self = true →
   _unifies (cls self) s = true) ∧
  (symbol_name t ≠ meta_name (meta c)
   ∨ length (symbol_arguments t) ≠ arity (meta c) →
   _unifies c t = false).
Proof.
  split.
  - unfold symbol_of, _generate_symbol, fields_accept. intros Hsym Hacc.
    destruct (generate_args self (field_defns (meta (cls self))))
      as [args|] eqn:Hgen; [|done].
    cbn in Hsym. inversion Hsym; subst s. unfold _unifies.
    cbn [symbol_type symbol_name symbol_arguments].
    destruct (decide (ST_Function ≠ ST_Function)); [done|].
    rewrite String.eqb_refl. cbn [negb].
    rewrite (generate_args_length _ _ _ Hgen), Nat.eqb_refl. cbn [negb].
    by apply (unifies_generated_args self _ args []).
  - unfold _unifies, arity, field_names. rewrite length_fmap.
    intros [Hname|Hlen].
    + destruct (decide _); [done|].
      destruct (String.eqb_spec (symbol_name t) (meta_name (meta c)));
        [done|]. done.
    + destruct (decide _); [done|].
      destruct (negb (String.eqb _ _)); [done|].
      destruct (Nat.eqb_spec (length (symbol_arguments t))
                  (length (field_defns (meta c)))); [done|]. done.
Qed.

Lemma unifies_canonical_form_witness :
  symbol_of (Example.pt 1 2) = Ok (Function "point" [Number 1; Number 2] true) ∧
  fields_accept (Example.pt 1 2) = true ∧
  _unifies Example.Point (Function "point" [Number 1; Number 2] true) = true ∧
  _unifies Example.Point (Function "line" [Number 1; Number 2] true) = false.
Proof.
  split; [reflexivity|]. split; [reflexivity|].
  destruct (unifies_canonical_form (Example.pt 1 2)
              (Function "point" [Number 1; Number 2] true) Example.Point
              (Function "line" [Number 1; Number 2] true)) as [H1 H2].
  split.
  - apply H1; reflexivity.
  - apply H2. left. simpl. discriminate.
Defined.

(** ** Placeholder binding *)

(** What the keyword form of the binding step gives a known placeholder:
    the argument passed under its name, and its default when no argument
    is passed or the argument is [None]. *)
Definition resolved (kwargs : list (string * value))
    (np : ph_name * _Placeholder) : value :=
  if bool_decide (kwargs_get kwargs np.1 = VNone) then _default np.2
  else kwargs_get kwargs np.1.

Lemma ph_value_set (σ : gmap nat value) (p : _Placeholder) (v : value) :
  ph_value (ph_set_value σ p v) p = v.
Proof. unfold ph_value, ph_set_value. by rewrite lookup_insert_eq. Qed.

Lemma ph_value_set_ne (σ : gmap nat value) (p q : _Placeholder) (v : value) :
  ph_id p ≠ ph_id q → ph_value (ph_set_value σ p v) q = ph_value σ q.
Proof.
  intros Hne. unfold ph_value, ph_set_value. by rewrite lookup_insert_ne.
Qed.

(** One round of the keyword loop: the store after it, and the value the
    placeholder then has. *)
Definition bind_one (kwargs : list (string * value))
    (np : ph_name * _Placeholder) (σ : gmap nat value) : gmap nat value :=
  ph_set_value σ np.2 (resolved kwargs np).

Lemma bind_keywords_cons n ph items kwargs σ :
  bind_keywords ((n, ph) :: items) kwargs σ
  = if bool_decide (resolved kwargs (n, ph) = VNone)
    then (bind_one kwargs (n, ph) σ,
          Raise (ValueError "no value for placeholder"))
    else bind_keywords items kwargs (bind_one kwargs (n, ph) σ).
Proof.
  cbn [bind_keywords]. unfold bind_one, resolved, ph_reset. cbn [fst snd].
  destruct (bool_decide (kwargs_get kwargs n = VNone));
    by rewrite ph_value_set.
Qed.


Lemma bind_keywords_other items kwargs σ (q : _Placeholder) :
  ph_id q ∉ (ph_id ∘ snd) <$> items →
  ph_value (bind_keywords items kwargs σ).1 q = ph_value σ q.
Proof.
  revert σ. induction items as [|[n ph] items IH]; intros σ Hq; [done|].
  rewrite bind_keywords_cons. rewrite fmap_cons in Hq.
  apply not_elem_of_cons in Hq as [Hne Hq]. cbn in Hne.
  case_bool_decide.
  - cbn [fst]. unfold bind_one. by rewrite ph_value_set_ne.
  - rewrite IH by done. unfold bind_one. by rewrite ph_value_set_ne.
Qed.









(** The query [select(...).where(fld == p)] for a placeholder [p], made
    over the fact map [fm0]. *)
Definition where_eq_placeholder (fm0 : _FactMap) (fld : _Field)
    (p : _Placeholder) : result _Select :=
  c ← Field_compare op_eq fld (APlaceholder p);
  where_ (Select_init fm0) [c].


Module Scenario.
Import Example.

(** The fact map of [Point], indexed on [x], holding (1,1), (2,4) and
    (3,9). *)
Definition fm : _FactMap :=
  match IndexScan.indexed with
  | Ok b => (FactBase_select b Point).1.2
  | Raise _ => FactMap_init []
  end.

End Scenario.

(** ** The arguments of the binding step *)












(** ** A keyword argument that is [None] *)







Lemma od_get_elem_of {K V : Type} `{EqDecision K} (d : list (K * V)) k v :
  od_get d k = Some v → (k, v) ∈ d.
Proof.
  induction d as [|[k' v'] d IH]; [done|]. cbn [od_get].
  destruct (decide (k' = k)) as [->|Hne].
  - intros [= ->]. left.
  - intros H. right. by apply IH.
Qed.

Module PositionalNone.

(** The query [and_(Point.x == ph1_, Point.y == ph2_)] over the fact map
    of the scenario. *)
Definition sel : result _Select :=
  c1 ← Field_compare op_eq Example.Point_x (APlaceholder (ph1_ 0));
  c2 ← Field_compare op_eq Example.Point_y (APlaceholder (ph2_ 1));
  where_ (Select_init Scenario.fm) [c1; c2].

End PositionalNone.



Module NoneKeyword.

(** The placeholders [ph_("k")], without default, and [ph_("k", 2)],
    and the queries [Point.x == ph_("k")] and [Point.x == ph_("k", 2)]
    over the fact map of the scenario. *)
Definition k : _Placeholder := ph_ 0 "k" VNone.
Definition sel : _Select :=
  match where_eq_placeholder Scenario.fm Example.Point_x k with
  | Ok s => s
  | Raise _ => Select_init Scenario.fm
  end.


End NoneKeyword.


(** * Further properties of the code *)

(** ** Field definitions: encoding and decoding *)

(** X1. Without conversion functions, decoding the symbol a value was
    encoded to gives the value back, for integer and string fields and,
    unless the value is the empty string, for constant fields; the
    empty string is encoded by a constant field to a symbol that the
    field refuses to decode. *)
Theorem simple_field_encode_decode (d v : value) (s : symbol) :
  (pytocl (IntegerField None None d) v = Ok s →
   cltopy (IntegerField None None d) s = Ok v) ∧
  (pytocl (StringField None None d) v = Ok s →
   cltopy (StringField None None d) s = Ok v) ∧
  (pytocl (ConstantField None None d) v = Ok s → v ≠ VStr EmptyString →
   cltopy (ConstantField None None d) s = Ok v) ∧
  (∃ t, pytocl (ConstantField None None d) (VStr EmptyString) = Ok t ∧
        cltopy (ConstantField None None d) t
        = Raise (TypeError "Object {0} is not a Simple term")).
Proof.
  repeat split.
  - destruct v; simpl; intros [= <-]; done.
  - destruct v; simpl; intros [= <-]; done.
  - destruct v as [|n|name]; simpl; intros [= <-] Hne; simpl.
    destruct (String.eqb_spec name EmptyString); [by subst|done].
  - eexists. split; reflexivity.
Qed.

Lemma simple_field_encode_decode_witness :
  cltopy (IntegerField None None VNone) (Number 7) = Ok (VInt 7) ∧
  cltopy (StringField None None VNone) (String_ "a") = Ok (VStr "a") ∧
  cltopy (ConstantField None None VNone) (Function "a" [] true)
  = Ok (VStr "a").
Proof.
  split; [|split].
  - apply (simple_field_encode_decode VNone (VInt 7) (Number 7)).
    reflexivity.
  - apply (simple_field_encode_decode VNone (VStr "a") (String_ "a")).
    reflexivity.
  - apply (simple_field_encode_decode VNone (VStr "a") (Function "a" [] true));
      [reflexivity|discriminate].
Defined.

(** X2. Without conversion functions, encoding the value a symbol was
    decoded to gives the symbol back for integer and string fields; for
    constant fields it gives the symbol without its sign, which is the
    symbol itself exactly when the symbol is positive: a constant field
    decodes a negated constant and encodes the result as the positive
    constant. *)
Theorem simple_field_decode_encode (d v : value) (s : symbol) :
  (cltopy (IntegerField None None d) s = Ok v →
   pytocl (IntegerField None None d) v = Ok s) ∧
  (cltopy (StringField None None d) s = Ok v →
   pytocl (StringField None None d) v = Ok s) ∧
  (cltopy (ConstantField None None d) s = Ok v →
   pytocl (ConstantField None None d) v = Ok (positive_form s) ∧
   (pytocl (ConstantField None None d) v = Ok s
    ↔ symbol_positive s = true)).
Proof.
  repeat split.
  - destruct s; simpl; intros [= <-]; done.
  - destruct s; simpl; intros [= <-]; done.
  - destruct s as [| |name args pos| |]; simpl in *; try done.
    destruct (String.eqb name EmptyString); [done|].
    destruct args; [|done]. simpl in *. by injection H as <-.
  - destruct s as [| |name args pos| |]; simpl in *; try done.
    destruct (String.eqb name EmptyString); [done|].
    destruct args; [|done]. simpl in *. injection H as <-. simpl.
    by intros [= <-].
  - destruct s as [| |name args pos| |]; simpl in *; try done.
    destruct (String.eqb name EmptyString); [done|].
    destruct args; [|done]. simpl in *. injection H as <-. simpl.
    by intros ->.
Qed.

Lemma simple_field_decode_encode_witness :
  pytocl (IntegerField None None VNone) (VInt 7) = Ok (Number 7) ∧
  pytocl (StringField None None VNone) (VStr "a") = Ok (String_ "a") ∧
  pytocl (ConstantField None None VNone) (VStr "a")
  = Ok (Function "a" [] true) ∧
  pytocl (ConstantField None None VNone) (VStr "a")
  ≠ Ok (Function "a" [] false).
Proof.
  split; [|split; [|split]].
  - apply (simple_field_decode_encode VNone (VInt 7) (Number 7)).
    reflexivity.
  - apply (simple_field_decode_encode VNone (VStr "a") (String_ "a")).
    reflexivity.
  - apply (simple_field_decode_encode VNone (VStr "a")
             (Function "a" [] false)).
    reflexivity.
  - intros H.
    apply (simple_field_decode_encode VNone (VStr "a")
             (Function "a" [] false)) in H; [discriminate|reflexivity].
Defined.

(** A simple field without [outfunc] unifies with exactly the symbols
    it decodes. *)
Lemma simple_field_unifies_decodes (d : value) (t : symbol) :
  (unifies (IntegerField None None d) t
   = is_ok (cltopy (IntegerField None None d) t)) ∧
  (unifies (StringField None None d) t
   = is_ok (cltopy (StringField None None d) t)) ∧
  (unifies (ConstantField None None d) t
   = is_ok (cltopy (ConstantField None None d) t)).
Proof.
  repeat split; destruct t as [| |name args pos| |]; try done.
  simpl. unfold constant_unifies. simpl.
  destruct (String.eqb name EmptyString); [done|].
  by destruct args.
Qed.

(** X3. The [unifies] check of a simple field is exact: it accepts a
    symbol if and only if decoding the symbol succeeds. *)
Theorem simple_field_unifies_iff_decodes (d : value) (t : symbol) :
  (unifies (IntegerField None None d) t = true
   ↔ ∃ v, cltopy (IntegerField None None d) t = Ok v) ∧
  (unifies (StringField None None d) t = true
   ↔ ∃ v, cltopy (StringField None None d) t = Ok v) ∧
  (unifies (ConstantField None None d) t = true
   ↔ ∃ v, cltopy (ConstantField None None d) t = Ok v).
Proof.
  destruct (simple_field_unifies_decodes d t) as (H1 & H2 & H3).
  rewrite H1, H2, H3.
  assert (Hok : ∀ r : result value, is_ok r = true ↔ ∃ v, r = Ok v).
  { intros [v|e]; simpl; split; try done; [by eauto|by intros [? ?]]. }
  split; [apply Hok|]. split; apply Hok.
Qed.

(** ** Construction of facts *)

Lemma generate_args_ext (a b : NonLogicalSymbol) defns :
  _field_values a = _field_values b →
  generate_args a defns = generate_args b defns.
Proof.
  intros Hv. induction defns as [|[fname fd] defns IH]; [done|].
  cbn [generate_args]. unfold get_field_value. by rewrite Hv, IH.
Qed.

Lemma symbol_of_set_symbol (self : NonLogicalSymbol) (s : symbol) :
  symbol_of (set_symbol self s) = symbol_of self.
Proof.
  unfold symbol_of, _generate_symbol. cbn [cls set_symbol].
  by rewrite (generate_args_ext (set_symbol self s) self).
Qed.

Lemma keyword_fields_values self defns kwargs self' :
  keyword_fields self defns kwargs = Ok self' →
  cls self' = cls self ∧ _symbol self' = _symbol self ∧
  (∀ k, k ∉ defns.*1 → _field_values self' !! k = _field_values self !! k) ∧
  (NoDup (defns.*1) → ∀ fname fd, (fname, fd) ∈ defns →
     _field_values self' !! fname
     = Some (default (field_default fd) (kw_lookup kwargs fname))).
Proof.
  revert self. induction defns as [|[fname fd] defns IH]; intros self H.
  - inversion H; subst. repeat split. by intros _ ? ? ?%elem_of_nil.
  - cbn [keyword_fields] in H.
    assert (∃ v, v = default (field_default fd) (kw_lookup kwargs fname) ∧
                 keyword_fields (set_field_value self fname v) defns kwargs
                 = Ok self') as (v & Hv & Hk).
    { destruct (kw_lookup kwargs fname) as [w|]; [by eauto|].
      destruct (negb (truthy (field_default fd))); [done|by eauto]. }
    destruct (IH _ Hk) as (Hc & Hs & Hout & Hin).
    split; [done|]. split; [done|]. split.
    + intros k Hk'. rewrite fmap_cons in Hk'.
      apply not_elem_of_cons in Hk' as [Hne Hk'].
      rewrite Hout by done. cbn. by rewrite lookup_insert_ne.
    + rewrite fmap_cons. intros [Hfresh Hnd]%NoDup_cons fn fd' Hel.
      apply elem_of_cons in Hel as [[= -> ->]|Hel].
      * rewrite Hout by done. cbn. by rewrite lookup_insert_eq, Hv.
      * by apply Hin.
Qed.

Lemma nls_keyword_values (c : predicate_cls)
    (kwargs : list (string * value)) (f : NonLogicalSymbol) :
  NoDup (field_names (meta c)) →
  _nls_constructor c None [] kwargs = Ok f →
  cls f = c ∧
  (∀ k, k ∈ kwargs.*1 → k ∈ field_names (meta c)) ∧
  (∀ fname fd, (fname, fd) ∈ field_defns (meta c) →
     _field_values f !! fname
     = Some (default (field_default fd) (kw_lookup kwargs fname))) ∧
  (∀ k, k ∉ field_names (meta c) → _field_values f !! k = None) ∧
  ∃ s, _symbol f = Some s ∧ symbol_of f = Ok s.
Proof.
  intros Hnd. unfold _nls_constructor. cbn [length Nat.ltb Nat.leb].
  unfold _nls_init_by_keyword_values. cbn [cls].
  destruct (filter _ (kwargs.*1)) as [|k0 inv] eqn:Hinv; [|done].
  cbn [length Nat.eqb negb].
  destruct (keyword_fields _ _ kwargs) as [self'|] eqn:Hk; [|done]. cbn.
  destruct (_generate_symbol self') as [s|] eqn:Hs; [|done]. cbn.
  intros [= <-]. destruct (keyword_fields_values _ _ _ _ Hk)
    as (Hc & _ & Hout & Hin).
  cbn in Hc, Hout. split; [done|]. split; [|split; [|split]].
  - intros k Hk'. destruct (decide (k ∈ field_names (meta c))); [done|].
    assert (k ∈ filter (λ k, k ∉ field_names (meta c)) (kwargs.*1))
      as Hf by (by apply list_elem_of_filter).
    rewrite Hinv in Hf. by apply elem_of_nil in Hf.
  - intros fname fd Hel. cbn. by apply Hin.
  - intros k Hk'. cbn. rewrite Hout by done. apply lookup_empty.
  - exists s. split; [done|]. by rewrite symbol_of_set_symbol.
Qed.

(** X4. A fact constructed from keyword arguments belongs to the class,
    every keyword is the name of a field, every field holds the
    argument passed under its name or else the default of its
    definition, no other name holds a value, and the symbol stored in
    the fact is its encoded form. *)
Theorem keyword_construction (c : predicate_cls)
    (kwargs : list (string * value)) (f : NonLogicalSymbol) :
  NoDup (field_names (meta c)) →
  _nls_constructor c None [] kwargs = Ok f →
  cls f = c ∧
  (∀ k, k ∈ kwargs.*1 → k ∈ field_names (meta c)) ∧
  (∀ fname fd, (fname, fd) ∈ field_defns (meta c) →
     _field_values f !! fname
     = Some (default (field_default fd) (kw_lookup kwargs fname))) ∧
  (∀ k, k ∉ field_names (meta c) → _field_values f !! k = None) ∧
  ∃ s, _symbol f = Some s ∧ symbol_of f = Ok s.
Proof. apply nls_keyword_values. Qed.

Lemma keyword_construction_witness :
  ∃ f, _nls_constructor (Defaults.Counter (VInt 5)) None [] [] = Ok f ∧
       cls f = Defaults.Counter (VInt 5) ∧
       _field_values f !! "n" = Some (VInt 5).
Proof.
  eexists. split; [reflexivity|].
  assert (Hnd : NoDup (field_names (meta (Defaults.Counter (VInt 5)))))
    by (apply NoDup_singleton).
  destruct (keyword_construction (Defaults.Counter (VInt 5)) [] _ Hnd
              eq_refl) as (Hc & _ & Hv & _).
  split; [exact Hc|].
  apply (Hv "n" (IntegerField None None (VInt 5))). left.
Defined.

Lemma positional_fields_values self idx defns args self' :
  positional_fields self idx defns args = Ok self' →
  cls self' = cls self ∧ _symbol self' = _symbol self ∧
  (∀ k, k ∉ defns.*1 → _field_values self' !! k = _field_values self !! k) ∧
  (NoDup (defns.*1) → ∀ j fname fd, defns !! j = Some (fname, fd) →
     is_Some (args !! (idx + j)%nat) ∧
     _field_values self' !! fname = args !! (idx + j)%nat).
Proof.
  revert self idx. induction defns as [|[fname fd] defns IH];
    intros self idx H.
  - inversion H; subst. split; [done|]. split; [done|]. split; [done|].
    intros _ j fname fd Hj. by rewrite lookup_nil in Hj.
  - cbn [positional_fields] in H.
    destruct (args !! idx) as [a|] eqn:Ha; [|done].
    destruct (IH _ _ H) as (Hc & Hs & Hout & Hin).
    split; [done|]. split; [done|]. split.
    + intros k Hk'. rewrite fmap_cons in Hk'.
      apply not_elem_of_cons in Hk' as [Hne Hk'].
      rewrite Hout by done. cbn. by rewrite lookup_insert_ne.
    + rewrite fmap_cons. intros [Hfresh Hnd]%NoDup_cons j fn fd' Hj.
      destruct j as [|j]; cbn in Hj.
      * injection Hj as -> ->. rewrite Nat.add_0_r, Ha.
        split; [by eauto|]. rewrite Hout by done. cbn.
        by rewrite lookup_insert_eq.
      * replace (idx + S j)%nat with (S idx + j)%nat by lia.
        exact (Hin Hnd j fn fd' Hj).
Qed.

Lemma getitem_field_value (f : NonLogicalSymbol) (idx : Z) (pos : nat)
    (fname : string) (fd : field_defn) :
  tuple_index (length (field_defns (meta (cls f)))) idx = Some pos →
  field_defns (meta (cls f)) !! pos = Some (fname, fd) →
  getitem f idx = get_field_value f fname.
Proof.
  intros Hpos Hd. unfold getitem.
  rewrite (tuple_getitem_lookup _ idx pos
             (mk_Field fname pos (cls_id (cls f)) true)).
  - unfold Field_get, isinstance. cbn. by rewrite bool_decide_eq_true_2.
  - unfold _field_accessors. by rewrite length_imap.
  - unfold _field_accessors. by rewrite list_lookup_imap, Hd.
Qed.

(** X5. A fact constructed from as many positional arguments as the
    predicate has fields belongs to the class, reads at every position
    the argument given at that position, also when the position is
    counted from the end by a negative integer, and stores its encoded
    form as its symbol. *)
Theorem positional_construction (c : predicate_cls) (args : list value)
    (f : NonLogicalSymbol) :
  NoDup (field_names (meta c)) →
  args ≠ [] →
  length args = arity (meta c) →
  _nls_constructor c None args [] = Ok f →
  cls f = c ∧
  (∀ idx v, args !! idx = Some v →
     getitem f (Z.of_nat idx) = Ok v ∧
     getitem f (Z.of_nat idx - Z.of_nat (length args)) = Ok v) ∧
  ∃ s, _symbol f = Some s ∧ symbol_of f = Ok s.
Proof.
  intros Hnd Hne Hlen. unfold arity, field_names in Hlen.
  rewrite length_fmap in Hlen.
  unfold _nls_constructor. destruct args as [|a0 args0] eqn:Hargs; [done|].
  rewrite <- Hargs in *. assert (Hpos : (0 <? length args)%nat = true)
    by (subst args; done).
  rewrite Hpos. unfold _nls_init_by_positional_values. cbn [cls].
  rewrite Hlen, Nat.eqb_refl. cbn [negb].
  destruct (positional_fields _ 0 _ args) as [self'|] eqn:Hp; [|done]. cbn.
  destruct (_generate_symbol self') as [s|] eqn:Hs; [|done]. cbn.
  intros [= <-]. destruct (positional_fields_values _ _ _ _ _ Hp)
    as (Hc & _ & _ & Hin). cbn in Hc.
  split; [done|]. split.
  - intros idx v Hv.
    assert (Hidx : (idx < length (field_defns (meta c)))%nat).
    { rewrite <- Hlen. by eapply lookup_lt_Some. }
    pose proof Hidx as Hlt.
    apply lookup_lt_is_Some in Hidx as [[fname fd] Hd].
    assert (Hval : get_field_value
                     {| cls := cls self'; _symbol := Some s;
                        _field_values := _field_values self' |} fname
                   = Ok v).
    { unfold get_field_value. cbn.
      destruct (Hin Hnd idx fname fd Hd) as [_ ->]. cbn. by rewrite Hv. }
    split.
    + rewrite (getitem_field_value _ _ idx fname fd); [done| |].
      * cbn [cls set_symbol]. rewrite Hc. apply tuple_index_Some.
        split; [done|by left].
      * cbn [cls set_symbol]. by rewrite Hc.
    + rewrite (getitem_field_value _ _ idx fname fd); [done| |].
      * cbn [cls set_symbol]. rewrite Hc. apply tuple_index_Some.
        split; [done|by right].
      * cbn [cls set_symbol]. by rewrite Hc.
  - exists s. split; [done|]. by rewrite symbol_of_set_symbol.
Qed.

Lemma positional_construction_witness :
  ∃ f, _nls_constructor Example.Point None [VInt 3; VInt 9] [] = Ok f ∧
       getitem f 0 = Ok (VInt 3) ∧ getitem f 1 = Ok (VInt 9) ∧
       getitem f (-1) = Ok (VInt 9).
Proof.
  eexists. split; [reflexivity|].
  assert (Hnd : NoDup (field_names (meta Example.Point))).
  { apply NoDup_cons. split; [|apply NoDup_singleton].
    intros H%list_elem_of_singleton. discriminate. }
  assert (Hne : [VInt 3; VInt 9] ≠ []) by discriminate.
  destruct (positional_construction Example.Point [VInt 3; VInt 9] _ Hnd
              Hne eq_refl eq_refl) as (_ & Hget & _).
  split; [exact (proj1 (Hget 0%nat (VInt 3) eq_refl))|].
  split; [exact (proj1 (Hget 1%nat (VInt 9) eq_refl))|].
  exact (proj2 (Hget 1%nat (VInt 9) eq_refl)).
Defined.

(** ** Facts decoded from symbols *)

Lemma decode_fields_values self idx defns arguments self' :
  decode_fields self idx defns arguments = Ok self' →
  cls self' = cls self ∧ _symbol self' = _symbol self ∧
  (∀ k, k ∉ defns.*1 → _field_values self' !! k = _field_values self !! k) ∧
  (NoDup (defns.*1) → ∀ j fname fd, defns !! j = Some (fname, fd) →
     ∃ t v, arguments !! (idx + j)%nat = Some t ∧ cltopy fd t = Ok v ∧
            _field_values self' !! fname = Some v).
Proof.
  revert self idx. induction defns as [|[fname fd] defns IH];
    intros self idx H.
  - inversion H; subst. split; [done|]. split; [done|]. split; [done|].
    intros _ j fname fd Hj. by rewrite lookup_nil in Hj.
  - cbn [decode_fields] in H.
    destruct (arguments !! idx) as [t|] eqn:Ht; [|done].
    destruct (cltopy fd t) as [v|] eqn:Hv; [|done]. cbn in H.
    destruct (IH _ _ H) as (Hc & Hs & Hout & Hin).
    split; [done|]. split; [done|]. split.
    + intros k Hk'. rewrite fmap_cons in Hk'.
      apply not_elem_of_cons in Hk' as [Hne Hk'].
      rewrite Hout by done. cbn. by rewrite lookup_insert_ne.
    + rewrite fmap_cons. intros [Hfresh Hnd]%NoDup_cons j fn fd' Hj.
      destruct j as [|j]; cbn in Hj.
      * injection Hj as -> ->. rewrite Nat.add_0_r. exists t, v.
        split; [done|]. split; [done|]. rewrite Hout by done. cbn.
        by rewrite lookup_insert_eq.
      * replace (idx + S j)%nat with (S idx + j)%nat by lia.
        exact (Hin Hnd j fn fd' Hj).
Qed.

Lemma generate_args_Forall2 (f : NonLogicalSymbol) defns ts :
  Forall2 (λ (d : string * field_defn) t,
             ∃ v, _field_values f !! d.1 = Some v ∧ pytocl d.2 v = Ok t)
          defns ts →
  generate_args f defns = Ok ts.
Proof.
  induction 1 as [|[fname fd] t defns ts (v & Hv & Ht) _ IH]; [done|].
  cbn [generate_args]. unfold get_field_value. cbn in Hv, Ht.
  rewrite Hv. cbn. rewrite Ht. cbn. by rewrite IH.
Qed.

(** Every symbol that unifies with the class can be decoded, when each
    field decodes every symbol it unifies with. *)
Lemma decode_fields_succeeds self idx defns arguments :
  (∀ fname fd t, (fname, fd) ∈ defns → unifies fd t = true →
                 is_ok (cltopy fd t) = true) →
  unifies_args idx defns arguments = true →
  is_ok (decode_fields self idx defns arguments) = true.
Proof.
  revert self idx. induction defns as [|[fname fd] defns IH];
    intros self idx Hdec Hu; [done|].
  cbn [unifies_args decode_fields] in *.
  destruct (arguments !! idx) as [t|]; [|done].
  destruct (unifies fd t) eqn:Hfd; [|done]. cbn [negb] in Hu.
  assert (Hok := Hdec fname fd t (list_elem_of_here _ _) Hfd).
  destruct (cltopy fd t) as [v|]; [|done]. cbn.
  apply IH; [|done]. intros fn fd' t' Hel.
  apply (Hdec fn fd' t'). by right.
Qed.

(** X6. Decoding a symbol into a fact and encoding the fact again gives
    the symbol without its sign, when every field encodes what it
    decodes: the fact made by [_unify] belongs to the class and stores
    the symbol it was made from, the symbol unifies with the class, and
    the encoded form of the fact is the positive form of the symbol,
    hence the symbol itself exactly when the symbol is positive. *)
Theorem unify_roundtrip (c : predicate_cls) (s : symbol)
    (f : NonLogicalSymbol) :
  NoDup (field_names (meta c)) →
  (∀ fname fd t v, (fname, fd) ∈ field_defns (meta c) →
     cltopy fd t = Ok v → pytocl fd v = Ok t) →
  _unify c s = Ok f →
  cls f = c ∧ _symbol f = Some s ∧ _unifies c s = true ∧
  symbol_of f = Ok (positive_form s) ∧
  (symbol_of f = Ok s ↔ symbol_positive s = true).
Proof.
  intros Hnd Hrt. unfold _unify, _nls_constructor, _nls_init_by_symbol.
  cbn [length Nat.eqb negb cls].
  destruct (_unifies c s) eqn:Hu; [|done]. cbn [negb]. intros Hd.
  destruct (decode_fields_values _ _ _ _ _ Hd) as (Hc & Hs & _ & Hin).
  cbn in Hc, Hs. split; [done|]. split; [done|]. split; [done|].
  unfold _unifies in Hu.
  destruct s as [| |name arguments pos| |]; [done|done| |done|done].
  cbn [symbol_type symbol_name symbol_arguments] in *.
  destruct (decide (ST_Function ≠ ST_Function)); [done|].
  destruct (String.eqb_spec name (meta_name (meta c))) as [->|];
    [|done]. cbn [negb] in Hu.
  destruct (Nat.eqb_spec (length arguments) (length (field_defns (meta c))))
    as [Hlen|]; [|done].
  assert (Hsym : symbol_of f
                 = Ok (Function (meta_name (meta c)) arguments true)).
  { unfold symbol_of, _generate_symbol. rewrite Hc.
    rewrite (generate_args_Forall2 f _ arguments); [done|].
    apply Forall2_same_length_lookup. split; [done|].
    intros j [fname fd] t Hj Ht.
    destruct (Hin Hnd j fname fd Hj) as (t' & v & Ht' & Hv & Hf).
    cbn in Ht'. rewrite Ht in Ht'. injection Ht' as <-.
    exists v. split; [done|]. cbn. eapply Hrt; [|done].
    by eapply list_elem_of_lookup_2. }
  rewrite Hsym. cbn [positive_form symbol_positive]. split; [done|].
  split; [by intros [= <-]|by intros ->].
Qed.

Lemma integer_decode_encode (d : value) (t : symbol) (v : value) :
  cltopy (IntegerField None None d) t = Ok v →
  pytocl (IntegerField None None d) v = Ok t.
Proof. destruct t; simpl; intros [= <-]; done. Qed.

Lemma Point_fields_NoDup : NoDup (field_names (meta Example.Point)).
Proof.
  apply NoDup_cons. split; [|apply NoDup_singleton].
  intros H%list_elem_of_singleton. discriminate.
Qed.

Lemma Point_fields_roundtrip fname fd t v :
  (fname, fd) ∈ field_defns (meta Example.Point) →
  cltopy fd t = Ok v → pytocl fd v = Ok t.
Proof.
  cbn. intros [[= -> ->]|[[= -> ->]|?%elem_of_nil]%elem_of_cons]%elem_of_cons;
    [| |done]; apply integer_decode_encode.
Qed.

Lemma unify_roundtrip_witness :
  ∃ f, _unify Example.Point (Function "point" [Number 2; Number 4] false)
       = Ok f ∧
       _symbol f = Some (Function "point" [Number 2; Number 4] false) ∧
       symbol_of f = Ok (Function "point" [Number 2; Number 4] true).
Proof.
  assert (Hex : ∃ f, _unify Example.Point
                       (Function "point" [Number 2; Number 4] false) = Ok f)
    by (eexists; reflexivity).
  destruct Hex as [f Hf]. exists f. split; [exact Hf|].
  destruct (unify_roundtrip Example.Point _ f Point_fields_NoDup
              Point_fields_roundtrip Hf) as (_ & Hs & _ & Hsym & _).
  split; [exact Hs|exact Hsym].
Defined.

(** X7. Construction from a symbol succeeds exactly when the symbol
    unifies with the class, provided every field decodes the symbols it
    unifies with; a symbol that does not unify is refused with the
    unification error. *)
Theorem unify_iff_unifies (c : predicate_cls) (s : symbol) :
  (∀ fname fd t, (fname, fd) ∈ field_defns (meta c) →
     unifies fd t = true → is_ok (cltopy fd t) = true) →
  (is_ok (_unify c s) = true ↔ _unifies c s = true) ∧
  (_unifies c s = false →
   _unify c s
   = Raise (ValueError "Failed to unify symbol with NonLogicalSymbol class")).
Proof.
  intros Hdec. unfold _unify, _nls_constructor, _nls_init_by_symbol.
  cbn [length Nat.eqb negb cls].
  destruct (_unifies c s) eqn:Hu; cbn [negb]; [|by split].
  split; [|done]. split; [done|]. intros _.
  apply decode_fields_succeeds; [done|].
  unfold _unifies in Hu. destruct (decide _); [done|].
  destruct (negb (String.eqb _ _)); [done|].
  by destruct (negb (_ =? _)%nat).
Qed.

Lemma integer_unifies_decodes (d : value) (t : symbol) :
  unifies (IntegerField None None d) t = true →
  is_ok (cltopy (IntegerField None None d) t) = true.
Proof. by destruct t. Qed.

Lemma Point_fields_decode fname fd t :
  (fname, fd) ∈ field_defns (meta Example.Point) →
  unifies fd t = true → is_ok (cltopy fd t) = true.
Proof.
  cbn. intros [[= -> ->]|[[= -> ->]|?%elem_of_nil]%elem_of_cons]%elem_of_cons;
    [| |done]; apply integer_unifies_decodes.
Qed.

Lemma unify_iff_unifies_witness :
  is_ok (_unify Example.Point (Function "point" [Number 2; Number 4] true))
  = true ∧
  _unify Example.Point (Function "point" [Number 2] true)
  = Raise (ValueError "Failed to unify symbol with NonLogicalSymbol class").
Proof.
  split.
  - apply (unify_iff_unifies Example.Point _ Point_fields_decode).
    reflexivity.
  - apply (unify_iff_unifies Example.Point _ Point_fields_decode).
    reflexivity.
Defined.

(** ** Cloning *)

Lemma kw_lookup_od_set (d : list (string * value)) (k k' : string)
    (v : value) :
  kw_lookup (od_set d k v) k'
  = if decide (k = k') then Some v else kw_lookup d k'.
Proof.
  induction d as [|[k0 v0] d IH]; cbn [od_set kw_lookup].
  - destruct (String.eqb_spec k k'); by destruct (decide (k = k')).
  - destruct (decide (k0 = k)) as [->|Hne]; cbn [kw_lookup].
    + destruct (String.eqb_spec k k'); by destruct (decide (k = k')).
    + rewrite IH. destruct (String.eqb_spec k0 k') as [->|]; [|done].
      by destruct (decide (k = k')).
Qed.

Lemma clone_args_lookup self defns kwargs acc ca :
  clone_args self defns kwargs acc = Ok ca →
  NoDup (defns.*1) →
  (∀ k, k ∉ defns.*1 → kw_lookup ca k = kw_lookup acc k) ∧
  (∀ fname, fname ∈ defns.*1 →
     ∃ v, kw_lookup ca fname = Some v ∧
          match kw_lookup kwargs fname with
          | Some w => w = v
          | None => _field_values self !! fname = Some v
          end).
Proof.
  revert kwargs acc. induction defns as [|[fname fd] defns IH];
    intros kwargs acc H Hnd.
  - inversion H; subst. split; [done|]. by intros ? ?%elem_of_nil.
  - rewrite fmap_cons in Hnd. apply NoDup_cons in Hnd as [Hfresh Hnd].
    cbn [clone_args] in H. cbn [fst] in Hfresh.
    destruct (kw_lookup kwargs fname) as [w|] eqn:Hkw.
    + destruct (IH _ _ H Hnd) as [Hout Hin]. split.
      * intros k Hk. rewrite fmap_cons in Hk.
        apply not_elem_of_cons in Hk as [Hne Hk]. cbn in Hne.
        rewrite Hout, kw_lookup_od_set by done.
        by destruct (decide (fname = k)).
      * intros fn Hfn. rewrite fmap_cons in Hfn.
        apply elem_of_cons in Hfn as [->|Hfn]; cbn.
        -- exists w. rewrite Hout, kw_lookup_od_set, Hkw by done.
           by destruct (decide (fname = fname)).
        -- by apply Hin.
    + unfold get_field_value in H.
      destruct (_field_values self !! fname) as [v|] eqn:Hv; [|done].
      cbn in H. destruct (IH _ _ H Hnd) as [Hout Hin]. split.
      * intros k Hk. rewrite fmap_cons in Hk.
        apply not_elem_of_cons in Hk as [Hne Hk]. cbn in Hne.
        rewrite Hout, kw_lookup_od_set by done.
        by destruct (decide (fname = k)).
      * intros fn Hfn. rewrite fmap_cons in Hfn.
        apply elem_of_cons in Hfn as [->|Hfn]; cbn.
        -- exists v. rewrite Hout, kw_lookup_od_set, Hkw by done.
           by destruct (decide (fname = fname)).
        -- destruct (Hin fn Hfn) as (u & Hu & Hm). exists u.
           split; [done|]. rewrite kw_lookup_od_set in Hm.
           destruct (decide (fname = fn)) as [->|]; [done|]. done.
Qed.

(** X8. A clone belongs to the class of the fact it was made from;
    every keyword given to [clone] is the name of a field; and every
    field of the clone holds the value given under its name, or else
    the value the field has in the original. *)
Theorem clone_overrides (f g : NonLogicalSymbol)
    (kwargs : list (string * value)) :
  NoDup (field_names (meta (cls f))) →
  clone f kwargs = Ok g →
  cls g = cls f ∧
  (∀ k, k ∈ kwargs.*1 → k ∈ field_names (meta (cls f))) ∧
  (∀ fname, fname ∈ field_names (meta (cls f)) →
     _field_values g !! fname
     = match kw_lookup kwargs fname with
       | Some v => Some v
       | None => _field_values f !! fname
       end).
Proof.
  intros Hnd. unfold clone.
  destruct (filter _ (kwargs.*1)) as [|k0 inv] eqn:Hinv; [|done].
  cbn [length Nat.eqb negb].
  destruct (clone_args f _ kwargs []) as [ca|] eqn:Hca; [|done]. cbn.
  intros Hg. destruct (nls_keyword_values _ _ _ Hnd Hg) as (Hc & _ & Hv & _).
  destruct (clone_args_lookup _ _ _ _ _ Hca Hnd) as [_ Hin].
  split; [done|]. split.
  - intros k Hk. destruct (decide (k ∈ field_names (meta (cls f)))); [done|].
    assert (k ∈ filter (λ k, k ∉ field_names (meta (cls f))) (kwargs.*1))
      as Hf by (by apply list_elem_of_filter).
    rewrite Hinv in Hf. by apply elem_of_nil in Hf.
  - intros fname Hfn. destruct (Hin fname Hfn) as (v & Hlk & Hm).
    unfold field_names in Hfn. apply list_elem_of_fmap in Hfn
      as ([fn fd] & -> & Hel). cbn in *.
    rewrite (Hv fn fd Hel), Hlk. cbn.
    destruct (kw_lookup kwargs fn); by subst.
Qed.

Lemma clone_overrides_witness :
  ∃ g, clone (Example.pt 1 2) [("y", VInt 7)] = Ok g ∧
       _field_values g !! "x" = Some (VInt 1) ∧
       _field_values g !! "y" = Some (VInt 7).
Proof.
  assert (Hex : ∃ g, clone (Example.pt 1 2) [("y", VInt 7)] = Ok g)
    by (eexists; reflexivity).
  destruct Hex as [g Hg]. exists g. split; [exact Hg|].
  destruct (clone_overrides (Example.pt 1 2) g _ Point_fields_NoDup Hg)
    as (_ & _ & Hv).
  split.
  - rewrite (Hv "x"); [reflexivity|]. left.
  - rewrite (Hv "y"); [reflexivity|]. right. left.
Defined.

(** ** Evaluation of comparators *)

(** The arity conditions that [_BoolComparator.__init__] enforces, all
    through a comparator. *)
Fixpoint well_formed (c : comparator) : bool :=
  match c with
  | _BoolComparator op args =>
      (if bool_decide (op = not_op) then (length args =? 1)%nat
       else (2 <=? length args)%nat)
      && forallb well_formed args
  | _ => true
  end.

(** No [bool] stands for a condition anywhere in the comparator. *)
Fixpoint raw_free (c : comparator) : bool :=
  match c with
  | _BoolComparator _ args => forallb raw_free args
  | _RawBool _ => false
  | _ => true
  end.

(** Every condition in the comparator is a comparator or a [bool]. *)
Fixpoint callable_free (c : comparator) : bool :=
  match c with
  | _BoolComparator _ args => forallb callable_free args
  | _Callable _ => false
  | _ => true
  end.

Lemma Field_get_raises (fld : _Field) (fact : NonLogicalSymbol) :
  match Field_get fld fact with
  | Ok _ | Raise (TypeError _) | Raise (KeyError _) => True
  | _ => False
  end.
Proof.
  unfold Field_get, get_field_value.
  destruct (negb _); [done|]. by destruct (_ !! _).
Qed.

Lemma apply_compop_raises (op : compop) (v w : value) :
  match apply_compop op v w with
  | Ok _ | Raise (TypeError _) => True
  | _ => False
  end.
Proof. destruct op, v, w; done. Qed.

Lemma FieldComparator_call_total σ op a1 a2 st v fact :
  ∃ b, FieldComparator_call σ op a1 a2 st v fact = Ok b.
Proof.
  unfold FieldComparator_call. destruct st; [by eauto|].
  assert (Harg : ∀ a, match getargval σ a fact with
                      | Ok _ | Raise (TypeError _) | Raise (KeyError _) => True
                      | _ => False
                      end).
  { intros [fld|p|w]; simpl; [apply Field_get_raises|done|done]. }
  pose proof (Harg a1) as H1. pose proof (Harg a2) as H2.
  destruct (getargval σ a1 fact) as [v1|[]]; try done; cbn; eauto.
  destruct (getargval σ a2 fact) as [v2|[]]; try done; cbn; eauto.
  pose proof (apply_compop_raises op v1 v2) as H3.
  destruct (apply_compop op v1 v2) as [b|[]]; try done; cbn; eauto.
Qed.

(** The loops of [_BoolComparator.__call__] over the arguments. *)
Fixpoint call_all (σ : gmap nat value) (fact : NonLogicalSymbol)
    (l : list comparator) : result bool :=
  match l with
  | [] => Ok true
  | a :: rest =>
      b ← comparator_call σ a fact;
      if negb b then Ok false else call_all σ fact rest
  end.

Fixpoint call_any (σ : gmap nat value) (fact : NonLogicalSymbol)
    (l : list comparator) : result bool :=
  match l with
  | [] => Ok false
  | a :: rest =>
      b ← comparator_call σ a fact;
      if (b : bool) then Ok true else call_any σ fact rest
  end.

Lemma comparator_call_and σ args fact :
  comparator_call σ (_BoolComparator and_op args) fact = call_all σ fact args.
Proof.
  cbn [comparator_call]. induction args as [|a args IH]; [done|].
  cbn [call_all]. by rewrite <- IH.
Qed.

Lemma comparator_call_or σ args fact :
  comparator_call σ (_BoolComparator or_op args) fact = call_any σ fact args.
Proof.
  cbn [comparator_call]. induction args as [|a args IH]; [done|].
  cbn [call_any]. by rewrite <- IH.
Qed.

Lemma comparator_call_total σ c fact :
  well_formed c = true → raw_free c = true → callable_free c = true →
  ∃ b, comparator_call σ c fact = Ok b.
Proof.
  induction c as [v|op a1 a2 st v|op args IH|b|call] using comparator_ind';
    intros Hwf Hraw Hcf; [| | |done|done].
  - by eexists.
  - apply FieldComparator_call_total.
  - cbn [well_formed] in Hwf. apply andb_true_iff in Hwf as [Hlen Hargs].
    cbn [raw_free callable_free] in Hraw, Hcf.
    rewrite forallb_forall in Hargs, Hraw, Hcf. rewrite Forall_forall in IH.
    assert (Hall : Forall (λ a, ∃ b, comparator_call σ a fact = Ok b) args).
    { apply Forall_forall. intros a Ha. pose proof Ha as Hin.
      apply list_elem_of_In in Hin. apply IH; auto. }
    destruct op.
    + destruct args as [|a rest]; [done|].
      apply Forall_cons in Hall as [[b Hb] _]. cbn [comparator_call].
      rewrite Hb. by eexists.
    + rewrite comparator_call_and. clear -Hall.
      induction Hall as [|a args [b Hb] _ IHargs]; [by eexists|].
      cbn [call_all]. rewrite Hb. cbn. destruct b; cbn; [done|by eexists].
    + rewrite comparator_call_or. clear -Hall.
      induction Hall as [|a args [b Hb] _ IHargs]; [by eexists|].
      cbn [call_any]. rewrite Hb. cbn. destruct b; cbn; [by eexists|done].
Qed.

Lemma BoolComparator_init_Ok op args c :
  BoolComparator_init op args = Ok c →
  c = _BoolComparator op args ∧
  (if bool_decide (op = not_op) then (length args =? 1)%nat
   else (2 <=? length args)%nat) = true.
Proof.
  unfold BoolComparator_init. case_bool_decide; cbn [andb negb].
  - destruct (length args =? 1)%nat; cbn; [|done]. by intros [= <-].
  - destruct (Nat.leb_spec (length args) 1); cbn; [done|].
    intros [= <-]. split; [done|].
    destruct (length args) as [|[|n]]; [lia|lia|done].
Qed.



(** ** What simplification does *)

Definition is_static (c : comparator) : bool :=
  match c with _StaticComparator _ => true | _ => false end.

(** No static comparator, and no [bool], anywhere in the comparator. *)
Fixpoint static_free (c : comparator) : bool :=
  match c with
  | _StaticComparator _ | _RawBool _ => false
  | _FieldComparator _ _ _ st _ => negb st
  | _BoolComparator _ args => forallb static_free args
  | _Callable _ => true
  end.

(** For [and_] and [or_], the simplified comparator is made from the
    simplified arguments that are not static. *)
Lemma simplified_and_or (op : boolop) (args : list comparator) :
  op ≠ not_op →
  simplified (_BoolComparator op args)
  = simplified_finish op
      (filter (λ c, negb (is_static c))
              (map _simplify_fact_comparator args)).
Proof.
  intros Hop. cbn [simplified].
  match goal with
  | |- ?loop args [] = _ =>
      enough (H : ∀ newargs, loop args newargs
                = simplified_finish op
                    (newargs ++ filter (λ c, negb (is_static c))
                                  (map _simplify_fact_comparator args)))
        by exact (H [])
  end.
  induction args as [|a args IH]; intros newargs.
  - cbn. by rewrite app_nil_r.
  - cbn [map]. fold (_simplify_fact_comparator a).
    destruct (_simplify_fact_comparator a) as [v|o a1 a2 st v|o l|b|g]
      eqn:Hs.
    + rewrite filter_cons_False by (cbn; auto).
      destruct op; [done| |]; apply IH.
    + rewrite filter_cons_True by done. rewrite IH.
      by rewrite <- app_assoc.
    + rewrite filter_cons_True by done. rewrite IH.
      by rewrite <- app_assoc.
    + rewrite filter_cons_True by done. rewrite IH.
      by rewrite <- app_assoc.
    + rewrite filter_cons_True by done. rewrite IH.
      by rewrite <- app_assoc.
Qed.

(** For [not_] with its one argument. *)
Lemma simplified_not (a : comparator) :
  simplified (_BoolComparator not_op [a])
  = match _simplify_fact_comparator a with
    | _StaticComparator v => Ok (_StaticComparator (negb v))
    | s => Ok (_BoolComparator not_op [s])
    end.
Proof.
  cbn [simplified]. fold (_simplify_fact_comparator a).
  by destruct (_simplify_fact_comparator a).
Qed.

Lemma simplified_finish_Ok (op : boolop) (newargs : list comparator) :
  op ≠ not_op →
  simplified_finish op newargs
  = Ok match newargs with
       | [] => _StaticComparator (bool_decide (op = and_op))
       | [x] => x
       | _ => _BoolComparator op newargs
       end.
Proof.
  intros Hop. destruct newargs as [|x [|y l]], op; try done.
Qed.

Lemma simplify_and_or (op : boolop) (args : list comparator) :
  op ≠ not_op →
  _simplify_fact_comparator (_BoolComparator op args)
  = match filter (λ c, negb (is_static c))
                 (map _simplify_fact_comparator args) with
    | [] => _StaticComparator (bool_decide (op = and_op))
    | [x] => x
    | l => _BoolComparator op l
    end.
Proof.
  intros Hop. unfold _simplify_fact_comparator at 1.
  rewrite simplified_and_or, simplified_finish_Ok by done.
  by destruct (filter _ _) as [|x [|y l]].
Qed.

Lemma simplify_not (a : comparator) :
  _simplify_fact_comparator (_BoolComparator not_op [a])
  = match _simplify_fact_comparator a with
    | _StaticComparator v => _StaticComparator (negb v)
    | s => _BoolComparator not_op [s]
    end.
Proof.
  unfold _simplify_fact_comparator at 1. rewrite simplified_not.
  by destruct (_simplify_fact_comparator a).
Qed.

Lemma well_formed_args (op : boolop) (args : list comparator) :
  well_formed (_BoolComparator op args) = true →
  Forall (λ a, well_formed a = true) args ∧
  (op = not_op → ∃ a, args = [a]) ∧
  (op ≠ not_op → (2 ≤ length args)%nat).
Proof.
  cbn [well_formed]. intros [Hlen Hargs]%andb_true_iff. split.
  - apply Forall_forall. intros a Ha. rewrite forallb_forall in Hargs.
    apply Hargs. by apply list_elem_of_In.
  - split; intros Hop.
    + subst op. rewrite bool_decide_eq_true_2 in Hlen by done.
      destruct args as [|a [|b l]]; try done. by exists a.
    + rewrite bool_decide_eq_false_2 in Hlen by done.
      by apply Nat.leb_le.
Qed.

Lemma simplify_static_free_id (c : comparator) :
  well_formed c = true → static_free c = true →
  _simplify_fact_comparator c = c.
Proof.
  induction c as [v|op a1 a2 st v|op args IH|b|call] using comparator_ind';
    intros Hwf Hsf; [done| | |done|done].
  - cbn in Hsf. by destruct st.
  - destruct (well_formed_args _ _ Hwf) as (Hargs & Hnot & Hlen).
    cbn [static_free] in Hsf.
    assert (Hsfa : Forall (λ a, static_free a = true) args).
    { apply Forall_forall. intros a Ha. rewrite forallb_forall in Hsf.
      apply Hsf. by apply list_elem_of_In. }
    assert (Hmap : map _simplify_fact_comparator args = args).
    { clear -IH Hargs Hsfa.
      induction IH as [|a l Ha _ IHl]; [done|].
      apply Forall_cons in Hargs as [? ?]. apply Forall_cons in Hsfa as [? ?].
      cbn [map]. by rewrite Ha, IHl. }
    assert (Hfil : filter (λ c, negb (is_static c)) args = args).
    { clear -Hsfa. induction Hsfa as [|a l Ha _ IHl]; [done|].
      rewrite filter_cons_True by (by destruct a). by rewrite IHl. }
    destruct (decide (op = not_op)) as [->|Hop].
    + destruct (Hnot eq_refl) as [a ->]. rewrite simplify_not.
      cbn [map] in Hmap. injection Hmap as Ha. rewrite Ha.
      apply Forall_cons in Hsfa as [? _]. by destruct a.
    + rewrite simplify_and_or, Hmap, Hfil by done.
      specialize (Hlen Hop). by destruct args as [|a [|b l]]; cbn in Hlen;
        try lia.
Qed.

Lemma simplify_shape (c : comparator) :
  well_formed c = true →
  well_formed (_simplify_fact_comparator c) = true ∧
  (is_static (_simplify_fact_comparator c) = true
   ∨ static_free (_simplify_fact_comparator c) = true).
Proof.
  induction c as [v|op a1 a2 st v|op args IH|b|call] using comparator_ind';
    intros Hwf.
  - split; [done|by left].
  - unfold _simplify_fact_comparator. cbn.
    destruct st; [split; [done|by left]|split; [done|by right]].
  - destruct (well_formed_args _ _ Hwf) as (Hargs & Hnot & Hlen).
    assert (Hall : Forall (λ a,
              well_formed (_simplify_fact_comparator a) = true ∧
              (is_static (_simplify_fact_comparator a) = true
               ∨ static_free (_simplify_fact_comparator a) = true)) args).
    { clear -IH Hargs. induction IH as [|a l Ha _ IHl]; [done|].
      apply Forall_cons in Hargs as [? ?]. constructor; auto. }
    destruct (decide (op = not_op)) as [->|Hop].
    + destruct (Hnot eq_refl) as [a ->]. rewrite simplify_not.
      apply Forall_cons in Hall as [[Hw Hs] _].
      destruct (_simplify_fact_comparator a) as [v|o a1 a2 st v|o l|b|g];
        [split; [done|by left]| | | |].
      * destruct Hs as [?|Hs]; [done|]. split; [done|right].
        cbn in *. by rewrite Hs.
      * destruct Hs as [?|Hs]; [done|]. split.
        -- change (well_formed (_BoolComparator o l) && true = true).
           by rewrite Hw.
        -- right. change (static_free (_BoolComparator o l) && true = true).
           by rewrite Hs.
      * by destruct Hs.
      * split; [done|by right].
    + rewrite simplify_and_or by done.
      assert (Hfil : Forall (λ s, well_formed s = true ∧ static_free s = true)
                (filter (λ c, negb (is_static c))
                        (map _simplify_fact_comparator args))).
      { clear -Hall. induction Hall as [|a l [Hw Hs] _ IHl]; [done|].
        cbn [map]. destruct (is_static (_simplify_fact_comparator a)) eqn:Hst.
        - by rewrite filter_cons_False by (rewrite Hst; auto).
        - rewrite filter_cons_True by (by rewrite Hst).
          constructor; [|done]. split; [done|]. by destruct Hs. }
      destruct (filter _ _) as [|x [|y l]]; [split; [done|by left]| |].
      * apply Forall_cons in Hfil as [[? ?] _]. split; [done|by right].
      * assert (Hw : forallb well_formed (x :: y :: l) = true).
        { apply forallb_forall. intros z Hz%list_elem_of_In.
          rewrite Forall_forall in Hfil. by apply Hfil. }
        assert (Hs : forallb static_free (x :: y :: l) = true).
        { apply forallb_forall. intros z Hz%list_elem_of_In.
          rewrite Forall_forall in Hfil. by apply Hfil. }
        split; [|by right]. cbn [well_formed].
        rewrite bool_decide_eq_false_2 by done. by rewrite Hw.
  - split; [done|by left].
  - split; [done|by right].
Qed.

Lemma static_free_raw_free (c : comparator) :
  static_free c = true → raw_free c = true.
Proof.
  induction c as [v|op a1 a2 st v|op args IH|b|call] using comparator_ind';
    try done.
  cbn [static_free raw_free]. rewrite !forallb_forall. intros Hsf a Ha.
  rewrite Forall_forall in IH. apply IH; [by apply list_elem_of_In|auto].
Qed.

(** Simplification leaves no [bool] in a comparator, and brings in no
    other object. *)
Lemma simplify_raw_free (c : comparator) :
  well_formed c = true → raw_free (_simplify_fact_comparator c) = true.
Proof.
  intros Hwf. destruct (simplify_shape c Hwf) as [_ [Hs|Hs]].
  - by destruct (_simplify_fact_comparator c).
  - by apply static_free_raw_free.
Qed.

Lemma simplify_callable_free (c : comparator) :
  well_formed c = true → callable_free c = true →
  callable_free (_simplify_fact_comparator c) = true.
Proof.
  induction c as [v|op a1 a2 st v|op args IH|b|call] using comparator_ind';
    intros Hwf Hcf; [done| | |done|done].
  - unfold _simplify_fact_comparator. cbn. by destruct st.
  - destruct (well_formed_args _ _ Hwf) as (Hargs & Hnot & Hlen).
    cbn [callable_free] in Hcf. rewrite forallb_forall in Hcf.
    assert (Hall : Forall (λ a, callable_free (_simplify_fact_comparator a)
                                = true) args).
    { apply Forall_forall. intros a Ha. rewrite Forall_forall in IH, Hargs.
      apply IH; [done|by apply Hargs|]. apply Hcf. by apply list_elem_of_In. }
    destruct (decide (op = not_op)) as [->|Hop].
    + destruct (Hnot eq_refl) as [a ->]. rewrite simplify_not.
      apply Forall_cons in Hall as [Ha _].
      destruct (_simplify_fact_comparator a); try done.
      cbn [callable_free forallb] in *. by rewrite Ha.
    + rewrite simplify_and_or by done.
      assert (Hfil : Forall (λ s, callable_free s = true)
                (filter (λ c, negb (is_static c))
                        (map _simplify_fact_comparator args))).
      { clear -Hall. induction Hall as [|a l Ha _ IHl]; [done|].
        cbn [map]. destruct (is_static (_simplify_fact_comparator a)) eqn:Hst.
        - by rewrite filter_cons_False by (rewrite Hst; auto).
        - rewrite filter_cons_True by (by rewrite Hst). by constructor. }
      destruct (filter _ _) as [|x [|y l]]; [done| |].
      * by apply Forall_cons in Hfil as [? _].
      * cbn [callable_free]. apply forallb_forall.
        intros z Hz%list_elem_of_In. rewrite Forall_forall in Hfil.
        by apply Hfil.
Qed.

(** X10. Simplification returns a well-formed comparator that either is
    a static comparator or contains no static comparator and no [bool]
    at all; and it leaves a comparator that contains neither
    unchanged. *)
Theorem simplify_removes_statics (c : comparator) :
  well_formed c = true →
  well_formed (_simplify_fact_comparator c) = true ∧
  (is_static (_simplify_fact_comparator c) = true
   ∨ static_free (_simplify_fact_comparator c) = true) ∧
  (static_free c = true → _simplify_fact_comparator c = c).
Proof.
  intros Hwf. destruct (simplify_shape c Hwf) as [Hw Hs].
  split; [done|]. split; [done|]. by apply simplify_static_free_id.
Qed.

Lemma simplify_removes_statics_witness :
  static_free
    (_simplify_fact_comparator
       (_BoolComparator and_op [Simplify.x_eq_x; Simplify.x_gt_1])) = true.
Proof.
  destruct (simplify_removes_statics
              (_BoolComparator and_op [Simplify.x_eq_x; Simplify.x_gt_1])
              eq_refl) as (_ & [Hs|Hs] & _).
  - discriminate Hs.
  - exact Hs.
Defined.









(** ** The placeholders a query knows *)

Lemma od_get_od_set {K V : Type} `{EqDecision K} (d : list (K * V))
    (k k' : K) (v : V) :
  od_get (od_set d k v) k'
  = if decide (k = k') then Some v else od_get d k'.
Proof.
  induction d as [|[k0 v0] d IH]; cbn [od_set od_get].
  - done.
  - destruct (decide (k0 = k)) as [->|Hne]; cbn [od_get].
    + by destruct (decide (k = k')).
    + rewrite IH. destruct (decide (k0 = k')) as [->|]; [|done].
      by destruct (decide (k = k')).
Qed.

Lemma od_set_keys {K V : Type} `{EqDecision K} (d : list (K * V))
    (k : K) (v : V) :
  (od_set d k v).*1 = if decide (k ∈ d.*1) then d.*1 else d.*1 ++ [k].
Proof.
  induction d as [|[k0 v0] d IH]; cbn [od_set].
  - destruct (decide (k ∈ _)) as [?%elem_of_nil|]; done.
  - destruct (decide (k0 = k)) as [->|Hne]; cbn.
    + destruct (decide (k ∈ k :: d.*1)) as [|Hn]; [done|].
      destruct Hn. left.
    + rewrite IH. destruct (decide (k ∈ d.*1)) as [Hin|Hnin].
      * destruct (decide (k ∈ k0 :: d.*1)) as [|Hn]; [done|].
        destruct Hn. by right.
      * destruct (decide (k ∈ k0 :: d.*1)) as [Hin|]; [|done].
        apply elem_of_cons in Hin as [->|]; done.
Qed.

Lemma od_set_NoDup {K V : Type} `{EqDecision K} (d : list (K * V))
    (k : K) (v : V) :
  NoDup (d.*1) → NoDup ((od_set d k v).*1).
Proof.
  intros Hnd. rewrite od_set_keys. destruct (decide (k ∈ d.*1)); [done|].
  apply NoDup_app. split; [done|]. split; [|apply NoDup_singleton].
  intros x Hx ->%list_elem_of_singleton. done.
Qed.

Lemma od_set_elem_of {K V : Type} `{EqDecision K} (d : list (K * V))
    (k : K) (v : V) (kv : K * V) :
  kv ∈ od_set d k v → kv = (k, v) ∨ kv ∈ d.
Proof.
  induction d as [|[k0 v0] d IH]; cbn [od_set].
  - intros ->%list_elem_of_singleton. by left.
  - destruct (decide (k0 = k)) as [->|Hne].
    + intros [->|Hin]%elem_of_cons; [by left|right; by right].
    + intros [->|Hin]%elem_of_cons; [right; left|].
      destruct (IH Hin) as [->|?]; [by left|right; by right].
Qed.

Lemma od_of_list_spec {K V : Type} `{EqDecision K} (l : list (K * V)) :
  NoDup ((od_of_list l).*1) ∧
  (∀ kv, kv ∈ od_of_list l → kv ∈ l) ∧
  (∀ k, od_get (od_of_list l) k = od_get (reverse l) k).
Proof.
  unfold od_of_list.
  enough (H : ∀ acc : list (K * V), NoDup (acc.*1) →
            NoDup ((foldl (λ d kv, od_set d kv.1 kv.2) acc l).*1) ∧
            (∀ kv, kv ∈ foldl (λ d kv, od_set d kv.1 kv.2) acc l →
                   kv ∈ l ∨ kv ∈ acc) ∧
            (∀ k, od_get (foldl (λ d kv, od_set d kv.1 kv.2) acc l) k
                  = match od_get (reverse l) k with
                    | Some v => Some v
                    | None => od_get acc k
                    end)).
  { destruct (H [] (NoDup_nil_2)) as (H1 & H2 & H3). split; [done|].
    split.
    - intros kv Hkv. by destruct (H2 kv Hkv) as [?|?%elem_of_nil].
    - intros k. rewrite H3. by destruct (od_get (reverse l) k). }
  induction l as [|[k0 v0] l IH]; intros acc Hacc.
  - split; [done|]. split; [by right|done].
  - cbn [foldl fst snd].
    destruct (IH (od_set acc k0 v0) (od_set_NoDup _ _ _ Hacc))
      as (H1 & H2 & H3).
    split; [done|]. split.
    + intros kv Hkv. destruct (H2 kv Hkv) as [?|Hin]; [left; by right|].
      destruct (od_set_elem_of _ _ _ _ Hin) as [->|?];
        [left; left|by right].
    + intros k. rewrite H3, reverse_cons.
      assert (Happ : ∀ (a b : list (K * V)),
                od_get (a ++ b) k
                = match od_get a k with
                  | Some v => Some v
                  | None => od_get b k
                  end).
      { intros a b. induction a as [|[k1 v1] a IHa]; [done|].
        cbn [app od_get]. by destruct (decide (k1 = k)). }
      rewrite Happ. destruct (od_get (reverse l) k); [done|].
      rewrite od_get_od_set. cbn [od_get].
      by destruct (decide (k0 = k)).
Qed.



Module Shadow.

(** [Point.x == ph1_] and [Point.y == ph1_]: each use of [ph1_] makes a
    placeholder object of its own, both named 0. *)
Definition first : _Placeholder := ph1_ 10.
Definition second : _Placeholder := ph1_ 11.
Definition c1 : comparator :=
  _FieldComparator op_eq (AField Example.Point_x) (APlaceholder first)
                   false false.
Definition c2 : comparator :=
  _FieldComparator op_eq (AField Example.Point_y) (APlaceholder second)
                   false false.
Definition sel : result _Select :=
  where_ (Select_init (FactMap_init [])) [c1; c2].

End Shadow.


Lemma bind_positional_other name_to_ph idx args σ (q : _Placeholder) :
  ph_id q ∉ (ph_id ∘ snd) <$> name_to_ph →
  ph_value (bind_positional name_to_ph idx args σ).1 q = ph_value σ q.
Proof.
  intros Hq. revert idx σ. induction args as [|a args IH]; intros idx σ;
    [done|].
  cbn [bind_positional].
  destruct (od_get name_to_ph (PhIndex idx)) as [ph|] eqn:Hph; [|done].
  rewrite IH. apply ph_value_set_ne. intros Heq. apply Hq.
  apply od_get_elem_of in Hph. apply list_elem_of_fmap.
  exists (PhIndex idx, ph). split; [by rewrite <- Heq|done].
Qed.

(** X13. Whatever its arguments and whether it returns or raises, the
    binding step changes the value of no placeholder object other than
    those the query knows. *)
Theorem binding_touches_known_only (self : _Select) (args : list value)
    (kwargs : list (string * value)) (σ : gmap nat value)
    (q : _Placeholder) :
  ph_id q ∉ (ph_id ∘ snd) <$> _name_to_ph self →
  ph_value (_set_placeholder_values self args kwargs σ).1 q = ph_value σ q.
Proof.
  intros Hq. unfold _set_placeholder_values.
  destruct (_ && _); [done|]. destruct (_ && _); [done|].
  destruct (negb (length args =? 0)%nat).
  - destruct (negb _); [done|]. by apply bind_positional_other.
  - destruct (check_names _ _); [|done]. by apply bind_keywords_other.
Qed.

Lemma binding_touches_known_only_witness :
  ∃ sel, Shadow.sel = Ok sel ∧
    ph_value (_set_placeholder_values sel [VInt 2] [] ∅).1 Shadow.first
    = VNone.
Proof.
  assert (Hex : ∃ sel, Shadow.sel = Ok sel
                       ∧ _name_to_ph sel = [(PhIndex 0, Shadow.second)])
    by (eexists; split; reflexivity).
  destruct Hex as (sel & Hsel & Hn). exists sel. split; [exact Hsel|].
  rewrite (binding_touches_known_only sel [VInt 2] [] ∅ Shadow.first);
    [reflexivity|].
  rewrite Hn. cbn. intros H%list_elem_of_singleton. discriminate H.
Defined.

(** ** Lookups in the sorted key list *)

(** Bisection finds the point [p] before which the test holds and from
    which on it fails. *)
Lemma bisect_left_loop_split fuel (a : list value) (x : value) lo hi p :
  (∀ i am, a !! i = Some am → py_lt am x = Ok (bool_decide (i < p)%nat)) →
  (lo ≤ p)%nat → (p ≤ hi)%nat → (hi ≤ length a)%nat →
  (hi - lo ≤ fuel)%nat →
  bisect_left_loop fuel a x lo hi = Ok p.
Proof.
  intros Hsplit. revert lo hi.
  induction fuel as [|n IH]; intros lo hi Hlo Hhi Hlen Hfuel.
  - cbn. f_equal. lia.
  - cbn [bisect_left_loop]. destruct (Nat.ltb_spec lo hi) as [Hlt|Hge];
      [|f_equal; lia].
    assert (Hmid : (lo ≤ (lo + hi) / 2 ∧ (lo + hi) / 2 < hi)%nat).
    { split; [apply Nat.div_le_lower_bound|apply Nat.Div0.div_lt_upper_bound];
        lia. }
    destruct (lookup_lt_is_Some_2 a ((lo + hi) / 2)%nat) as [am Ham];
      [lia|].
    rewrite Ham, (Hsplit _ _ Ham). cbn -[Nat.div].
    case_bool_decide; apply IH; lia.
Qed.

Lemma bisect_right_loop_split fuel (a : list value) (x : value) lo hi p :
  (∀ i am, a !! i = Some am → py_lt x am = Ok (bool_decide (p ≤ i)%nat)) →
  (lo ≤ p)%nat → (p ≤ hi)%nat → (hi ≤ length a)%nat →
  (hi - lo ≤ fuel)%nat →
  bisect_right_loop fuel a x lo hi = Ok p.
Proof.
  intros Hsplit. revert lo hi.
  induction fuel as [|n IH]; intros lo hi Hlo Hhi Hlen Hfuel.
  - cbn. f_equal. lia.
  - cbn [bisect_right_loop]. destruct (Nat.ltb_spec lo hi) as [Hlt|Hge];
      [|f_equal; lia].
    assert (Hmid : (lo ≤ (lo + hi) / 2 ∧ (lo + hi) / 2 < hi)%nat).
    { split; [apply Nat.div_le_lower_bound|apply Nat.Div0.div_lt_upper_bound];
        lia. }
    destruct (lookup_lt_is_Some_2 a ((lo + hi) / 2)%nat) as [am Ham];
      [lia|].
    rewrite Ham, (Hsplit _ _ Ham). cbn -[Nat.div].
    case_bool_decide; apply IH; lia.
Qed.

(** In a strictly increasing list, the elements that satisfy a
    downward-closed test form a prefix. *)
Lemma sorted_prefix (P : Z → Prop) `{∀ z, Decision (P z)} (zs : list Z) :
  StronglySorted Z.lt zs →
  (∀ z z', z < z' → P z' → P z) →
  zs = filter P zs ++ filter (λ z, ¬ P z) zs.
Proof.
  intros Hs Hdown. induction Hs as [|z zs Hs IH Hall]; [done|].
  destruct (decide (P z)) as [Hz|Hz].
  - rewrite filter_cons_True by done.
    rewrite (filter_cons_False (λ z, ¬ P z)) by auto.
    cbn. by rewrite <- IH.
  - rewrite filter_cons_False by done.
    rewrite (filter_cons_True (λ z, ¬ P z)) by done.
    assert (Hnone : Forall (λ z', ¬ P z') zs).
    { eapply Forall_impl; [exact Hall|]. intros z' Hlt Hz'.
      apply Hz. by eapply Hdown. }
    assert (Hf1 : filter P zs = []).
    { clear -Hnone. induction Hnone as [|y l Hy _ IHl]; [done|].
      by rewrite filter_cons_False. }
    assert (Hf2 : filter (λ z, ¬ P z) zs = zs).
    { clear -Hnone. induction Hnone as [|y l Hy _ IHl]; [done|].
      rewrite filter_cons_True by done. by rewrite IHl. }
    by rewrite Hf1, Hf2.
Qed.

Lemma sorted_prefix_index (P : Z → Prop) `{∀ z, Decision (P z)}
    (zs : list Z) (i : nat) (z : Z) :
  StronglySorted Z.lt zs →
  (∀ z z', z < z' → P z' → P z) →
  zs !! i = Some z →
  (P z ↔ (i < length (filter P zs))%nat).
Proof.
  intros Hs Hdown Hi. rewrite (sorted_prefix P zs Hs Hdown) in Hi.
  destruct (decide (i < length (filter P zs))%nat) as [Hlt|Hge].
  - rewrite lookup_app_l in Hi by done.
    apply list_elem_of_lookup_2, list_elem_of_filter in Hi as [Hz _].
    by split.
  - rewrite lookup_app_r in Hi by lia.
    apply list_elem_of_lookup_2, list_elem_of_filter in Hi as [Hz _].
    split; [done|lia].
Qed.

Lemma bisect_left_sorted (zs : list Z) (x : Z) :
  StronglySorted Z.lt zs →
  bisect_left (VInt <$> zs) (VInt x)
  = Ok (length (filter (λ z, z < x) zs)).
Proof.
  intros Hs. unfold bisect_left. rewrite length_fmap.
  apply bisect_left_loop_split; try lia.
  - intros i am Ham. rewrite list_lookup_fmap in Ham.
    destruct (zs !! i) as [z|] eqn:Hz; [|done]. injection Ham as <-.
    cbn. f_equal.
    pose proof (sorted_prefix_index (λ z, z < x) zs i z Hs) as Hiff.
    destruct (Z.ltb_spec z x); [rewrite bool_decide_eq_true_2|
                                rewrite bool_decide_eq_false_2]; try done.
    + apply Hiff; [lia|done|done].
    + intros Hlt. apply Hiff in Hlt; [lia|lia|done].
  - apply length_filter.
  - rewrite length_fmap. lia.
Qed.

Lemma bisect_right_sorted (zs : list Z) (x : Z) :
  StronglySorted Z.lt zs →
  bisect_right (VInt <$> zs) (VInt x)
  = Ok (length (filter (λ z, z ≤ x) zs)).
Proof.
  intros Hs. unfold bisect_right. rewrite length_fmap.
  apply bisect_right_loop_split; try lia.
  - intros i am Ham. rewrite list_lookup_fmap in Ham.
    destruct (zs !! i) as [z|] eqn:Hz; [|done]. injection Ham as <-.
    cbn. f_equal.
    pose proof (sorted_prefix_index (λ z, z ≤ x) zs i z Hs) as Hiff.
    destruct (Z.ltb_spec x z); [rewrite bool_decide_eq_true_2|
                                rewrite bool_decide_eq_false_2]; try done.
    + set (p := length (filter (λ z, z ≤ x) zs)) in *.
      destruct (decide (p ≤ i)%nat); [done|].
      assert (z ≤ x); [|lia]. apply Hiff; [lia|done|lia].
    + intros Hle. assert (z ≤ x) as Hz' by lia.
      apply Hiff in Hz'; [lia|lia|done].
  - apply length_filter.
  - rewrite length_fmap. lia.
Qed.

Lemma take_sorted_prefix (P : Z → Prop) `{∀ z, Decision (P z)}
    (zs : list Z) :
  StronglySorted Z.lt zs →
  (∀ z z', z < z' → P z' → P z) →
  take (length (filter P zs)) zs = filter P zs
  ∧ drop (length (filter P zs)) zs = filter (λ z, ¬ P z) zs.
Proof.
  intros Hs Hdown. pose proof (sorted_prefix P zs Hs Hdown) as Hzs.
  split.
  - rewrite Hzs at 2. apply take_app_length.
  - rewrite Hzs at 2. apply drop_app_length.
Qed.

(** The exact answers of the five range lookups on a strictly
    increasing list of integer keys. *)
Lemma keys_range_sorted (m : _MultiMap) (zs : list Z) (x : Z) :
  _keylist m = VInt <$> zs →
  StronglySorted Z.lt zs →
  keys_lt m (VInt x) = Ok (VInt <$> filter (λ z, z < x) zs) ∧
  keys_le m (VInt x) = Ok (VInt <$> filter (λ z, z ≤ x) zs) ∧
  keys_gt m (VInt x)
    = Ok (if decide (Exists (λ z, z ≤ x) zs)
          then VInt <$> filter (λ z, x < z) zs else []) ∧
  keys_ge m (VInt x)
    = Ok (if decide (Exists (λ z, z < x) zs)
          then VInt <$> filter (λ z, x ≤ z) zs else []) ∧
  keys_ne m (VInt x)
    = Ok ((VInt <$> filter (λ z, z < x) zs)
          ++ (if decide (Exists (λ z, z ≤ x) zs)
              then VInt <$> filter (λ z, x < z) zs else [])).
Proof.
  intros Hk Hs.
  destruct (take_sorted_prefix (λ z, z < x) zs Hs) as [Htl Hdl]; [lia|].
  destruct (take_sorted_prefix (λ z, z ≤ x) zs Hs) as [Hte Hde]; [lia|].
  assert (Hgt : filter (λ z, ¬ z ≤ x) zs = filter (λ z, x < z) zs)
    by (apply list_filter_iff; intros; lia).
  assert (Hge : filter (λ z, ¬ z < x) zs = filter (λ z, x ≤ z) zs)
    by (apply list_filter_iff; intros; lia).
  assert (Hzero : ∀ (P : Z → Prop) `{∀ z, Decision (P z)},
            (length (filter P zs) =? 0)%nat
            = negb (bool_decide (Exists P zs))).
  { intros P ?. destruct (filter P zs) as [|y l] eqn:Hf; cbn.
    - rewrite bool_decide_eq_false_2; [done|].
      intros (y & Hy & HP)%Exists_exists.
      by eapply filter_nil_not_elem_of.
    - rewrite bool_decide_eq_true_2; [done|].
      assert (y ∈ filter P zs) as [? ?]%list_elem_of_filter
        by (rewrite Hf; left).
      apply Exists_exists. eauto. }
  unfold keys_lt, keys_le, keys_gt, keys_ge, keys_ne. rewrite Hk.
  rewrite (bisect_left_sorted zs x Hs), (bisect_right_sorted zs x Hs).
  cbn -[filter]. rewrite !Hzero, !negb_involutive.
  rewrite <- !fmap_take, <- !fmap_drop, Htl, Hdl, Hte, Hde, Hgt, Hge.
  repeat split.
  - case_bool_decide as He; [done|].
    destruct (filter (λ z, z < x) zs) as [|y l] eqn:Hf; [done|].
    destruct He. assert (y ∈ filter (λ z, z < x) zs)
      as [? ?]%list_elem_of_filter by (rewrite Hf; left).
    apply Exists_exists. eauto.
  - case_bool_decide as He; [done|].
    destruct (filter (λ z, z ≤ x) zs) as [|y l] eqn:Hf; [done|].
    destruct He. assert (y ∈ filter (λ z, z ≤ x) zs)
      as [? ?]%list_elem_of_filter by (rewrite Hf; left).
    apply Exists_exists. eauto.
  - by destruct (decide (Exists (λ z, z ≤ x) zs));
      [rewrite bool_decide_eq_true_2|rewrite bool_decide_eq_false_2].
  - by destruct (decide (Exists (λ z, z < x) zs));
      [rewrite bool_decide_eq_true_2|rewrite bool_decide_eq_false_2].
  - f_equal. f_equal.
    + case_bool_decide as He; [done|].
      destruct (filter (λ z, z < x) zs) as [|y l] eqn:Hf; [done|].
      destruct He. assert (y ∈ filter (λ z, z < x) zs)
        as [? ?]%list_elem_of_filter by (rewrite Hf; left).
      apply Exists_exists. eauto.
    + by destruct (decide (Exists (λ z, z ≤ x) zs));
        [rewrite bool_decide_eq_true_2|rewrite bool_decide_eq_false_2].
Qed.

(** X14. On a strictly increasing list of integer keys, [keys_lt] and
    [keys_le] return exactly the stored keys below, respectively not
    above, the key asked for, in increasing order. *)
Theorem keys_lt_le_exact (m : _MultiMap) (zs : list Z) (x : Z) :
  _keylist m = VInt <$> zs →
  StronglySorted Z.lt zs →
  keys_op m op_lt (VInt x) = Ok (VInt <$> filter (λ z, z < x) zs) ∧
  keys_op m op_le (VInt x) = Ok (VInt <$> filter (λ z, z ≤ x) zs).
Proof.
  intros Hk Hs.
  destruct (keys_range_sorted m zs x Hk Hs) as (H1 & H2 & _). by split.
Qed.

(** X15. On a strictly increasing list of integer keys, [keys_gt]
    returns the stored keys above the key asked for if some stored key
    is not above it, and no key otherwise; [keys_ge] returns the stored
    keys not below the key asked for if some stored key is below it,
    and no key otherwise; [keys_ne] returns the keys below, followed by
    what [keys_gt] returns. *)
Theorem keys_gt_ge_ne_exact (m : _MultiMap) (zs : list Z) (x : Z) :
  _keylist m = VInt <$> zs →
  StronglySorted Z.lt zs →
  keys_op m op_gt (VInt x)
    = Ok (if decide (Exists (λ z, z ≤ x) zs)
          then VInt <$> filter (λ z, x < z) zs else []) ∧
  keys_op m op_ge (VInt x)
    = Ok (if decide (Exists (λ z, z < x) zs)
          then VInt <$> filter (λ z, x ≤ z) zs else []) ∧
  keys_op m op_ne (VInt x)
    = Ok ((VInt <$> filter (λ z, z < x) zs)
          ++ (if decide (Exists (λ z, z ≤ x) zs)
              then VInt <$> filter (λ z, x < z) zs else [])).
Proof.
  intros Hk Hs.
  destruct (keys_range_sorted m zs x Hk Hs) as (_ & _ & H3 & H4 & H5).
  by repeat split.
Qed.

Module Keys.

Definition m : _MultiMap :=
  {| _keylist := [VInt 1; VInt 2; VInt 3]; _key2values := ∅ |}.

Lemma sorted : StronglySorted Z.lt [1; 2; 3].
Proof. repeat constructor. Qed.

End Keys.

Lemma keys_lt_le_exact_witness :
  keys_op Keys.m op_lt (VInt 3) = Ok [VInt 1; VInt 2] ∧
  keys_op Keys.m op_le (VInt 2) = Ok [VInt 1; VInt 2].
Proof.
  split.
  - apply (keys_lt_le_exact Keys.m [1; 2; 3] 3 eq_refl Keys.sorted).
  - apply (keys_lt_le_exact Keys.m [1; 2; 3] 2 eq_refl Keys.sorted).
Defined.

Lemma keys_gt_ge_ne_exact_witness :
  keys_op Keys.m op_gt (VInt 1) = Ok [VInt 2; VInt 3] ∧
  keys_op Keys.m op_gt (VInt 0) = Ok [].
Proof.
  split.
  - apply (keys_gt_ge_ne_exact Keys.m [1; 2; 3] 1 eq_refl Keys.sorted).
  - apply (keys_gt_ge_ne_exact Keys.m [1; 2; 3] 0 eq_refl Keys.sorted).
Defined.

(** ** The invariant of the multimap *)

(** The key list holds the integer keys [zs] in strictly increasing
    order, and the dictionary has an entry for exactly these keys. *)
Definition mm_keys_inv (m : _MultiMap) (zs : list Z) : Prop :=
  _keylist m = VInt <$> zs ∧
  StronglySorted Z.lt zs ∧
  ∀ k, is_Some (_key2values m !! k) ↔ k ∈ _keylist m.

Global Instance VInt_inj : Inj (=) (=) VInt.
Proof. by intros ? ? [= ->]. Qed.

Lemma filter_all (P : Z → Prop) `{∀ z, Decision (P z)} (l : list Z) :
  Forall P l → filter P l = l.
Proof.
  induction 1 as [|y l Hy _ IH]; [done|].
  rewrite filter_cons_True by done. by rewrite IH.
Qed.

Lemma filter_none (P : Z → Prop) `{∀ z, Decision (P z)} (l : list Z) :
  Forall (λ z, ¬ P z) l → filter P l = [].
Proof.
  induction 1 as [|y l Hy _ IH]; [done|]. by rewrite filter_cons_False.
Qed.

(** The keys not below [x]: [x] itself when it is stored, then the keys
    above [x]. *)
Lemma sorted_not_below (zs : list Z) (x : Z) :
  StronglySorted Z.lt zs →
  filter (λ z, ¬ z < x) zs
  = (if decide (x ∈ zs) then [x] else []) ++ filter (λ z, x < z) zs.
Proof.
  induction 1 as [|z zs Hs IH Hall]; [done|].
  destruct (Z.lt_trichotomy z x) as [Hlt|[->|Hgt]].
  - rewrite filter_cons_False by lia.
    rewrite (filter_cons_False (λ z, x < z)) by lia. rewrite IH.
    destruct (decide (x ∈ zs)) as [Hin|Hnin].
    + rewrite decide_True by (by right). done.
    + rewrite decide_False; [done|].
      intros [->|?]%elem_of_cons; [lia|done].
  - rewrite filter_cons_True by lia.
    rewrite (filter_cons_False (λ z, x < z)) by lia.
    rewrite decide_True by left.
    rewrite (filter_all (λ z, ¬ z < x)), (filter_all (λ z, x < z)); [done| |].
    + done.
    + eapply Forall_impl; [exact Hall|]. simpl. lia.
  - rewrite filter_cons_True by lia.
    rewrite (filter_cons_True (λ z, x < z)) by lia.
    assert (Hall' : Forall (λ z', x < z') zs)
      by (eapply Forall_impl; [exact Hall|]; simpl; lia).
    rewrite decide_False.
    + rewrite (filter_all (λ z, ¬ z < x)), (filter_all (λ z, x < z)); [done| |].
      * done.
      * eapply Forall_impl; [exact Hall'|]. simpl. lia.
    + intros [->|Hin]%elem_of_cons; [lia|].
      rewrite Forall_forall in Hall'. specialize (Hall' _ Hin). lia.
Qed.

Lemma sorted_three_way (zs : list Z) (x : Z) :
  StronglySorted Z.lt zs →
  zs = filter (λ z, z < x) zs
       ++ (if decide (x ∈ zs) then [x] else [])
       ++ filter (λ z, x < z) zs.
Proof.
  intros Hs. rewrite <- sorted_not_below by done.
  apply sorted_prefix; [done|lia].
Qed.

Lemma sorted_insert (zs : list Z) (x : Z) :
  StronglySorted Z.lt zs →
  StronglySorted Z.lt
    (filter (λ z, z < x) zs ++ x :: filter (λ z, x < z) zs).
Proof.
  intros Hs. pose proof (sorted_three_way zs x Hs) as Hzs.
  rewrite Hzs in Hs. apply StronglySorted_app in Hs as (H12 & H1 & H2).
  apply StronglySorted_app_1_r in H2.
  apply StronglySorted_app_2; [|done|].
  - intros a b [Ha _]%list_elem_of_filter [->|[Hb _]%list_elem_of_filter]%elem_of_cons;
      lia.
  - constructor; [done|]. apply Forall_forall.
    by intros b [Hb _]%list_elem_of_filter.
Qed.

Lemma elem_of_sorted_insert (zs : list Z) (x z : Z) :
  z ∈ filter (λ z, z < x) zs ++ x :: filter (λ z, x < z) zs
  ↔ z = x ∨ z ∈ zs.
Proof.
  rewrite elem_of_app, elem_of_cons, !list_elem_of_filter.
  split; [naive_solver|].
  intros [->|Hz]; [by auto|].
  destruct (Z.lt_trichotomy z x) as [?|[->|?]]; auto.
Qed.

Lemma dict_append_insert (k2v : gmap value (list NonLogicalSymbol))
    (key : value) (v : NonLogicalSymbol) :
  (let k2v' := match k2v !! key with
               | None => <[key := []]> k2v
               | Some _ => k2v
               end in
   <[key := default [] (k2v' !! key) ++ [v]]> k2v')
  = <[key := default [] (k2v !! key) ++ [v]]> k2v.
Proof.
  cbn. destruct (k2v !! key) as [l|] eqn:Hl.
  - by rewrite Hl.
  - by rewrite lookup_insert_eq, insert_insert_eq.
Qed.

Lemma setitem_sorted (m : _MultiMap) (zs : list Z) (x : Z)
    (v : NonLogicalSymbol) :
  mm_keys_inv m zs →
  MultiMap_setitem m (VInt x) v
  = Ok {| _keylist :=
            VInt <$> (filter (λ z, z < x) zs ++ x :: filter (λ z, x < z) zs);
          _key2values :=
            <[VInt x := default [] (_key2values m !! VInt x) ++ [v]]>
              (_key2values m) |}.
Proof.
  intros (Hk & Hs & Hdom). unfold MultiMap_setitem.
  rewrite dict_append_insert. rewrite Hk.
  rewrite (bisect_left_sorted zs x Hs). cbn -[filter Nat.ltb].
  pose proof (sorted_three_way zs x Hs) as Hzs.
  set (p := length (filter (λ z, z < x) zs)) in *.
  destruct (decide (x ∈ zs)) as [Hin|Hnin].
  - assert (Hp : zs !! p = Some x).
    { rewrite Hzs. by apply list_lookup_middle. }
    assert (Hlt : (p <? length (VInt <$> zs))%nat = true).
    { apply Nat.ltb_lt. rewrite length_fmap. by eapply lookup_lt_Some. }
    rewrite Hlt, list_lookup_fmap, Hp. cbn -[filter].
    rewrite bool_decide_eq_true_2 by done. cbn -[filter].
    do 2 f_equal. by rewrite Hzs at 1.
  - assert (Hcond : (p <? length (VInt <$> zs))%nat
                    && bool_decide ((VInt <$> zs) !! p = Some (VInt x))
                    = false).
    { apply andb_false_iff. right. apply bool_decide_eq_false_2.
      rewrite list_lookup_fmap. intros Hp.
      destruct (zs !! p) as [z|] eqn:Hz; [|done]. injection Hp as ->.
      apply Hnin. by eapply list_elem_of_lookup_2. }
    rewrite Hcond. unfold insort_left.
    rewrite (bisect_left_sorted zs x Hs). cbn -[filter].
    fold p. do 2 f_equal.
    destruct (take_sorted_prefix (λ z, z < x) zs Hs) as [Ht Hd]; [lia|].
    fold p in Ht, Hd.
    rewrite <- fmap_take, <- fmap_drop, Ht, Hd, sorted_not_below by done.
    rewrite decide_False by done. cbn [app].
    by rewrite fmap_app, fmap_cons.
Qed.

Lemma setitem_sorted_inv (m : _MultiMap) (zs : list Z) (x : Z)
    (v : NonLogicalSymbol) :
  mm_keys_inv m zs →
  mm_keys_inv
    {| _keylist :=
         VInt <$> (filter (λ z, z < x) zs ++ x :: filter (λ z, x < z) zs);
       _key2values :=
         <[VInt x := default [] (_key2values m !! VInt x) ++ [v]]>
           (_key2values m) |}
    (filter (λ z, z < x) zs ++ x :: filter (λ z, x < z) zs).
Proof.
  intros (Hk & Hs & Hdom).
  split; [done|]. split; [by apply sorted_insert|].
  intros k. cbn -[filter]. rewrite lookup_insert_is_Some', Hdom, Hk.
  rewrite !list_elem_of_fmap. split.
  - intros [<-|(z & -> & Hz)].
    + exists x. split; [done|]. apply elem_of_sorted_insert. by left.
    + exists z. split; [done|]. apply elem_of_sorted_insert. by right.
  - intros (z & -> & [->|Hz]%elem_of_sorted_insert); [by left|].
    right. by exists z.
Qed.

(** X16. Storing a value under an integer key in a multimap that
    satisfies the invariant succeeds and keeps the invariant: the key
    list stays strictly increasing and gains the key if it is new, the
    dictionary has an entry for exactly the keys of the list, the value
    is appended to the values of its key, and the values of the other
    keys are unchanged. *)
Theorem setitem_keeps_invariant (m : _MultiMap) (zs : list Z) (x : Z)
    (v : NonLogicalSymbol) :
  mm_keys_inv m zs →
  ∃ m' zs',
    MultiMap_setitem m (VInt x) v = Ok m' ∧
    mm_keys_inv m' zs' ∧
    (∀ z, z ∈ zs' ↔ z = x ∨ z ∈ zs) ∧
    (x ∈ zs → zs' = zs) ∧
    MultiMap_getitem m' (VInt x)
      = Ok (default [] (_key2values m !! VInt x) ++ [v]) ∧
    (∀ k, k ≠ VInt x → _key2values m' !! k = _key2values m !! k).
Proof.
  intros Hinv. pose proof Hinv as (Hk & Hs & Hdom).
  eexists _, (filter (λ z, z < x) zs ++ x :: filter (λ z, x < z) zs).
  split; [by apply setitem_sorted|]. split; [|split; [|split; [|split]]].
  - by apply setitem_sorted_inv.
  - apply elem_of_sorted_insert.
  - intros Hin. rewrite (sorted_three_way zs x Hs) at 3.
    by rewrite decide_True by done.
  - unfold MultiMap_getitem. cbn -[filter]. by rewrite lookup_insert_eq.
  - intros k Hne. cbn -[filter]. by rewrite lookup_insert_ne.
Qed.

Lemma setitem_keeps_invariant_witness :
  ∃ m', MultiMap_setitem MultiMap_init (VInt 5) (Example.pt 5 0) = Ok m' ∧
        MultiMap_getitem m' (VInt 5) = Ok [Example.pt 5 0].
Proof.
  assert (Hinv : mm_keys_inv MultiMap_init []).
  { split; [done|]. split; [constructor|]. intros k. cbn.
    rewrite lookup_empty. split; [by intros [? ?]|by intros ?%elem_of_nil]. }
  destruct (setitem_keeps_invariant MultiMap_init [] 5 (Example.pt 5 0) Hinv)
    as (m' & zs' & Hset & _ & _ & _ & Hget & _).
  exists m'. split; [exact Hset|exact Hget].
Defined.

(** ** The invariant of the fact map *)

Global Instance exn_eq_dec : EqDecision exn.
Proof. solve_decision. Defined.

Global Instance result_eq_dec {A : Type} `{EqDecision A} :
  EqDecision (result A).
Proof. solve_decision. Defined.

(** The multimap of [field] files the facts of [facts] under the values
    of [field]: its keys are integers kept in strictly increasing order,
    and under each key it holds, in the order of [facts], the facts
    whose field has that value. *)
Definition index_inv (facts : list NonLogicalSymbol) (field : _Field)
    (mmap : _MultiMap) : Prop :=
  ∃ zs, mm_keys_inv mmap zs ∧
    ∀ k, _key2values mmap !! k
         = match filter (λ f, Field_get field f = Ok k) facts with
           | [] => None
           | fs => Some fs
           end.

Definition fm_inv (fm : _FactMap) : Prop :=
  match _mmaps fm with
  | Some mm => Forall (λ fmm, index_inv (_allfacts fm) fmm.1 fmm.2) mm
  | None => True
  end.

Lemma index_inv_init (field : _Field) : index_inv [] field MultiMap_init.
Proof.
  exists []. split; [|done]. split; [done|]. split; [constructor|].
  intros k. cbn. rewrite lookup_empty.
  split; [by intros [? ?]|by intros ?%elem_of_nil].
Qed.

Lemma index_inv_add (facts : list NonLogicalSymbol) (field : _Field)
    (mmap : _MultiMap) (fact : NonLogicalSymbol) (x : Z) :
  index_inv facts field mmap →
  Field_get field fact = Ok (VInt x) →
  ∃ mmap', MultiMap_setitem mmap (VInt x) fact = Ok mmap' ∧
           index_inv (facts ++ [fact]) field mmap'.
Proof.
  intros (zs & Hinv & Hk2v) Hkey.
  eexists. split; [by apply setitem_sorted|].
  eexists. split; [by apply setitem_sorted_inv|].
  intros k. cbn -[filter]. rewrite filter_app.
  destruct (decide (k = VInt x)) as [->|Hne].
  - rewrite lookup_insert_eq, Hk2v.
    rewrite (filter_cons_True _ fact) by done.
    by destruct (filter _ facts).
  - rewrite lookup_insert_ne, Hk2v by done.
    rewrite (filter_cons_False _ fact) by congruence.
    by rewrite app_nil_r.
Qed.

Lemma add_to_mmaps_inv (facts : list NonLogicalSymbol)
    (mm : list (_Field * _MultiMap)) (fact : NonLogicalSymbol) :
  Forall (λ fmm, index_inv facts fmm.1 fmm.2) mm →
  Forall (λ fld, ∃ x, Field_get fld fact = Ok (VInt x)) (mm.*1) →
  ∃ mm', add_to_mmaps mm fact = Ok mm' ∧ mm'.*1 = mm.*1 ∧
         Forall (λ fmm, index_inv (facts ++ [fact]) fmm.1 fmm.2) mm'.
Proof.
  induction 1 as [|[fld mmap] mm Hinv _ IH]; intros Hkeys.
  - by exists [].
  - rewrite fmap_cons in Hkeys. apply Forall_cons in Hkeys as [[x Hx] Hkeys].
    destruct (IH Hkeys) as (mm' & Hadd & Hfields & Hall).
    cbn in Hinv, Hx.
    destruct (index_inv_add _ _ _ _ _ Hinv Hx) as (mmap' & Hset & Hinv').
    exists ((fld, mmap') :: mm'). cbn [add_to_mmaps].
    rewrite Hx. cbn. rewrite Hset. cbn. rewrite Hadd. cbn.
    split; [done|]. split; [by rewrite Hfields|]. by constructor.
Qed.

Lemma FactMap_init_inv (index : list _Field) : fm_inv (FactMap_init index).
Proof.
  unfold fm_inv, FactMap_init. cbn.
  destruct (length index =? 0)%nat; [done|].
  apply Forall_forall. intros [fld mmap] Hin.
  apply od_of_list_spec in Hin.
  apply list_elem_of_fmap in Hin as (f & [= -> ->] & _).
  apply index_inv_init.
Qed.

Lemma FactMap_add_inv (fm : _FactMap) (fact : NonLogicalSymbol) :
  fm_inv fm →
  Forall (λ fld, ∃ x, Field_get fld fact = Ok (VInt x)) (indexed_fields fm) →
  ∃ fm', FactMap_add fm fact = Ok fm' ∧
         fm_inv fm' ∧
         _allfacts fm' = _allfacts fm ++ [fact] ∧
         indexed_fields fm' = indexed_fields fm.
Proof.
  intros Hinv Hkeys.
  unfold fm_inv, FactMap_add, indexed_fields in *.
  destruct (_mmaps fm) as [[|fmm mm]|] eqn:Hmm.
  - eexists. split; [done|]. cbn. by split; [constructor|].
  - destruct (add_to_mmaps_inv _ _ fact Hinv Hkeys)
      as (mm' & Hadd & Hfields & Hall).
    rewrite Hadd. cbn. eexists. split; [done|]. cbn.
    split; [done|]. split; [done|].
    destruct mm' as [|fmm' mm'']; [done|]. done.
  - by eexists.
Qed.

(** X17. Adding a fact whose indexed fields hold integers to a fact map
    that satisfies the invariant succeeds and keeps the invariant: the
    fact is appended to the list of all facts, the indexed fields stay
    the same, and every multimap again files exactly the facts of the
    list under the values of its field, in insertion order. The empty
    fact map satisfies the invariant. *)
Theorem FactMap_add_keeps_invariant (fm : _FactMap)
    (fact : NonLogicalSymbol) :
  fm_inv fm →
  Forall (λ fld, ∃ x, Field_get fld fact = Ok (VInt x)) (indexed_fields fm) →
  (∀ index, fm_inv (FactMap_init index)) ∧
  ∃ fm', FactMap_add fm fact = Ok fm' ∧
         fm_inv fm' ∧
         _allfacts fm' = _allfacts fm ++ [fact] ∧
         indexed_fields fm' = indexed_fields fm.
Proof.
  intros Hinv Hkeys. split; [apply FactMap_init_inv|by apply FactMap_add_inv].
Qed.

Lemma FactMap_add_keeps_invariant_witness :
  ∃ fm', FactMap_add (FactMap_init [Example.Point_x]) (Example.pt 2 4)
           = Ok fm' ∧
         _allfacts fm' = [Example.pt 2 4].
Proof.
  assert (Hinv : fm_inv (FactMap_init [Example.Point_x])).
  { apply FactMap_init_inv. }
  assert (Hkeys : Forall (λ fld, ∃ x, Field_get fld (Example.pt 2 4)
                                      = Ok (VInt x))
                         (indexed_fields (FactMap_init [Example.Point_x]))).
  { constructor; [|constructor]. exists 2. reflexivity. }
  destruct (FactMap_add_keeps_invariant _ _ Hinv Hkeys)
    as (_ & fm' & Hadd & _ & Hall & _).
  exists fm'. split; [exact Hadd|exact Hall].
Defined.

(** ** Index lookups against scans *)

(** The facts of a sequence that the where clause accepts, and those
    whose field has a given value. *)
Definition accepted (σ : gmap nat value) (w : comparator)
    (facts : list NonLogicalSymbol) : list NonLogicalSymbol :=
  filter (λ f, comparator_call σ w f = Ok true) facts.

Definition bucket (fld : _Field) (key : value)
    (facts : list NonLogicalSymbol) : list NonLogicalSymbol :=
  filter (λ f, Field_get fld f = Ok key) facts.

Lemma accepted_cons σ w f facts :
  accepted σ w (f :: facts)
  = if decide (comparator_call σ w f = Ok true)
    then f :: accepted σ w facts else accepted σ w facts.
Proof. unfold accepted. by rewrite filter_cons. Qed.

Lemma bucket_cons fld key f facts :
  bucket fld key (f :: facts)
  = if decide (Field_get fld f = Ok key)
    then f :: bucket fld key facts else bucket fld key facts.
Proof. unfold bucket. by rewrite filter_cons. Qed.

Lemma select_facts_filter σ (w : comparator)
    (facts : list NonLogicalSymbol) :
  (∀ f, ∃ b, comparator_call σ w f = Ok b) →
  select_facts σ w facts = Ok (accepted σ w facts).
Proof.
  intros Htot. induction facts as [|f facts IH]; [done|].
  cbn [select_facts]. rewrite IH, accepted_cons.
  destruct (Htot f) as [b Hb]. rewrite Hb.
  by destruct b.
Qed.

Lemma keep_better_fold_In (prio : list (_Field * nat))
    (rs : list (option (_Field * compop * operand)))
    (ix : option (_Field * compop * operand)) (r : _Field * compop * operand) :
  foldl (keep_better prio) ix rs = Some r → ix = Some r ∨ Some r ∈ rs.
Proof.
  revert ix. induction rs as [|t rs IH]; intros ix H; [by left|].
  cbn [foldl] in H. apply IH in H as [H|H]; [|right; by right].
  unfold keep_better in H. destruct t as [t|]; [|by left].
  destruct ix as [cur|].
  - destruct (priority_lt prio t.1.1 cur.1.1); [|by left].
    right. rewrite H. left.
  - right. rewrite H. left.
Qed.

Lemma call_all_true σ fact (args : list comparator) :
  call_all σ fact args = Ok true →
  Forall (λ a, comparator_call σ a fact = Ok true) args.
Proof.
  induction args as [|a args IH]; [constructor|].
  cbn [call_all]. destruct (comparator_call σ a fact) as [[|]|] eqn:Ha; cbn;
    [|done|done].
  intros H. constructor; [done|by apply IH].
Qed.

(** The leaf that the search returns is a conjunct of the where clause:
    a fact that the where clause accepts satisfies the leaf. *)
Lemma primary_search_implied (prio : list (_Field * nat)) σ (w : comparator)
    (fld : _Field) (op : compop) (a : operand) (f : NonLogicalSymbol) :
  _primary_search prio w = Some (fld, op, a) →
  comparator_call σ w f = Ok true →
  is_Field a = false ∧
  FieldComparator_call σ op (AField fld) a false false f = Ok true.
Proof.
  induction w as [v|op' a1 a2 st v|bop args IH|b|call] using comparator_ind';
    intros Hps Hcall.
  - done.
  - cbn in Hps. destruct st; [done|]. destruct a1 as [g| |]; try done.
    destruct (is_Field a2) eqn:Ha2; [done|]. cbn in Hps.
    destruct (od_get prio g); [|done]. injection Hps as -> -> ->.
    split; [done|]. exact Hcall.
  - destruct bop; [by cbn in Hps| |by cbn in Hps].
    rewrite primary_search_and in Hps. rewrite comparator_call_and in Hcall.
    apply keep_better_fold_In in Hps as [?|Hin]; [done|].
    apply list_elem_of_In, in_map_iff in Hin as (c & Hc & Hcin).
    apply list_elem_of_In in Hcin.
    apply call_all_true in Hcall.
    rewrite Forall_forall in IH, Hcall. by apply (IH c Hcin); [|apply Hcall].
  - done.
  - done.
Qed.

Lemma indexable_leaf_key σ (op : compop) (fld : _Field) (a : operand)
    (f : NonLogicalSymbol) (kv : value) :
  is_Field a = false →
  get_value σ a = AValue kv →
  FieldComparator_call σ op (AField fld) a false false f = Ok true →
  ∃ key, Field_get fld f = Ok key ∧ apply_compop op key kv = Ok true.
Proof.
  intros Ha Hv. unfold FieldComparator_call. cbn [getargval].
  destruct (Field_get fld f) as [key|e]; [|by destruct e].
  cbn. assert (getargval σ a f = Ok kv) as ->.
  { destruct a; [done| |]; cbn in *; congruence. }
  cbn. intros H. exists key. split; [done|].
  destruct (apply_compop op key kv) as [b|e]; [done|by destruct e].
Qed.

(** The relation on integers that a comparison operator stands for. *)
Definition key_rel (op : compop) (z k : Z) : Prop :=
  match op with
  | op_eq => z = k
  | op_ne => z ≠ k
  | op_lt => z < k
  | op_le => z ≤ k
  | op_gt => k < z
  | op_ge => k ≤ z
  end.

Lemma apply_compop_int (op : compop) (key : value) (k : Z) :
  op = op_eq ∨ op = op_lt ∨ op = op_le →
  apply_compop op key (VInt k) = Ok true →
  ∃ z, key = VInt z ∧ key_rel op z k.
Proof.
  intros [-> | [-> | ->]]; cbn [apply_compop key_rel].
  - unfold py_eq. intros [= H]. apply bool_decide_eq_true in H.
    subst key. by exists k.
  - destruct key as [|z|s]; cbn; [done| |done].
    intros [= H]. apply Z.ltb_lt in H. by exists z.
  - destruct key as [|z|s]; [done| |done].
    intros [= H]. apply Z.leb_le in H. by exists z.
Qed.

Lemma sorted_NoDup (zs : list Z) : StronglySorted Z.lt zs → NoDup zs.
Proof.
  induction 1 as [|z zs _ IH Hall]; constructor; [|done].
  intros Hin. rewrite Forall_forall in Hall. specialize (Hall z Hin). lia.
Qed.

(** What the lookups for [==], [<] and [<=] return in a multimap that
    satisfies the invariant: stored keys, each once, among them every
    stored key in the relation asked for. *)
Lemma keys_op_index (m : _MultiMap) (zs : list Z) (op : compop) (k : Z) :
  mm_keys_inv m zs →
  op = op_eq ∨ op = op_lt ∨ op = op_le →
  ∃ ks, keys_op m op (VInt k) = Ok ks ∧ NoDup ks ∧
        (∀ key, key ∈ ks → is_Some (_key2values m !! key)) ∧
        (∀ z, z ∈ zs → key_rel op z k → VInt z ∈ ks).
Proof.
  intros (Hk & Hs & Hdom) Hop.
  destruct (keys_range_sorted m zs k Hk Hs) as (Hlt & Hle & _).
  assert (Hfil : ∀ (P : Z → Prop) `{∀ z, Decision (P z)},
     NoDup (VInt <$> filter P zs) ∧
     (∀ key, key ∈ VInt <$> filter P zs → is_Some (_key2values m !! key)) ∧
     (∀ z, z ∈ zs → P z → VInt z ∈ VInt <$> filter P zs)).
  { intros P ?. split; [|split].
    - apply (NoDup_fmap_2 _). apply NoDup_filter. by apply sorted_NoDup.
    - intros key (z & -> & [_ Hz]%list_elem_of_filter)%list_elem_of_fmap.
      apply Hdom. rewrite Hk. apply list_elem_of_fmap. eauto.
    - intros z Hz HP. apply list_elem_of_fmap. exists z. split; [done|].
      by apply list_elem_of_filter. }
  destruct Hop as [-> | [-> | ->]]; cbn [keys_op key_rel].
  - unfold keys_eq. destruct (_key2values m !! VInt k) as [l|] eqn:Hl.
    + exists [VInt k]. split; [done|]. split; [apply NoDup_singleton|]. split.
      * intros key ->%list_elem_of_singleton. by rewrite Hl.
      * intros z _ ->. by apply list_elem_of_singleton.
    + exists []. split; [done|]. split; [constructor|]. split.
      * by intros key ?%elem_of_nil.
      * intros z Hz ->. exfalso.
        assert (is_Some (_key2values m !! VInt k)) as [? ?]; [|congruence].
        apply Hdom. rewrite Hk. apply list_elem_of_fmap. eauto.
  - eexists. split; [exact Hlt|]. apply Hfil.
  - eexists. split; [exact Hle|]. apply Hfil.
Qed.

Lemma select_keys_filter σ (w : comparator) (facts : list NonLogicalSymbol)
    (fld : _Field) (mmap : _MultiMap) (ks : list value) :
  (∀ f, ∃ b, comparator_call σ w f = Ok b) →
  index_inv facts fld mmap →
  (∀ key, key ∈ ks → is_Some (_key2values mmap !! key)) →
  select_keys σ w mmap ks
  = Ok (concat ((λ key, accepted σ w (bucket fld key facts)) <$> ks)).
Proof.
  intros Hwf (zs & _ & Hk2v) Hks. induction ks as [|key ks IH]; [done|].
  cbn [select_keys]. rewrite IH by (intros; apply Hks; by right).
  unfold MultiMap_getitem.
  assert (Hkey : _key2values mmap !! key = Some (bucket fld key facts)).
  { destruct (Hks key) as [l Hl]; [left|]. unfold bucket.
    rewrite Hk2v in Hl |- *. by destruct (filter _ facts). }
  rewrite Hkey. cbn. by rewrite select_facts_filter.
Qed.

(** Going through the buckets of pairwise distinct keys and keeping the
    accepted facts of each gives the accepted facts, up to their order,
    when every accepted fact is in one of these buckets. *)
Lemma concat_buckets_perm σ (w : comparator) (fld : _Field)
    (facts : list NonLogicalSymbol) (ks : list value) :
  NoDup ks →
  (∀ f, f ∈ facts → comparator_call σ w f = Ok true →
        ∃ key, key ∈ ks ∧ Field_get fld f = Ok key) →
  concat ((λ key, accepted σ w (bucket fld key facts)) <$> ks)
  ≡ₚ accepted σ w facts.
Proof.
  intros Hnd. induction facts as [|f facts IH]; intros Hcov.
  - clear. induction ks as [|key ks IH]; [done|]. done.
  - assert (IH' := IH (λ g Hg, Hcov g (list_elem_of_further _ _ _ Hg))).
    rewrite accepted_cons.
    destruct (decide (comparator_call σ w f = Ok true)) as [Hw|Hw].
    + destruct (Hcov f) as (key0 & Hin & Hkey0); [left|done|].
      apply list_elem_of_split in Hin as (ks1 & ks2 & ->).
      apply NoDup_app in Hnd as (_ & Hnot1 & Hnd2).
      apply NoDup_cons in Hnd2 as [Hnot2 _].
      assert (Hother : ∀ l : list value, key0 ∉ l →
                (λ key, accepted σ w (bucket fld key (f :: facts))) <$> l
                = (λ key, accepted σ w (bucket fld key facts)) <$> l).
      { intros l Hl. apply Forall_fmap_ext, Forall_forall. intros key Hk.
        rewrite bucket_cons, decide_False; [done|].
        intros Heq. rewrite Hkey0 in Heq. injection Heq as ->. done. }
      rewrite fmap_app, fmap_cons, concat_app, concat_cons in IH' |- *.
      rewrite !Hother; [|done|].
      * rewrite bucket_cons, decide_True, accepted_cons, decide_True by done.
        rewrite <- IH'. cbn [app]. by rewrite <- Permutation_middle.
      * intros Hin. apply (Hnot1 key0 Hin). left.
    + rewrite <- IH'.
      assert (Hsame : (λ key, accepted σ w (bucket fld key (f :: facts))) <$> ks
                      = (λ key, accepted σ w (bucket fld key facts)) <$> ks).
      { apply Forall_fmap_ext, Forall_forall. intros key _.
        rewrite bucket_cons. case_decide; [|done].
        by rewrite accepted_cons, decide_False. }
      by rewrite Hsame.
Qed.

(** What [where] leaves in a query made over a fact map, when it has
    picked a leaf to drive the lookup. *)
Lemma where_indexable (fm0 : _FactMap) (exprs : list comparator)
    (sel : _Select) (x : _Field * compop * operand) :
  where_ (Select_init fm0) exprs = Ok sel →
  Forall (λ e, well_formed e = true) exprs →
  Forall (λ e, callable_free e = true) exprs →
  _indexable sel = Some x →
  ∃ w, _where sel = Some w ∧ well_formed w = true ∧
       raw_free w = true ∧ callable_free w = true ∧
       _primary_search (_index_priority (Select_init fm0)) w = Some x.
Proof.
  unfold where_. cbn [_where Select_init]. intros Hsel Hwf Hcf Hix.
  assert (Hsimp : ∀ c, well_formed c = true → callable_free c = true →
            well_formed (_simplify_fact_comparator c) = true ∧
            raw_free (_simplify_fact_comparator c) = true ∧
            callable_free (_simplify_fact_comparator c) = true).
  { intros c Hw Hc. split; [by apply simplify_shape|].
    split; [by apply simplify_raw_free|by apply simplify_callable_free]. }
  destruct exprs as [|e [|e' l]].
  - injection Hsel as <-. done.
  - injection Hsel as <-. eexists. split; [done|].
    apply Forall_cons in Hwf as [Hwf _]. apply Forall_cons in Hcf as [Hcf _].
    destruct (Hsimp e Hwf Hcf) as (? & ? & ?). done.
  - destruct (and_ (e :: e' :: l)) as [c|] eqn:Hand; [|done].
    injection Hsel as <-. eexists. split; [done|].
    apply BoolComparator_init_Ok in Hand as [-> Hlen].
    destruct (Hsimp (_BoolComparator and_op (e :: e' :: l)))
      as (? & ? & ?); [| |done].
    + cbn [well_formed]. rewrite Hlen. cbn [andb].
      apply forallb_forall. intros a Ha%list_elem_of_In.
      rewrite Forall_forall in Hwf. by apply Hwf.
    + cbn [callable_free]. apply forallb_forall.
      intros a Ha%list_elem_of_In. rewrite Forall_forall in Hcf.
      by apply Hcf.
Qed.

Lemma primary_search_indexed (fm0 : _FactMap) (w : comparator)
    (fld : _Field) (op : compop) (a : operand) :
  _primary_search (_index_priority (Select_init fm0)) w = Some (fld, op, a) →
  fld ∈ indexed_fields fm0.
Proof.
  intros Hps.
  pose proof (primary_search_first_lowest
                (_index_priority (Select_init fm0)) w) as Hfl.
  rewrite Hps in Hfl. destruct Hfl as (pre & post & Hl & _).
  assert (Hin : (fld, op, a)
                ∈ spec_candidates ((_index_priority (Select_init fm0)).*1) w).
  { rewrite Hl. apply elem_of_app. right. left. }
  apply spec_candidates_indexed in Hin. cbn [fst] in Hin.
  apply od_get_is_Some in Hin.
  apply list_elem_of_fmap in Hin as ([g p] & -> & Hin).
  cbn [Select_init _index_priority] in Hin. apply od_of_list_spec in Hin.
  apply list_elem_of_lookup in Hin as (i & Hi).
  apply list_lookup_imap_Some in Hi as (g' & Hg & [= -> ->]).
  by eapply list_elem_of_lookup_2.
Qed.

Lemma indexed_multimap (fm : _FactMap) (fld : _Field) :
  fm_inv fm →
  fld ∈ indexed_fields fm →
  ∃ mmap, get_facts_multimap fm fld = Ok mmap ∧
          index_inv (_allfacts fm) fld mmap.
Proof.
  unfold fm_inv, indexed_fields, get_facts_multimap. intros Hinv Hin.
  destruct (_mmaps fm) as [[|fmm mm]|];
    [by apply elem_of_nil in Hin| |by apply elem_of_nil in Hin].
  apply od_get_is_Some in Hin as [mmap Hm]. rewrite Hm.
  exists mmap. split; [done|].
  apply od_get_elem_of in Hm. rewrite Forall_forall in Hinv.
  exact (Hinv _ Hm).
Qed.

(** X18. A query whose where clause is made of well-formed comparators,
    among which a [bool] may stand for a condition but no other object,
    and which drives its lookup by a comparison [==], [<] or [<=] of an
    indexed field with an integer, run on a fact map that satisfies the
    invariant and has the indexed fields the query was made for, yields
    the facts that a scan of all the facts with the same where clause
    yields, up to their order: the lookup loses no fact and adds none. *)
Theorem index_lookup_agrees_with_scan (fm0 fm : _FactMap)
    (exprs : list comparator) (sel : _Select) (σ : gmap nat value)
    (fld : _Field) (op : compop) (a : operand) (k : Z) :
  where_ (Select_init fm0) exprs = Ok sel →
  Forall (λ e, well_formed e = true) exprs →
  Forall (λ e, callable_free e = true) exprs →
  indexed_fields fm = indexed_fields fm0 →
  fm_inv fm →
  _indexable sel = Some (fld, op, a) →
  get_value σ a = AValue (VInt k) →
  op = op_eq ∨ op = op_lt ∨ op = op_le →
  ∃ w out scan,
    _where sel = Some w ∧
    get_results sel fm σ = Ok out ∧
    select_facts σ w (get_all_facts fm) = Ok scan ∧
    out ≡ₚ scan.
Proof.
  intros Hsel Hwf Hcf Hfields Hinv Hix Hv Hop.
  destruct (where_indexable _ _ _ _ Hsel Hwf Hcf Hix)
    as (w & Hw & Hwfw & Hrf & Hcfw & Hps).
  assert (Htot : ∀ f, ∃ b, comparator_call σ w f = Ok b)
    by (intros f; by apply comparator_call_total).
  pose proof (primary_search_indexed _ _ _ _ _ Hps) as Hfld.
  rewrite <- Hfields in Hfld.
  destruct (indexed_multimap _ _ Hinv Hfld) as (mmap & Hmm & Hidx).
  pose proof Hidx as (zs & Hkeys & Hk2v).
  destruct (keys_op_index mmap zs op k Hkeys Hop)
    as (ks & Hks & Hnd & Hsome & Hcov).
  exists w. eexists _, _. split; [done|]. split.
  { unfold get_results. rewrite Hix, Hmm. cbn. rewrite Hv, Hks. cbn.
    rewrite Hw. by apply (select_keys_filter σ w (_allfacts fm) fld). }
  split; [by apply select_facts_filter|].
  apply concat_buckets_perm; [done|].
  intros f Hf Hacc.
  destruct (primary_search_implied _ σ _ _ _ _ f Hps Hacc) as [Ha Hleaf].
  destruct (indexable_leaf_key _ _ _ _ _ _ Ha Hv Hleaf)
    as (key & Hkey & Hcmp).
  destruct (apply_compop_int _ _ _ Hop Hcmp) as (z & -> & Hrel).
  exists (VInt z). split; [|done]. apply Hcov; [|done].
  destruct Hkeys as (Hk & _ & Hdom).
  assert (Hs : is_Some (_key2values mmap !! VInt z)).
  { rewrite Hk2v.
    destruct (filter (λ f, Field_get fld f = Ok (VInt z)) (_allfacts fm))
      eqn:Hfil; [|done].
    exfalso. by eapply (filter_nil_not_elem_of _ _ f). }
  apply Hdom in Hs. rewrite Hk in Hs.
  by apply list_elem_of_fmap in Hs as (z' & [= ->] & Hz').
Qed.

Module IndexedQuery.

Definition fm0 : _FactMap := FactMap_init [Example.Point_x].

(** [Point.x <= 2] *)
Definition c : comparator :=
  _FieldComparator op_le (AField Example.Point_x) (AValue (VInt 2))
                   false false.

(** [where(True, Point.x <= 2)] *)
Definition sel : result _Select :=
  where_ (Select_init fm0) [_RawBool true; c].

End IndexedQuery.

Lemma index_lookup_agrees_with_scan_witness :
  ∃ fm1 fm sel out,
    FactMap_add IndexedQuery.fm0 (Example.pt 1 1) = Ok fm1 ∧
    FactMap_add fm1 (Example.pt 3 9) = Ok fm ∧
    IndexedQuery.sel = Ok sel ∧
    get_results sel fm ∅ = Ok out ∧
    out ≡ₚ [Example.pt 1 1].
Proof.
  assert (Hkeys1 : Forall (λ fld, ∃ x, Field_get fld (Example.pt 1 1)
                                       = Ok (VInt x))
                          (indexed_fields IndexedQuery.fm0)).
  { constructor; [|constructor]. exists 1. reflexivity. }
  assert (Hkeys2 : Forall (λ fld, ∃ x, Field_get fld (Example.pt 3 9)
                                       = Ok (VInt x))
                          (indexed_fields IndexedQuery.fm0)).
  { constructor; [|constructor]. exists 3. reflexivity. }
  destruct (FactMap_add_inv IndexedQuery.fm0 (Example.pt 1 1)
              (FactMap_init_inv _) Hkeys1)
    as (fm1 & Hadd1 & Hinv1 & Hall1 & Hf1).
  rewrite <- Hf1 in Hkeys2.
  destruct (FactMap_add_inv fm1 (Example.pt 3 9) Hinv1 Hkeys2)
    as (fm & Hadd & Hinv & Hall & Hf).
  assert (Hfields : indexed_fields fm = indexed_fields IndexedQuery.fm0)
    by (by rewrite Hf, Hf1).
  assert (Hex : ∃ sel, IndexedQuery.sel = Ok sel ∧
                       _where sel = Some IndexedQuery.c ∧
                       _indexable sel
                       = Some (Example.Point_x, op_le, AValue (VInt 2)))
    by (eexists; repeat split; reflexivity).
  destruct Hex as (sel & Hsel & Hw & Hix).
  destruct (index_lookup_agrees_with_scan IndexedQuery.fm0 fm
              [_RawBool true; IndexedQuery.c] sel ∅ Example.Point_x op_le
              (AValue (VInt 2)) 2 Hsel)
    as (w & out & scan & Hw' & Hres & Hscan & Hperm);
    [by repeat constructor|by repeat constructor|exact Hfields|exact Hinv
    |exact Hix|reflexivity|by right; right|].
  exists fm1, fm, sel, out. split; [exact Hadd1|]. split; [exact Hadd|].
  split; [exact Hsel|]. split; [exact Hres|].
  rewrite Hw in Hw'. injection Hw' as <-.
  unfold get_all_facts in Hscan. rewrite Hall, Hall1 in Hscan.
  vm_compute in Hscan. injection Hscan as <-. exact Hperm.
Defined.

(** ** Removing a key from the multimap *)

Lemma sorted_without (zs : list Z) (x : Z) :
  StronglySorted Z.lt zs →
  filter (λ z, z ≠ x) zs = filter (λ z, z < x) zs ++ filter (λ z, x < z) zs.
Proof.
  induction 1 as [|z zs Hs IH Hall]; [done|].
  destruct (Z.lt_trichotomy z x) as [Hlt|[->|Hgt]].
  - rewrite (filter_cons_True (λ z, z ≠ x)) by lia.
    rewrite (filter_cons_True (λ z, z < x)) by lia.
    rewrite (filter_cons_False (λ z, x < z)) by lia. by rewrite IH.
  - rewrite (filter_cons_False (λ z, z ≠ x)) by auto.
    rewrite (filter_cons_False (λ z, z < x)) by lia.
    rewrite (filter_cons_False (λ z, x < z)) by lia. done.
  - rewrite (filter_cons_True (λ z, z ≠ x)) by lia.
    rewrite (filter_cons_False (λ z, z < x)) by lia.
    rewrite (filter_cons_True (λ z, x < z)) by lia. rewrite IH.
    rewrite (filter_none (λ z, z < x)); [done|].
    eapply Forall_impl; [exact Hall|]. cbn. intros; lia.
Qed.

Lemma sorted_remove (zs : list Z) (x : Z) :
  StronglySorted Z.lt zs →
  StronglySorted Z.lt (filter (λ z, z < x) zs ++ filter (λ z, x < z) zs).
Proof.
  intros Hs. apply (sorted_insert zs x) in Hs.
  apply StronglySorted_app in Hs as (_ & H1 & H2).
  apply StronglySorted_cons in H2 as [_ H2].
  apply StronglySorted_app_2; [|done|done].
  intros x1 x2 [? _]%list_elem_of_filter [? _]%list_elem_of_filter. lia.
Qed.

(** X19. In a multimap that satisfies the invariant, deleting an integer
    key that is not stored raises [KeyError]; deleting a stored key
    succeeds and keeps the invariant: the key leaves the key list, whose
    other keys keep their order, its entry leaves the dictionary, and
    the entries of the other keys are unchanged. *)
Theorem delitem_keeps_invariant (m : _MultiMap) (zs : list Z) (x : Z) :
  mm_keys_inv m zs →
  (x ∉ zs → ∃ msg, MultiMap_delitem m (VInt x) = Raise (KeyError msg)) ∧
  (x ∈ zs →
   ∃ m', MultiMap_delitem m (VInt x) = Ok m' ∧
         mm_keys_inv m' (filter (λ z, z ≠ x) zs) ∧
         _key2values m' !! VInt x = None ∧
         (∀ k, k ≠ VInt x → _key2values m' !! k = _key2values m !! k)).
Proof.
  intros (Hk & Hs & Hdom). unfold MultiMap_delitem. split.
  - intros Hnin. destruct (_key2values m !! VInt x) as [l|] eqn:Hl;
      [|by eexists].
    exfalso. apply Hnin.
    assert (Hin : VInt x ∈ _keylist m) by (apply Hdom; by rewrite Hl).
    rewrite Hk in Hin.
    by apply list_elem_of_fmap in Hin as (z & [= ->] & Hz).
  - intros Hin.
    assert (Hsome : is_Some (_key2values m !! VInt x)).
    { apply Hdom. rewrite Hk. apply list_elem_of_fmap. eauto. }
    destruct Hsome as [l Hl]. rewrite Hl, Hk.
    rewrite (bisect_left_sorted zs x Hs). cbn -[filter Nat.ltb].
    pose proof (sorted_three_way zs x Hs) as Hzs.
    rewrite decide_True in Hzs by done.
    set (lo := filter (λ z, z < x) zs) in *.
    set (hi := filter (λ z, x < z) zs) in *.
    assert (Hlen : (length lo <? length (VInt <$> zs))%nat = true).
    { apply Nat.ltb_lt. rewrite length_fmap, Hzs, !length_app. cbn. lia. }
    rewrite Hlen. eexists. split; [done|].
    assert (Htake : take (length lo) zs = lo).
    { rewrite Hzs. apply take_app_length. }
    assert (Hdrop : drop (S (length lo)) zs = hi).
    { rewrite Hzs, (app_assoc lo [x] hi). apply drop_app_length'.
      rewrite length_app. cbn. lia. }
    split; [|split].
    + split; [|split]; cbn -[filter].
      * rewrite <- fmap_take, <- fmap_drop, Htake, Hdrop, <- fmap_app.
        by rewrite sorted_without.
      * rewrite sorted_without by done. by apply sorted_remove.
      * intros k. rewrite lookup_delete_is_Some, Hdom, Hk.
        rewrite <- fmap_take, <- fmap_drop, Htake, Hdrop, <- fmap_app.
        unfold lo, hi. rewrite <- sorted_without by done.
        rewrite !list_elem_of_fmap. split.
        -- intros (Hne & z & -> & Hz). exists z. split; [done|].
           apply list_elem_of_filter. split; [congruence|done].
        -- intros (z & -> & [Hne Hz]%list_elem_of_filter).
           split; [congruence|eauto].
    + cbn. apply lookup_delete_eq.
    + intros k Hne. cbn. by apply lookup_delete_ne.
Qed.

Lemma delitem_keeps_invariant_witness :
  ∃ m', MultiMap_delitem
          {| _keylist := [VInt 5];
             _key2values := {[VInt 5 := [Example.pt 5 0]]} |} (VInt 5)
        = Ok m' ∧
        _key2values m' !! VInt 5 = None.
Proof.
  assert (Hinv : mm_keys_inv
                   {| _keylist := [VInt 5];
                      _key2values := {[VInt 5 := [Example.pt 5 0]]} |} [5]).
  { split; [done|]. split; [repeat constructor|]. intros k. cbn.
    rewrite lookup_singleton_is_Some, list_elem_of_singleton.
    split; by intros ->. }
  destruct (proj2 (delitem_keeps_invariant _ [5] 5 Hinv))
    as (m' & Hdel & _ & Hnone & _); [left|].
  exists m'. split; [exact Hdel|exact Hnone].
Defined.

(** ** The fact base *)

(** The fact map that [add] and [select] find or make for a class. *)
Definition factmap_of (fb : FactBase) (c : nat) : _FactMap :=
  default (FactMap_init []) (_factmaps fb !! c).

Definition fb_inv (fb : FactBase) : Prop := ∀ c, fm_inv (factmap_of fb c).

(** The indexed fields of the class of a fact hold integers in it. *)
Definition keys_are_integers (fb : FactBase) (fact : NonLogicalSymbol)
    : Prop :=
  Forall (λ fld, ∃ x, Field_get fld fact = Ok (VInt x))
         (indexed_fields (factmap_of fb (cls_id (cls fact)))).

Lemma factmap_of_insert (fms : gmap nat _FactMap) (c0 c : nat)
    (fm : _FactMap) :
  factmap_of {| _factmaps := <[c0 := fm]> fms |} c
  = if decide (c0 = c) then fm else factmap_of {| _factmaps := fms |} c.
Proof.
  unfold factmap_of. cbn. case_decide as Hc.
  - subst c. by rewrite lookup_insert_eq.
  - by rewrite lookup_insert_ne.
Qed.

Lemma FactBase_init_inv (index : list _Field) : fb_inv (FactBase_init index).
Proof.
  intros c. unfold factmap_of, FactBase_init. cbn. rewrite lookup_fmap.
  destruct (group_index index !! c) as [fs|].
  - apply (FactMap_init_inv fs).
  - apply (FactMap_init_inv []).
Qed.

Lemma FactBase_add_inv (fb : FactBase) (fact : NonLogicalSymbol) :
  fb_inv fb →
  keys_are_integers fb fact →
  ∃ fb', FactBase_add fb fact = Ok fb' ∧ fb_inv fb' ∧
    (∀ c, _allfacts (factmap_of fb' c)
          = _allfacts (factmap_of fb c)
            ++ filter (λ f, cls_id (cls f) = c) [fact]) ∧
    (∀ c, indexed_fields (factmap_of fb' c)
          = indexed_fields (factmap_of fb c)) ∧
    predicate_types fb' = {[cls_id (cls fact)]} ∪ predicate_types fb.
Proof.
  intros Hinv Hkeys.
  destruct (FactMap_add_inv _ fact (Hinv _) Hkeys)
    as (fm' & Hadd & Hinv' & Hall & Hf).
  unfold FactBase_add. unfold factmap_of in Hadd. rewrite Hadd.
  cbn -[filter]. destruct fb as [fms]. cbn [_factmaps] in *.
  eexists. split; [done|]. split; [|split; [|split]].
  - intros c. rewrite factmap_of_insert. case_decide; [done|apply Hinv].
  - intros c. rewrite factmap_of_insert, filter_cons, filter_nil.
    destruct (decide (cls_id (cls fact) = c)) as [<-|Hne]; [done|].
    by rewrite app_nil_r.
  - intros c. rewrite factmap_of_insert.
    by destruct (decide (cls_id (cls fact) = c)) as [<-|Hne].
  - unfold predicate_types. cbn. apply dom_insert_L.
Qed.

(** X20. Adding a sequence of facts whose indexed fields hold integers
    to a fact base whose fact maps satisfy the invariant succeeds and
    keeps the invariant; the facts are filed by class, each class
    receiving its facts of the sequence in their order after the facts
    it had; the indexed fields of every class stay the same; the classes
    of the facts join the predicate types; and a query made afterwards
    for a class, without where clause, yields the facts of that class.
    A new fact base satisfies the invariant. *)
Theorem FactBase_add_files_by_class (fb : FactBase)
    (facts : list NonLogicalSymbol) :
  fb_inv fb →
  Forall (keys_are_integers fb) facts →
  (∀ index, fb_inv (FactBase_init index)) ∧
  ∃ fb', FactBase_add_all fb facts = Ok fb' ∧ fb_inv fb' ∧
    (∀ c, _allfacts (factmap_of fb' c)
          = _allfacts (factmap_of fb c)
            ++ filter (λ f, cls_id (cls f) = c) facts) ∧
    (∀ c, indexed_fields (factmap_of fb' c)
          = indexed_fields (factmap_of fb c)) ∧
    predicate_types fb'
    = list_to_set ((λ f, cls_id (cls f)) <$> facts) ∪ predicate_types fb ∧
    (∀ c σ, let '(_, fm, sel) := FactBase_select fb' c in
            get_results sel fm σ
            = Ok (_allfacts (factmap_of fb (cls_id c))
                  ++ filter (λ f, cls_id (cls f) = cls_id c) facts)).
Proof.
  intros Hinv Hkeys. split; [apply FactBase_init_inv|].
  enough (H : ∃ fb', FactBase_add_all fb facts = Ok fb' ∧ fb_inv fb' ∧
    (∀ c, _allfacts (factmap_of fb' c)
          = _allfacts (factmap_of fb c)
            ++ filter (λ f, cls_id (cls f) = c) facts) ∧
    (∀ c, indexed_fields (factmap_of fb' c)
          = indexed_fields (factmap_of fb c)) ∧
    predicate_types fb'
    = list_to_set ((λ f, cls_id (cls f)) <$> facts) ∪ predicate_types fb).
  { destruct H as (fb' & Hadd & Hinv' & Hall & Hf & Hpt).
    exists fb'. repeat split; try done.
    intros c σ. unfold FactBase_select, get_results. cbn.
    fold (factmap_of fb' (cls_id c)). apply f_equal, Hall. }
  revert fb Hinv Hkeys. induction facts as [|f facts IH]; intros fb Hinv Hkeys.
  - exists fb. split; [done|]. split; [done|]. split; [|split; [done|]].
    + intros c. by rewrite filter_nil, app_nil_r.
    + cbn. set_solver.
  - apply Forall_cons in Hkeys as [Hf Hkeys].
    destruct (FactBase_add_inv fb f Hinv Hf)
      as (fb1 & Hadd1 & Hinv1 & Hall1 & Hf1 & Hpt1).
    destruct (IH fb1 Hinv1) as (fb' & Hadd & Hinv' & Hall & Hf' & Hpt).
    { eapply Forall_impl; [exact Hkeys|]. intros g Hg.
      unfold keys_are_integers in *. by rewrite Hf1. }
    exists fb'.
    split; [cbn [FactBase_add_all]; rewrite Hadd1; exact Hadd|].
    split; [done|]. split; [|split].
    + intros c. rewrite Hall, Hall1, <- app_assoc. f_equal.
      rewrite (filter_cons _ f facts), filter_cons, filter_nil.
      by destruct (decide (cls_id (cls f) = c)).
    + intros c. by rewrite Hf', Hf1.
    + rewrite Hpt, Hpt1, fmap_cons. cbn. set_solver.
Qed.

Lemma FactBase_add_files_by_class_witness :
  ∃ fb', FactBase_add_all (FactBase_init [Example.Point_x])
           [Example.pt 1 1; Example.pt 2 4] = Ok fb' ∧
         _allfacts (factmap_of fb' 1) = [Example.pt 1 1; Example.pt 2 4].
Proof.
  assert (Hkeys : Forall (keys_are_integers (FactBase_init [Example.Point_x]))
                         [Example.pt 1 1; Example.pt 2 4]).
  { constructor; [|constructor; [|constructor]].
    - constructor; [|constructor]. exists 1. reflexivity.
    - constructor; [|constructor]. exists 2. reflexivity. }
  destruct (FactBase_add_files_by_class _ _ (FactBase_init_inv _) Hkeys)
    as (_ & fb' & Hadd & _ & Hall & _).
  exists fb'. split; [exact Hadd|]. exact (Hall 1%nat).
Defined.

Lemma FactMap_clear_fields (fm : _FactMap) :
  indexed_fields (FactMap_clear fm) = indexed_fields fm.
Proof.
  unfold indexed_fields, FactMap_clear. cbn.
  destruct (_mmaps fm) as [[|fmm mm]|]; [done| |done].
  cbn. f_equal. rewrite <- list_fmap_compose.
  by apply list_fmap_ext.
Qed.

Lemma FactMap_clear_inv (fm : _FactMap) : fm_inv (FactMap_clear fm).
Proof.
  unfold fm_inv, FactMap_clear. cbn. destruct (_mmaps fm) as [mm|]; [|done].
  apply Forall_fmap, Forall_forall. intros fmm _. apply index_inv_init.
Qed.

(** X21. Clearing a fact base empties the facts of every class, keeps
    the predicate types and the indexed fields of every class, and
    leaves fact maps that satisfy the invariant, whatever the fact base
    held. *)
Theorem FactBase_clear_keeps_indexes (fb : FactBase) (c : nat) :
  _allfacts (factmap_of (FactBase_clear fb) c) = [] ∧
  indexed_fields (factmap_of (FactBase_clear fb) c)
  = indexed_fields (factmap_of fb c) ∧
  predicate_types (FactBase_clear fb) = predicate_types fb ∧
  fb_inv (FactBase_clear fb).
Proof.
  assert (Hof : ∀ c', factmap_of (FactBase_clear fb) c'
                      = match _factmaps fb !! c' with
                        | Some fm => FactMap_clear fm
                        | None => FactMap_init []
                        end).
  { intros c'. unfold factmap_of, FactBase_clear. cbn. rewrite lookup_fmap.
    by destruct (_factmaps fb !! c'). }
  split; [|split; [|split]].
  - rewrite Hof. by destruct (_factmaps fb !! c).
  - rewrite Hof. unfold factmap_of.
    destruct (_factmaps fb !! c) as [fm|]; [|done].
    apply FactMap_clear_fields.
  - unfold predicate_types, FactBase_clear. cbn. apply dom_fmap_L.
  - intros c'. rewrite Hof. destruct (_factmaps fb !! c') as [fm|].
    + apply FactMap_clear_inv.
    + apply FactMap_init_inv.
Qed.

(** ** Keys of mixed types *)

Lemma bisect_mixed (zs : list Z) (s : string) :
  zs ≠ [] →
  (∃ msg, bisect_left (VInt <$> zs) (VStr s) = Raise (TypeError msg)) ∧
  (∃ msg, bisect_right (VInt <$> zs) (VStr s) = Raise (TypeError msg)).
Proof.
  intros Hne. unfold bisect_left, bisect_right. rewrite length_fmap.
  destruct zs as [|z zs]; [done|]. cbn [length].
  cbn -[Nat.div lookup fmap]. rewrite ?Nat.add_0_l.
  assert (Hmid : (S (length zs) / 2 < length (VInt <$> z :: zs))%nat).
  { rewrite length_fmap. cbn [length]. apply Nat.div_lt; lia. }
  apply lookup_lt_is_Some in Hmid as [am Ham]. rewrite Ham.
  rewrite list_lookup_fmap in Ham.
  destruct ((z :: zs) !! (S (length zs) / 2)%nat) as [z'|]; [|done].
  injection Ham as <-. cbn. split; by eexists.
Qed.

(** X22. In a multimap that satisfies the invariant and holds at least
    one integer key, a string key cannot be used: storing a value under
    it raises [TypeError], and so do the lookups for [!=], [<], [<=],
    [>] and [>=]; the lookup for [==] returns no key. *)
Theorem mixed_keys_raise (m : _MultiMap) (zs : list Z) (s : string)
    (v : NonLogicalSymbol) :
  mm_keys_inv m zs →
  zs ≠ [] →
  (∃ msg, MultiMap_setitem m (VStr s) v = Raise (TypeError msg)) ∧
  (∀ op, op ≠ op_eq →
         ∃ msg, keys_op m op (VStr s) = Raise (TypeError msg)) ∧
  keys_op m op_eq (VStr s) = Ok [].
Proof.
  intros (Hk & Hs & Hdom) Hne.
  destruct (bisect_mixed zs s Hne) as [[msg1 Hl] [msg2 Hr]].
  split; [|split].
  - exists msg1. unfold MultiMap_setitem. by rewrite Hk, Hl.
  - intros op Hop. unfold keys_op, keys_ne, keys_lt, keys_le, keys_gt, keys_ge.
    rewrite Hk, Hl, Hr. destruct op; by eauto.
  - cbn. unfold keys_eq. destruct (_key2values m !! VStr s) as [l|] eqn:Hlk;
      [|done].
    assert (Hin : VStr s ∈ _keylist m) by (apply Hdom; by rewrite Hlk).
    rewrite Hk in Hin. by apply list_elem_of_fmap in Hin as (z & ? & _).
Qed.

Lemma mixed_keys_raise_witness :
  ∃ msg, MultiMap_setitem
           {| _keylist := [VInt 5];
              _key2values := {[VInt 5 := [Example.pt 5 0]]} |}
           (VStr "a") (Example.pt 5 0)
         = Raise (TypeError msg).
Proof.
  assert (Hinv : mm_keys_inv
                   {| _keylist := [VInt 5];
                      _key2values := {[VInt 5 := [Example.pt 5 0]]} |} [5]).
  { split; [done|]. split; [repeat constructor|]. intros k. cbn.
    rewrite lookup_singleton_is_Some, list_elem_of_singleton.
    split; by intros ->. }
  exact (proj1 (mixed_keys_raise _ [5] "a" (Example.pt 5 0) Hinv
                  ltac:(discriminate))).
Defined.

(** ** Access to the fields by position *)

Lemma field_accessor_lookup (c : predicate_cls) (pos : nat) (fa : _Field) :
  _field_accessors c !! pos = Some fa →
  field_names (meta c) !! pos = Some (_field_name fa) ∧
  _parent_cls fa = cls_id c.
Proof.
  unfold _field_accessors, field_names. intros Hfa.
  apply list_lookup_imap_Some in Hfa as (fd & Hfd & ->). cbn.
  by rewrite list_lookup_fmap, Hfd.
Qed.

Lemma field_accessors_length (c : predicate_cls) :
  length (_field_accessors c) = arity (meta c).
Proof.
  unfold _field_accessors, arity, field_names.
  by rewrite length_imap, length_fmap.
Qed.

Lemma getitem_accessor (f : NonLogicalSymbol) (idx : Z) (fa : _Field) :
  tuple_getitem (_field_accessors (cls f)) idx = Some fa →
  getitem f idx = get_field_value f (_field_name fa).
Proof.
  intros Hfa. unfold getitem. rewrite Hfa.
  unfold tuple_getitem in Hfa.
  destruct (tuple_index _ idx) as [pos|]; [|done].
  apply field_accessor_lookup in Hfa as [_ Hp].
  unfold Field_get, isinstance. by rewrite Hp, bool_decide_eq_true_2.
Qed.

(** X23. Assignment by position to a field of a fact, the position
    being an integer that counts from the end when it is negative,
    raises [IndexError] when the position is not between minus the
    arity and the arity, and succeeds otherwise; the fact it leaves
    belongs to the same class, reads the assigned value at that
    position and at the other integer that designates the same field,
    and, the field names being distinct, reads at every integer that
    designates another field, or none, what the fact read before. *)
Theorem setitem_then_getitem (f : NonLogicalSymbol) (idx : Z) (v : value) :
  NoDup (field_names (meta (cls f))) →
  (idx < - Z.of_nat (arity (meta (cls f)))
   ∨ Z.of_nat (arity (meta (cls f))) ≤ idx →
   ∃ msg, setitem f idx v = Raise (IndexError msg)) ∧
  (- Z.of_nat (arity (meta (cls f))) ≤ idx < Z.of_nat (arity (meta (cls f))) →
   ∃ f', setitem f idx v = Ok f' ∧
         cls f' = cls f ∧
         getitem f' idx = Ok v ∧
         (∀ j, - Z.of_nat (arity (meta (cls f))) ≤ j
               < Z.of_nat (arity (meta (cls f))) →
               j = idx + Z.of_nat (arity (meta (cls f)))
               ∨ j = idx - Z.of_nat (arity (meta (cls f))) →
               getitem f' j = Ok v) ∧
         (∀ j, j ≠ idx →
               j ≠ idx + Z.of_nat (arity (meta (cls f))) →
               j ≠ idx - Z.of_nat (arity (meta (cls f))) →
               getitem f' j = getitem f j)).
Proof.
  intros Hnd. pose proof (field_accessors_length (cls f)) as Hlen.
  set (n := arity (meta (cls f))) in *.
  split.
  - intros Hout. unfold setitem, tuple_getitem. rewrite Hlen.
    rewrite (proj2 (tuple_index_None n idx)) by done. by eexists.
  - intros Hin.
    destruct (tuple_index n idx) as [pos|] eqn:Hpos;
      [|apply tuple_index_None in Hpos; lia].
    pose proof (proj1 (tuple_index_Some _ _ _) Hpos) as [Hlt Hidx].
    assert (Hfa : is_Some (_field_accessors (cls f) !! pos)).
    { apply lookup_lt_is_Some. by rewrite Hlen. }
    destruct Hfa as [fa Hfa].
    assert (Hat : ∀ j, tuple_index n j = Some pos →
                       tuple_getitem (_field_accessors (cls f)) j = Some fa).
    { intros j Hj. unfold tuple_getitem. by rewrite Hlen, Hj. }
    exists (set_field_value f (_field_name fa) v).
    split; [by apply setitem_succeeds, Hat|]. split; [done|].
    assert (Hread : ∀ j, tuple_index n j = Some pos →
              getitem (set_field_value f (_field_name fa) v) j = Ok v).
    { intros j Hj. rewrite (getitem_accessor _ j fa) by by apply Hat.
      unfold get_field_value. cbn. by rewrite lookup_insert_eq. }
    split; [by apply Hread|]. split.
    + intros j Hj Hsame. apply Hread, tuple_index_Some. split; [done|]. lia.
    + intros j H1 H2 H3.
      destruct (tuple_index n j) as [q|] eqn:Hq.
      * pose proof (proj1 (tuple_index_Some _ _ _) Hq) as [Hqlt Hqj].
        assert (Hfb : is_Some (_field_accessors (cls f) !! q)).
        { apply lookup_lt_is_Some. by rewrite Hlen. }
        destruct Hfb as [fb Hfb].
        assert (Hjb : tuple_getitem (_field_accessors (cls f)) j = Some fb).
        { unfold tuple_getitem. by rewrite Hlen, Hq. }
        rewrite (getitem_accessor f j fb) by done.
        rewrite (getitem_accessor (set_field_value f (_field_name fa) v)
                   j fb) by done.
        unfold get_field_value. cbn. rewrite lookup_insert_ne; [done|].
        intros Heq.
        apply field_accessor_lookup in Hfa as [Hfa _].
        apply field_accessor_lookup in Hfb as [Hfb _].
        rewrite Heq in Hfa.
        assert (pos = q) by (by eapply NoDup_lookup). lia.
      * unfold getitem, tuple_getitem. cbn [set_field_value cls].
        by rewrite Hlen, Hq.
Qed.

Lemma setitem_then_getitem_witness :
  ∃ f', setitem (Example.pt 1 2) (-1) (VInt 7) = Ok f' ∧
        getitem f' (-1) = Ok (VInt 7) ∧
        getitem f' 1 = Ok (VInt 7) ∧
        getitem f' 0 = Ok (VInt 1).
Proof.
  assert (Hnd : NoDup (field_names (meta (cls (Example.pt 1 2)))))
    by (by apply (bool_decide_unpack _)).
  destruct (proj2 (setitem_then_getitem (Example.pt 1 2) (-1) (VInt 7) Hnd))
    as (f' & Hset & _ & Hget & Hsame & Hother); [cbn; lia|].
  exists f'. split; [exact Hset|]. split; [exact Hget|].
  split; [apply Hsame; cbn; lia|].
  rewrite (Hother 0) by (cbn; lia). reflexivity.
Defined.
